(** * OpenDiablo2 map renderer: d2core/d2map/d2maprenderer/renderer.go

    A shallow embedding of the map renderer's animation clock and of its
    three-pass layered draw, with the properties of both. *)

From Stdlib Require Import String.
From Stdlib Require Import ZArith List Bool Lia QArith Qround Qabs Qpower Lqa.
From Stdlib Require Import Floats.PrimFloat Floats.SpecFloat Floats.FloatOps
  Floats.FloatAxioms.
Import ListNotations.

Local Open Scope Z_scope.

(** ** Go numeric types *)

Module GoNum.

(** Go's [int] on the 64-bit targets: two's complement, wrapping. *)
Definition minInt : Z := - 2 ^ 63.
Definition maxInt : Z := 2 ^ 63 - 1.

Definition wrap64 (z : Z) : Z := (z + 2 ^ 63) mod 2 ^ 64 - 2 ^ 63.

Definition inInt (z : Z) : bool := (minInt <=? z) && (z <=? maxInt).

(** [byte(x)] for an int [x]. *)
Definition to_byte (z : Z) : Z := z mod 256.

(** The integer part of a binary64 value, rounded toward zero; [None] for
    NaN and the infinities. *)
Definition trunc_SF (f : spec_float) : option Z :=
  match f with
  | S754_zero _ => Some 0
  | S754_finite s m e =>
      let v := match e with
               | Zneg p => Z.quot (Zpos m) (2 ^ Zpos p)
               | _ => Zpos m * 2 ^ e
               end in
      Some (if s then - v else v)
  | S754_infinity _ | S754_nan => None
  end.

(** [math.Floor] followed by the integer reading: rounded toward minus
    infinity. *)
Definition floor_SF (f : spec_float) : option Z :=
  match f with
  | S754_zero _ => Some 0
  | S754_finite s m e =>
      let n := if s then Zneg m else Zpos m in
      Some match e with
           | Zneg p => Z.div n (2 ^ Zpos p)
           | _ => n * 2 ^ e
           end
  | S754_infinity _ | S754_nan => None
  end.

Section Conversions.

(** The Go specification leaves [int(f)] implementation-dependent when
    [f] has no representation in [int] (NaN, infinities, magnitude
    2^63 and above); [oob] is the value the target produces there. *)
Variable oob : float -> Z.

(** [int(f)] for a float64 [f]: the fraction is discarded. *)
Definition int_of_float (f : float) : Z :=
  match trunc_SF (Prim2SF f) with
  | Some z => if inInt z then z else wrap64 (oob f)
  | None => wrap64 (oob f)
  end.

End Conversions.

(** [float64(n)] for an int [n]: round to nearest, ties to even. *)
Definition float_of_int (n : Z) : float :=
  SF2Prim (binary_normalize prec emax n 0 false).

(** amd64: CVTTSD2SQ answers the "integer indefinite" value. *)
Definition oob_amd64 (_ : float) : Z := minInt.

(** arm64: FCVTZS saturates, and NaN gives 0. *)
Definition oob_arm64 (f : float) : Z :=
  if is_nan f then 0 else if ltb f zero then minInt else maxInt.

End GoNum.

Import GoNum.

(** ** Map data read by the renderer (d2ds1, d2enum, d2mapengine) *)

(** [d2enum.TileType], a byte. *)
Definition TileType := Z.

(** A [d2render.Surface] held by the tile image cache. *)
Definition Image := Z.

(** [color.RGBA]. *)
Record RGBA := mkRGBA { cR : Z; cG : Z; cB : Z; cA : Z }.

(** [d2ds1.FloorShadowRecord]. *)
Record FloorShadowRecord := mkFloorShadow {
  fs_Prop1 : Z;
  fs_Sequence : Z;
  fs_Style : Z;
  fs_Hidden : bool;
  fs_RandomIndex : Z;
  fs_Animated : bool;
  fs_YAdjust : Z
}.

(** [d2ds1.WallRecord]. *)
Record WallRecord := mkWall {
  w_Type : TileType;
  w_Prop1 : Z;
  w_Sequence : Z;
  w_Style : Z;
  w_Hidden : bool;
  w_RandomIndex : Z;
  w_YAdjust : Z
}.

(** [d2ds1.TileRecord]. *)
Record TileRecord := mkTile {
  Floors : list FloorShadowRecord;
  Walls : list WallRecord;
  Shadows : list FloorShadowRecord
}.

(** A [MapEntity]: what [GetPosition] answers, and a name for the entity
    whose [Render] is called. *)
Record MapEntity := mkEntity {
  ent_id : Z;
  ent_X : float;
  ent_Y : float
}.

(** What the renderer asks of [d2mapengine.MapEngine]: [Size()],
    [TileAt(x, y)], [Entities()] and the [Walkable] flags of
    [WalkMesh()]. *)
Record MapEngine := mkEngine {
  Width : Z;
  Height : Z;
  TileAt : Z -> Z -> TileRecord;
  Entities : list MapEntity;
  WalkMesh : list bool
}.

(** The fields of [MapRenderer] read or written by [Render] and [Advance].
    [viewport] is a pointer: its target lives in the [Store] below. *)
Record MapRenderer := mkRenderer {
  mapEngine : MapEngine;
  debugVisLevel : Z;
  lastFrameTime : float;
  currentFrame : Z
}.

(** ** The transform stack *)

(** Modelled from the spec: the [Viewport] type is declared outside
    renderer.go.  Its translation stack is a LIFO stack of cumulative
    pixel offsets; a push computes the new offset relative to the top
    and pushes it, a pop removes the top. *)
Record Viewport := mkViewport { transStack : list (float * float) }.

(** Modelled from the spec: the cumulative offset in effect is the top
    of the stack (the origin when the stack is empty). *)
Definition transCurrent (v : Viewport) : float * float :=
  hd (zero, zero) (transStack v).

(** Modelled from the spec: a push computes the new offset relative to
    the current one and pushes it. *)
Definition pushOffset (d : float * float) (v : Viewport) : Viewport :=
  let (cx, cy) := transCurrent v in
  mkViewport ((cx + fst d, cy + snd d)%float :: transStack v).

(** Modelled from the spec: a pop removes the top offset and restores
    the previous cumulative offset. *)
Definition popOffset (v : Viewport) : Viewport :=
  mkViewport (tl (transStack v)).

(** ** Collaborators whose code is elsewhere *)

(** The parts of the package and of its imports that renderer.go calls
    and that only read: the [d2enum.TileType] predicates and the [Roof]
    constant, the tile image cache lookup, the viewport's conversions,
    and the target's choice for an unrepresentable [int(f)]. *)
Record Host := mkHost {
  Roof : TileType;
  LowerWall : TileType -> bool;
  UpperWall : TileType -> bool;
  Special : TileType -> bool;
  getImageCacheRecord : Z -> Z -> TileType -> Z -> option Image;
  WorldToOrtho : float -> float -> float * float;
  WorldToScreen : Viewport -> float -> float -> Z * Z;
  IsTileVisible : Viewport -> float -> float -> bool;
  GetTranslationScreen : Viewport -> Z * Z;
  oob : float -> Z
}.

(** The same host with another tile image cache. *)
Definition withCache (c : Z -> Z -> TileType -> Z -> option Image)
  (h : Host) : Host :=
  mkHost (Roof h) (LowerWall h) (UpperWall h) (Special h) c
    (WorldToOrtho h) (WorldToScreen h) (IsTileVisible h)
    (GetTranslationScreen h) (oob h).

(** ** Calls observed on the viewport, the target surface and the log *)

Inductive Call :=
| VPushTranslationWorld (x y : float)
| VPushTranslationOrtho (x y : float)
| VPopTranslation
| TPushTranslation (x y : Z)
| TPushColor (c : RGBA)
| TPop
| TPopN (n : Z)
| TRender (img : Image)
| TDrawLine (x y : Z) (c : RGBA)
| TDrawText (fmt : String.string) (args : list Z)
| TDrawRect (w h : Z) (c : RGBA)
| EntityRender (id : Z)
| LogPrintf (fmt : String.string) (args : list Z).

(** The arguments of one cache lookup: style, sequence, type, index. *)
Definition Key := (Z * Z * TileType * Z)%type.

(** A call together with its origin (ghost data, not in the program):
    the grid cell whose loop iteration was running, and the cache key of
    the sub-record whose draw helper was running, if any. *)
Record Event := mkEvent {
  ev_tile : option (Z * Z);
  ev_key : option Key;
  ev_call : Call
}.

(** The mutable objects: the viewport [mr.viewport] points to (the
    [viewport] parameter of the passes and of [renderWall] is the same
    pointer), and the calls made so far; [cur_tile] and [cur_key] are
    the ghost origin stamped on each call. *)
Record Store := mkStore {
  viewport : Viewport;
  calls : list Event;
  cur_tile : option (Z * Z);
  cur_key : option Key
}.

(** A computation on the store that may panic. *)
Definition M (A : Type) : Type := Store -> option (A * Store).

Definition ret {A} (a : A) : M A := fun s => Some (a, s).

Definition bind {A B} (m : M A) (k : A -> M B) : M B :=
  fun s => match m s with
           | Some (a, s') => k a s'
           | None => None
           end.

Definition panic {A} : M A := fun _ => None.

Declare Scope go_scope.
Delimit Scope go_scope with go.
Notation "x <- m ;; k" := (bind m (fun x => k))
  (at level 61, m at next level, right associativity) : go_scope.
Notation "m ;; k" := (bind m (fun _ => k))
  (at level 61, right associativity) : go_scope.
Local Open Scope go_scope.

Definition emit (c : Call) : M unit :=
  fun s => Some (tt, mkStore (viewport s)
                       (calls s ++ [mkEvent (cur_tile s) (cur_key s) c])
                       (cur_tile s) (cur_key s)).

Definition getViewport : M Viewport := fun s => Some (viewport s, s).

Definition setViewport (v : Viewport) : M unit :=
  fun s => Some (tt, mkStore v (calls s) (cur_tile s) (cur_key s)).

(** Ghost scopes: run [m] with the origin set, then restore it. *)
Definition inTile {A} (x y : Z) (m : M A) : M A :=
  fun s => match m (mkStore (viewport s) (calls s) (Some (x, y)) (cur_key s)) with
           | Some (a, s') =>
               Some (a, mkStore (viewport s') (calls s') (cur_tile s) (cur_key s'))
           | None => None
           end.

Definition inRecord {A} (k : Key) (m : M A) : M A :=
  fun s => match m (mkStore (viewport s) (calls s) (cur_tile s) (Some k)) with
           | Some (a, s') =>
               Some (a, mkStore (viewport s') (calls s') (cur_tile s') (cur_key s))
           | None => None
           end.

(** [for _, x := range l { body }]. *)
Fixpoint forEach {A} (l : list A) (body : A -> M unit) : M unit :=
  match l with
  | [] => ret tt
  | x :: r => body x ;; forEach r body
  end.

(** The values of [for i := a; i <= b; i++], and of
    [for i := 0; i < n; i++]. *)
Definition fromTo (a b : Z) : list Z :=
  map (fun k => a + Z.of_nat k) (seq 0 (Z.to_nat (b - a + 1))).

Definition upTo (n : Z) : list Z := fromTo 0 (n - 1).

(** The pairs of [for i, x := range l]. *)
Definition indexed {A} (l : list A) : list (Z * A) :=
  combine (upTo (Z.of_nat (length l))) l.

(** [s[i]]: a run-time panic outside [0, len(s)). *)
Definition index {A} (l : list A) (i : Z) : M A :=
  if i <? 0 then panic
  else match nth_error l (Z.to_nat i) with
       | Some a => ret a
       | None => panic
       end.

(** ** renderer.go *)

Section Renderer.

Variable h : Host.

(** Modelled from the spec: [Viewport.PushTranslationOrtho] is defined
    outside renderer.go; it pushes one cumulative offset. *)
Definition PushTranslationOrtho (x y : float) : M unit :=
  v <- getViewport ;;
  setViewport (pushOffset (x, y) v) ;;
  emit (VPushTranslationOrtho x y).

(** Modelled from the spec: [Viewport.PushTranslationWorld] is defined
    outside renderer.go; it pushes the offset of a world position. *)
Definition PushTranslationWorld (x y : float) : M unit :=
  v <- getViewport ;;
  setViewport (pushOffset (WorldToOrtho h x y) v) ;;
  emit (VPushTranslationWorld x y).

(** Modelled from the spec: [Viewport.PopTranslation] is defined
    outside renderer.go; it removes the top offset. *)
Definition PopTranslation : M unit :=
  v <- getViewport ;;
  setViewport (popOffset v) ;;
  emit VPopTranslation.

(** [target.PushTranslation(mr.viewport.GetTranslationScreen())]. *)
Definition pushTranslationScreen : M unit :=
  v <- getViewport ;;
  let (x, y) := GetTranslationScreen h v in
  emit (TPushTranslation x y).

(** The arguments of the cache lookup each draw helper makes (ghost: the
    helpers stamp their calls with them). *)
Definition floorKey (mr : MapRenderer) (tile : FloorShadowRecord) : Key :=
  (fs_Style tile, fs_Sequence tile, 0,
   if negb (fs_Animated tile) then fs_RandomIndex tile
   else to_byte (currentFrame mr)).

Definition wallKey (tile : WallRecord) : Key :=
  (w_Style tile, w_Sequence tile, w_Type tile, w_RandomIndex tile).

Definition shadowKey (tile : FloorShadowRecord) : Key :=
  (fs_Style tile, fs_Sequence tile, 13, fs_RandomIndex tile).

(** [func (mr *MapRenderer) renderFloor].  The deferred calls run when
    the function returns, the latest first: [target.Pop()], then
    [mr.viewport.PopTranslation()]. *)
Definition renderFloor (mr : MapRenderer) (tile : FloorShadowRecord) : M unit :=
  inRecord (floorKey mr tile) (
    let img :=
      if negb (fs_Animated tile) then
        getImageCacheRecord h (fs_Style tile) (fs_Sequence tile) 0
          (fs_RandomIndex tile)
      else
        getImageCacheRecord h (fs_Style tile) (fs_Sequence tile) 0
          (to_byte (currentFrame mr)) in
    match img with
    | None =>
        emit (LogPrintf "Render called on uncached floor {%v,%v}"%string
                [fs_Style tile; fs_Sequence tile])
    | Some img =>
        PushTranslationOrtho (-80)%float (float_of_int (fs_YAdjust tile)) ;;
        pushTranslationScreen ;;
        emit (TRender img) ;;
        emit TPop ;;
        PopTranslation
    end).

(** [func (mr *MapRenderer) renderWall].  Its [viewport] argument is
    [mr.viewport] at every call site. *)
Definition renderWall (tile : WallRecord) : M unit :=
  inRecord (wallKey tile) (
    let img :=
      getImageCacheRecord h (w_Style tile) (w_Sequence tile) (w_Type tile)
        (w_RandomIndex tile) in
    match img with
    | None =>
        emit (LogPrintf "Render called on uncached wall {%v,%v,%v}"%string
                [w_Style tile; w_Sequence tile; w_Type tile])
    | Some img =>
        PushTranslationOrtho (-80)%float
          (float_of_int (w_YAdjust tile) - 8)%float ;;
        pushTranslationScreen ;;
        emit (TRender img) ;;
        emit TPop ;;
        PopTranslation
    end).

(** [func (mr *MapRenderer) renderShadow].  The receiver of the deferred
    [PopTranslation] is evaluated at the [defer] statement, so the push
    on the viewport happens there and only the pop is deferred; it runs
    after the deferred [target.PopN(2)]. *)
Definition renderShadow (tile : FloorShadowRecord) : M unit :=
  inRecord (shadowKey tile) (
    let img :=
      getImageCacheRecord h (fs_Style tile) (fs_Sequence tile) 13
        (fs_RandomIndex tile) in
    match img with
    | None =>
        emit (LogPrintf "Render called on uncached shadow {%v,%v}"%string
                [fs_Style tile; fs_Sequence tile])
    | Some img =>
        PushTranslationOrtho (-80)%float (float_of_int (fs_YAdjust tile)) ;;
        pushTranslationScreen ;;
        emit (TPushColor (mkRGBA 255 255 255 160)) ;;
        emit (TRender img) ;;
        emit (TPopN 2) ;;
        PopTranslation
    end).

(** [func (mr *MapRenderer) renderTilePass1]. *)
Definition renderTilePass1 (mr : MapRenderer) (tile : TileRecord) : M unit :=
  forEach (Walls tile) (fun wall =>
    if negb (w_Hidden wall) && negb (w_Prop1 wall =? 0)
       && LowerWall h (w_Type wall)
    then renderWall wall else ret tt) ;;
  forEach (Floors tile) (fun floor =>
    if negb (fs_Hidden floor) && negb (fs_Prop1 floor =? 0)
    then renderFloor mr floor else ret tt) ;;
  forEach (Shadows tile) (fun shadow =>
    if negb (fs_Hidden shadow) && negb (fs_Prop1 shadow =? 0)
    then renderShadow shadow else ret tt).

(** [func (mr *MapRenderer) renderTilePass2]. *)
Definition renderTilePass2 (tile : TileRecord) : M unit :=
  forEach (Walls tile) (fun wall =>
    if negb (w_Hidden wall) && UpperWall h (w_Type wall)
    then renderWall wall else ret tt).

(** [func (mr *MapRenderer) renderTilePass3]. *)
Definition renderTilePass3 (tile : TileRecord) : M unit :=
  forEach (Walls tile) (fun wall =>
    if w_Type wall =? Roof h
    then renderWall wall else ret tt).

(** [func (mr *MapRenderer) renderPass1]: rows outside, columns inside,
    [IsTileVisible] asked for every cell. *)
Definition renderPass1 (mr : MapRenderer) : M unit :=
  forEach (upTo (Height (mapEngine mr))) (fun tileY =>
    forEach (upTo (Width (mapEngine mr))) (fun tileX =>
      inTile tileX tileY (
        let tile := TileAt (mapEngine mr) tileX tileY in
        v <- getViewport ;;
        if IsTileVisible h v (float_of_int tileX) (float_of_int tileY)
        then
          PushTranslationWorld (float_of_int tileX) (float_of_int tileY) ;;
          renderTilePass1 mr tile ;;
          PopTranslation
        else ret tt))).

(** [func (mr *MapRenderer) renderPass2]. *)
Definition renderPass2 (mr : MapRenderer) : M unit :=
  forEach (upTo (Height (mapEngine mr))) (fun tileY =>
    forEach (upTo (Width (mapEngine mr))) (fun tileX =>
      inTile tileX tileY (
        let tile := TileAt (mapEngine mr) tileX tileY in
        v <- getViewport ;;
        if IsTileVisible h v (float_of_int tileX) (float_of_int tileY)
        then
          PushTranslationWorld (float_of_int tileX) (float_of_int tileY) ;;
          renderTilePass2 tile ;;
          forEach (Entities (mapEngine mr)) (fun mapEntity =>
            let entityX := ent_X mapEntity in
            let entityY := ent_Y mapEntity in
            if negb (int_of_float (oob h) entityX =? tileX)
               || negb (int_of_float (oob h) entityY =? tileY)
            then ret tt
            else
              pushTranslationScreen ;;
              emit (EntityRender (ent_id mapEntity)) ;;
              emit TPop) ;;
          PopTranslation
        else ret tt))).

(** [func (mr *MapRenderer) renderPass3]. *)
Definition renderPass3 (mr : MapRenderer) : M unit :=
  forEach (upTo (Height (mapEngine mr))) (fun tileY =>
    forEach (upTo (Width (mapEngine mr))) (fun tileX =>
      inTile tileX tileY (
        let tile := TileAt (mapEngine mr) tileX tileY in
        v <- getViewport ;;
        if IsTileVisible h v (float_of_int tileX) (float_of_int tileY)
        then
          PushTranslationWorld (float_of_int tileX) (float_of_int tileY) ;;
          renderTilePass3 tile ;;
          PopTranslation
        else ret tt))).

Definition subTileColor : RGBA := mkRGBA 80 80 255 50.
Definition tileColor : RGBA := mkRGBA 255 255 255 100.
Definition tileCollisionColor : RGBA := mkRGBA 128 0 0 100.

(** The index into the walk mesh; int arithmetic wraps. *)
Definition walkIndex (mr : MapRenderer) (ax ay xx yy : Z) : Z :=
  wrap64 (((yy + ay * 5) * Width (mapEngine mr) * 5) + xx + ax * 5).

(** [func (mr *MapRenderer) renderTileDebug]. *)
Definition renderTileDebug (mr : MapRenderer) (ax ay : Z)
  (debugVisLevel : Z) : M unit :=
  v <- getViewport ;;
  let '(screenX1, screenY1) :=
    WorldToScreen h v (float_of_int ax) (float_of_int ay) in
  let '(screenX2, screenY2) :=
    WorldToScreen h v (float_of_int (wrap64 (ax + 1))) (float_of_int ay) in
  let '(screenX3, screenY3) :=
    WorldToScreen h v (float_of_int ax) (float_of_int (wrap64 (ay + 1))) in
  emit (TPushTranslation screenX1 screenY1) ;;
  emit (TDrawLine (wrap64 (screenX2 - screenX1))
          (wrap64 (screenY2 - screenY1)) tileColor) ;;
  emit (TDrawLine (wrap64 (screenX3 - screenX1))
          (wrap64 (screenY3 - screenY1)) tileColor) ;;
  emit (TPushTranslation (-10) 10) ;;
  emit (TDrawText "%v, %v"%string [ax; ay]) ;;
  emit TPop ;;
  (if 1 <? debugVisLevel then
     forEach (fromTo 1 4) (fun i =>
       let x2 := i * 16 in
       let y2 := i * 8 in
       emit (TPushTranslation (- x2) y2) ;;
       emit (TDrawLine 80 40 subTileColor) ;;
       emit TPop ;;
       emit (TPushTranslation x2 y2) ;;
       emit (TDrawLine (-80) 40 subTileColor) ;;
       emit TPop) ;;
     forEach (indexed (Walls (TileAt (mapEngine mr) ax ay))) (fun iw =>
       let (i, wall) := iw in
       if Special h (w_Type wall) then
         emit (TPushTranslation (-20) (wrap64 (10 + (i + 1) * 14))) ;;
         emit (TDrawText "s: %v-%v"%string [w_Style wall; w_Sequence wall]) ;;
         emit TPop
       else ret tt) ;;
     forEach (upTo 5) (fun yy =>
       forEach (upTo 5) (fun xx =>
         let isoX := (xx - yy) * 16 in
         let isoY := (xx + yy) * 8 in
         walkable <- index (WalkMesh (mapEngine mr)) (walkIndex mr ax ay xx yy) ;;
         if negb walkable then
           emit (TPushTranslation (isoX - 3) (isoY + 4)) ;;
           emit (TDrawRect 5 5 tileCollisionColor) ;;
           emit TPop
         else ret tt))
   else ret tt) ;;
  emit TPop.

(** [func (mr *MapRenderer) renderDebug]. *)
Definition renderDebug (mr : MapRenderer) (debugVisLevel : Z) : M unit :=
  forEach (upTo (Height (mapEngine mr))) (fun tileY =>
    forEach (upTo (Width (mapEngine mr))) (fun tileX =>
      inTile tileX tileY (
        v <- getViewport ;;
        if IsTileVisible h v (float_of_int tileX) (float_of_int tileY)
        then
          PushTranslationWorld (float_of_int tileX) (float_of_int tileY) ;;
          renderTileDebug mr tileX tileY debugVisLevel ;;
          PopTranslation
        else ret tt))).

(** [func (mr *MapRenderer) Render]. *)
Definition Render (mr : MapRenderer) : M unit :=
  renderPass1 mr ;;
  (if 0 <? debugVisLevel mr then renderDebug mr (debugVisLevel mr)
   else ret tt) ;;
  renderPass2 mr ;;
  renderPass3 mr.

End Renderer.

(** [func (mr *MapRenderer) Advance].  Each float64 operation rounds on
    its own (no fused multiply-add). *)
Definition Advance (oob : float -> Z) (elapsed : float)
  (mr : MapRenderer) : MapRenderer :=
  let frameLength := 0x1.999999999999ap-4%float in    (* 0.1 *)
  let t := (lastFrameTime mr + elapsed)%float in
  let framesAdvanced := int_of_float oob (t / frameLength)%float in
  let t := (t - float_of_int framesAdvanced * frameLength)%float in
  let c := wrap64 (currentFrame mr + framesAdvanced) in
  mkRenderer (mapEngine mr) (debugVisLevel mr) t (if 9 <? c then 0 else c).

(** One [Advance] per element, first to last. *)
Definition AdvanceAll (oob : float -> Z) (ds : list float)
  (mr : MapRenderer) : MapRenderer :=
  fold_left (fun m d => Advance oob d m) ds mr.

(** The count [framesAdvanced] of the call [Advance(elapsed)]. *)
Definition framesAdvanced (oob : float -> Z) (elapsed : float)
  (mr : MapRenderer) : Z :=
  int_of_float oob
    ((lastFrameTime mr + elapsed) / 0x1.999999999999ap-4)%float.

(** The animation fields as [CreateMapRenderer] leaves them: zero. *)
Definition CreateMapRenderer (e : MapEngine) : MapRenderer :=
  mkRenderer e 0 zero 0.

(** ** What a run leaves behind *)

(** The store after [evs] more calls, everything else as before. *)
Definition extend (s : Store) (evs : list Event) : Store :=
  mkStore (viewport s) (calls s ++ evs) (cur_tile s) (cur_key s).

(** The result of a computation that either makes the calls [evs] and
    restores the viewport, or panics. *)
Definition outcome (s : Store) (r : option (list Event)) : option (unit * Store) :=
  match r with
  | Some evs => Some (tt, extend s evs)
  | None => None
  end.

(** Concatenation of per-item results, stopping at the first panic. *)
Fixpoint flatMapOpt {A B} (f : A -> option (list B)) (l : list A) : option (list B) :=
  match l with
  | [] => Some []
  | x :: r =>
      match f x with
      | None => None
      | Some a =>
          match flatMapOpt f r with
          | None => None
          | Some b => Some (a ++ b)
          end
      end
  end.

Definition appOpt {B} (a b : option (list B)) : option (list B) :=
  match a, b with
  | Some x, Some y => Some (x ++ y)
  | _, _ => None
  end.

(** The store on entry to a public call: [pre] holds the calls made
    before, no ghost origin is set. *)
Definition entry (v : Viewport) (pre : list Event) : Store :=
  mkStore v pre None None.

(** ** The layered draw as the specification describes it

    The calls of a frame written as lists: per sub-record, per tile, per
    pass.  [v] is the viewport in effect, [t] and [k] the ghost origin. *)

Section DrawSpec.

Variable h : Host.

Definition stamp (t : option (Z * Z)) (k : option Key) (cs : list Call) : list Event :=
  map (mkEvent t k) cs.

(** The image the tile cache holds under a key, if any. *)
Definition lookup (k : Key) : option Image :=
  let '(style, sequence, tileType, index) := k in
  getImageCacheRecord h style sequence tileType index.

(** Handing the viewport's cumulative offset to the surface. *)
Definition screenPush (v : Viewport) : Call :=
  let (x, y) := GetTranslationScreen h v in TPushTranslation x y.

(** A draw anchored at the ortho offset [(dx, dy)]: the offset is pushed
    on the viewport, the resulting screen translation on the surface,
    [draw] is issued, and the viewport offset is popped. *)
Definition anchored (v : Viewport) (dx dy : float) (draw : list Call) : list Call :=
  VPushTranslationOrtho dx dy
    :: screenPush (pushOffset (dx, dy) v)
    :: draw ++ [VPopTranslation].

(** A cache miss logs and draws nothing; a hit draws the image. *)
Definition wallCalls (v : Viewport) (w : WallRecord) : list Call :=
  match lookup (wallKey w) with
  | None => [LogPrintf "Render called on uncached wall {%v,%v,%v}"%string
               [w_Style w; w_Sequence w; w_Type w]]
  | Some img =>
      anchored v (-80)%float (float_of_int (w_YAdjust w) - 8)%float
        [TRender img; TPop]
  end.

Definition floorCalls (mr : MapRenderer) (v : Viewport) (f : FloorShadowRecord) : list Call :=
  match lookup (floorKey mr f) with
  | None => [LogPrintf "Render called on uncached floor {%v,%v}"%string
               [fs_Style f; fs_Sequence f]]
  | Some img =>
      anchored v (-80)%float (float_of_int (fs_YAdjust f)) [TRender img; TPop]
  end.

Definition shadowCalls (v : Viewport) (f : FloorShadowRecord) : list Call :=
  match lookup (shadowKey f) with
  | None => [LogPrintf "Render called on uncached shadow {%v,%v}"%string
               [fs_Style f; fs_Sequence f]]
  | Some img =>
      anchored v (-80)%float (float_of_int (fs_YAdjust f))
        [TPushColor (mkRGBA 255 255 255 160); TRender img; TPopN 2]
  end.

Definition wallEvents (v : Viewport) (t : option (Z * Z)) (w : WallRecord) : list Event :=
  stamp t (Some (wallKey w)) (wallCalls v w).

Definition floorEvents (mr : MapRenderer) (v : Viewport) (t : option (Z * Z))
  (f : FloorShadowRecord) : list Event :=
  stamp t (Some (floorKey mr f)) (floorCalls mr v f).

Definition shadowEvents (v : Viewport) (t : option (Z * Z)) (f : FloorShadowRecord) : list Event :=
  stamp t (Some (shadowKey f)) (shadowCalls v f).

(** Pass 1 takes the lower walls that are not hidden and have prop1 set,
    and the floors and shadows that are not hidden and have prop1 set. *)
Definition pass1Wall (w : WallRecord) : bool :=
  LowerWall h (w_Type w) && negb (w_Hidden w) && negb (w_Prop1 w =? 0).

Definition pass1FloorShadow (f : FloorShadowRecord) : bool :=
  negb (fs_Hidden f) && negb (fs_Prop1 f =? 0).

(** Pass 2 takes the upper walls that are not hidden. *)
Definition pass2Wall (w : WallRecord) : bool :=
  UpperWall h (w_Type w) && negb (w_Hidden w).

(** Pass 3 takes the walls whose shape-type is roof. *)
Definition pass3Wall (w : WallRecord) : bool :=
  w_Type w =? Roof h.

(** Walls, then floors, then shadows, each list in its stored order. *)
Definition tilePass1 (mr : MapRenderer) (v : Viewport) (t : option (Z * Z))
  (tile : TileRecord) : list Event :=
  flat_map (wallEvents v t) (filter pass1Wall (Walls tile))
  ++ flat_map (floorEvents mr v t) (filter pass1FloorShadow (Floors tile))
  ++ flat_map (shadowEvents v t) (filter pass1FloorShadow (Shadows tile)).

(** An entity stands on the tile [(x, y)] when [cell] sends each of its
    coordinates to the tile's. *)
Definition onTile (cell : float -> Z) (x y : Z) (e : MapEntity) : bool :=
  (cell (ent_X e) =? x) && (cell (ent_Y e) =? y).

(** The entity draws itself between a push of the tile's cumulative
    screen translation and its pop. *)
Definition entityEvents (v : Viewport) (t : option (Z * Z)) (k : option Key)
  (e : MapEntity) : list Event :=
  stamp t k [screenPush v; EntityRender (ent_id e); TPop].

(** Upper walls, then the entities standing on the tile, in the engine's
    order. *)
Definition tilePass2 (cell : float -> Z) (mr : MapRenderer) (v : Viewport)
  (t : option (Z * Z)) (k : option Key) (x y : Z) (tile : TileRecord) : list Event :=
  flat_map (wallEvents v t) (filter pass2Wall (Walls tile))
  ++ flat_map (entityEvents v t k) (filter (onTile cell x y) (Entities (mapEngine mr))).

Definition tilePass3 (v : Viewport) (t : option (Z * Z)) (tile : TileRecord) : list Event :=
  flat_map (wallEvents v t) (filter pass3Wall (Walls tile)).

(** The grid in sweep order: rows outside, columns inside. *)
Definition sweep (e : MapEngine) : list (Z * Z) :=
  flat_map (fun y => map (fun x => (x, y)) (upTo (Width e))) (upTo (Height e)).

(** One cell of a sweep: nothing when the tile is not visible; otherwise
    the tile's world offset is pushed, [inner] runs under it, and the
    offset is popped. *)
Definition visibleBlock (v : Viewport) (k : option Key)
  (inner : Viewport -> Z -> Z -> list Event) (p : Z * Z) : list Event :=
  let (x, y) := p in
  let fx := float_of_int x in
  let fy := float_of_int y in
  if IsTileVisible h v fx fy then
    mkEvent (Some (x, y)) k (VPushTranslationWorld fx fy)
      :: inner (pushOffset (WorldToOrtho h fx fy) v) x y
      ++ [mkEvent (Some (x, y)) k VPopTranslation]
  else [].

Definition sweepBlocks (mr : MapRenderer) (v : Viewport) (k : option Key)
  (inner : Viewport -> Z -> Z -> list Event) : list Event :=
  flat_map (visibleBlock v k inner) (sweep (mapEngine mr)).

(** The same when the work under the offset may panic. *)
Definition visibleTile (v : Viewport) (k : option Key)
  (inner : Viewport -> Z -> Z -> option (list Event)) (p : Z * Z) : option (list Event) :=
  let (x, y) := p in
  let fx := float_of_int x in
  let fy := float_of_int y in
  if IsTileVisible h v fx fy then
    appOpt (Some [mkEvent (Some (x, y)) k (VPushTranslationWorld fx fy)])
      (appOpt (inner (pushOffset (WorldToOrtho h fx fy) v) x y)
         (Some [mkEvent (Some (x, y)) k VPopTranslation]))
  else Some [].

Definition sweepEvents (mr : MapRenderer) (v : Viewport) (k : option Key)
  (inner : Viewport -> Z -> Z -> option (list Event)) : option (list Event) :=
  flatMapOpt (visibleTile v k inner) (sweep (mapEngine mr)).

Definition pass1Events (mr : MapRenderer) (v : Viewport) (k : option Key) : list Event :=
  sweepBlocks mr v k (fun v' x y =>
    tilePass1 mr v' (Some (x, y)) (TileAt (mapEngine mr) x y)).

Definition pass2Events (cell : float -> Z) (mr : MapRenderer) (v : Viewport)
  (k : option Key) : list Event :=
  sweepBlocks mr v k (fun v' x y =>
    tilePass2 cell mr v' (Some (x, y)) k x y (TileAt (mapEngine mr) x y)).

Definition pass3Events (mr : MapRenderer) (v : Viewport) (k : option Key) : list Event :=
  sweepBlocks mr v k (fun v' x y =>
    tilePass3 v' (Some (x, y)) (TileAt (mapEngine mr) x y)).

(** The debug overlay of one tile. *)
Definition gridLines (i : Z) : list Call :=
  [TPushTranslation (- (i * 16)) (i * 8); TDrawLine 80 40 subTileColor; TPop;
   TPushTranslation (i * 16) (i * 8); TDrawLine (-80) 40 subTileColor; TPop].

Definition specialLabel (iw : Z * WallRecord) : list Call :=
  let (i, wall) := iw in
  if Special h (w_Type wall) then
    [TPushTranslation (-20) (wrap64 (10 + (i + 1) * 14));
     TDrawText "s: %v-%v"%string [w_Style wall; w_Sequence wall]; TPop]
  else [].

Definition meshAt (mr : MapRenderer) (i : Z) : option bool :=
  if i <? 0 then None else nth_error (WalkMesh (mapEngine mr)) (Z.to_nat i).

Definition walkMarker (mr : MapRenderer) (ax ay yy xx : Z) : option (list Call) :=
  match meshAt mr (walkIndex mr ax ay xx yy) with
  | None => None
  | Some true => Some []
  | Some false =>
      Some [TPushTranslation ((xx - yy) * 16 - 3) ((xx + yy) * 8 + 4);
            TDrawRect 5 5 tileCollisionColor; TPop]
  end.

Definition debugOutline (v : Viewport) (ax ay : Z) : list Call :=
  let '(screenX1, screenY1) :=
    WorldToScreen h v (float_of_int ax) (float_of_int ay) in
  let '(screenX2, screenY2) :=
    WorldToScreen h v (float_of_int (wrap64 (ax + 1))) (float_of_int ay) in
  let '(screenX3, screenY3) :=
    WorldToScreen h v (float_of_int ax) (float_of_int (wrap64 (ay + 1))) in
  [TPushTranslation screenX1 screenY1;
   TDrawLine (wrap64 (screenX2 - screenX1)) (wrap64 (screenY2 - screenY1)) tileColor;
   TDrawLine (wrap64 (screenX3 - screenX1)) (wrap64 (screenY3 - screenY1)) tileColor;
   TPushTranslation (-10) 10; TDrawText "%v, %v"%string [ax; ay]; TPop].

Definition debugDetail (mr : MapRenderer) (ax ay : Z) : option (list Call) :=
  appOpt
    (Some (flat_map gridLines (fromTo 1 4)
           ++ flat_map specialLabel (indexed (Walls (TileAt (mapEngine mr) ax ay)))))
    (flatMapOpt (fun yy => flatMapOpt (walkMarker mr ax ay yy) (upTo 5)) (upTo 5)).

Definition debugCalls (mr : MapRenderer) (level : Z) (v : Viewport) (ax ay : Z) : option (list Call) :=
  appOpt (Some (debugOutline v ax ay))
    (appOpt (if 1 <? level then debugDetail mr ax ay else Some [])
       (Some [TPop])).

Definition debugEvents (mr : MapRenderer) (level : Z) (v : Viewport) (k : option Key) : option (list Event) :=
  sweepEvents mr v k (fun v' x y =>
    option_map (stamp (Some (x, y)) k) (debugCalls mr level v' x y)).

(** A frame: pass 1, the debug overlay when enabled, pass 2, pass 3. *)
Definition overlayEvents (mr : MapRenderer) (v : Viewport) (k : option Key) : option (list Event) :=
  if 0 <? debugVisLevel mr then debugEvents mr (debugVisLevel mr) v k
  else Some [].

Definition frameEvents (cell : float -> Z) (mr : MapRenderer) (v : Viewport)
  (k : option Key) : option (list Event) :=
  match overlayEvents mr v k with
  | None => None
  | Some overlay =>
      Some (pass1Events mr v k ++ overlay
            ++ pass2Events cell mr v k ++ pass3Events mr v k)
  end.

End DrawSpec.

(** The grid sweep that the three passes and the debug pass each spell
    out, with the per-tile work as a parameter. *)
Definition sweepLoop (h : Host) (mr : MapRenderer) (body : Z -> Z -> M unit) : M unit :=
  forEach (upTo (Height (mapEngine mr))) (fun tileY =>
    forEach (upTo (Width (mapEngine mr))) (fun tileX =>
      inTile tileX tileY (
        v <- getViewport ;;
        if IsTileVisible h v (float_of_int tileX) (float_of_int tileY)
        then
          PushTranslationWorld h (float_of_int tileX) (float_of_int tileY) ;;
          body tileX tileY ;;
          PopTranslation
        else ret tt))).

(** ** Measures on a run *)

(** The change of the viewport's stack depth by one call, and of the
    target surface's translation/tint stack depth. *)
Definition vDelta (c : Call) : Z :=
  match c with
  | VPushTranslationWorld _ _ | VPushTranslationOrtho _ _ => 1
  | VPopTranslation => -1
  | _ => 0
  end.

Definition tDelta (c : Call) : Z :=
  match c with
  | TPushTranslation _ _ | TPushColor _ => 1
  | TPop => -1
  | TPopN n => - n
  | _ => 0
  end.

(** The depth, relative to [d] at the start, after the calls [evs];
    [None] as soon as a pop reaches below the starting level 0. *)
Fixpoint depthRun (delta : Call -> Z) (d : Z) (evs : list Event) : option Z :=
  match evs with
  | [] => Some d
  | e :: r =>
      let d' := d + delta (ev_call e) in
      if d' <? 0 then None else depthRun delta d' r
  end.

(** Every push of [evs] is closed by a later pop and no pop comes
    without its push. *)
Definition balanced (delta : Call -> Z) (evs : list Event) : Prop :=
  forall d, 0 <= d -> depthRun delta d evs = Some d.

(** The walk mesh holds the 5 x 5 sub-cells of every tile of the grid. *)
Definition meshCovers (e : MapEngine) : bool :=
  (Width e * 5 * (Height e * 5) <=? Z.of_nat (length (WalkMesh e)))
  && (Z.of_nat (length (WalkMesh e)) <=? maxInt).

Definition keyEqb (a b : Key) : bool :=
  let '(a1, a2, a3, a4) := a in
  let '(b1, b2, b3, b4) := b in
  (a1 =? b1) && (a2 =? b2) && (a3 =? b3) && (a4 =? b4).

(** The events of the sub-records looked up under [k0], and the others. *)
Definition isFor (k0 : Key) (e : Event) : bool :=
  match ev_key e with
  | Some k => keyEqb k k0
  | None => false
  end.

Definition notFor (k0 : Key) (e : Event) : bool := negb (isFor k0 e).

Definition isLog (c : Call) : bool :=
  match c with LogPrintf _ _ => true | _ => false end.

Definition isRender (c : Call) : bool :=
  match c with TRender _ => true | _ => false end.

(** A cache that lacks the image of [k0] and is otherwise [c]. *)
Definition without (k0 : Key) (c : Z -> Z -> TileType -> Z -> option Image)
  : Z -> Z -> TileType -> Z -> option Image :=
  fun style sequence tileType index =>
    if keyEqb (style, sequence, tileType, index) k0 then None
    else c style sequence tileType index.

(** The grid cell below a position: rounding toward minus infinity. *)
Definition floor_of_float (oob : float -> Z) (f : float) : Z :=
  match floor_SF (Prim2SF f) with
  | Some z => if inInt z then z else wrap64 (oob f)
  | None => wrap64 (oob f)
  end.

(** Every call of [Advance] along the run consumes a count of frames
    that is not negative and that the frame index can take without
    overflow. *)
Fixpoint ticksInRange (oob : float -> Z) (ds : list float) (mr : MapRenderer) : bool :=
  match ds with
  | [] => true
  | d :: r =>
      (0 <=? framesAdvanced oob d mr)
      && (currentFrame mr + framesAdvanced oob d mr <=? maxInt)
      && ticksInRange oob r (Advance oob d mr)
  end.

(** ** The animation clock over exact rationals

    [Advance] with float64 read as the rationals, so that no operation
    rounds and the frame length is exactly 1/10. *)

Record ClockQ := mkClockQ {
  accQ : Q;        (* lastFrameTime *)
  frameQ : Z       (* currentFrame *)
}.

(** [int(q)]: the fraction is discarded. *)
Definition truncQ (q : Q) : Z := Z.quot (Qnum q) (Zpos (Qden q)).

Definition AdvanceQ (elapsed : Q) (c : ClockQ) : ClockQ :=
  let frameLength := (1 # 10)%Q in
  let t := (accQ c + elapsed)%Q in
  let framesAdvanced := truncQ (t / frameLength)%Q in
  let t := (t - inject_Z framesAdvanced * frameLength)%Q in
  let f := wrap64 (frameQ c + framesAdvanced) in
  mkClockQ t (if 9 <? f then 0 else f).

Definition AdvanceAllQ (ds : list Q) (c : ClockQ) : ClockQ :=
  fold_left (fun s d => AdvanceQ d s) ds c.

Definition sumQ (ds : list Q) : Q := fold_right Qplus 0%Q ds.

(** ** A sample scene *)

Module Sample.

(** A host: the theorems below hold for every host, this one serves to
    run the code.  Tiles of column 2 and beyond are not visible. *)
Definition host : Host :=
  mkHost 15
    (fun t => (16 <=? t) && (t <=? 19))
    (fun t => (1 <=? t) && (t <=? 9))
    (fun t => (t =? 10) || (t =? 11))
    (fun style sequence tileType index =>
       if style =? 0 then None else Some (style * 100 + sequence))
    (fun x y => ((x - y) * 80, (x + y) * 40)%float)
    (fun v x y => (int_of_float oob_amd64 ((x - y) * 80)%float,
                   int_of_float oob_amd64 ((x + y) * 40)%float))
    (fun v x y => ltb x 2)
    (fun v => (int_of_float oob_amd64 (fst (transCurrent v)),
               int_of_float oob_amd64 (snd (transCurrent v))))
    oob_amd64.

(** A roof wall with the hidden flag set; its image is cached. *)
Definition hiddenRoof : WallRecord := mkWall 15 1 2 1 true 0 0.

Definition lowerWall : WallRecord := mkWall 16 1 3 1 false 0 0.
Definition upperWall : WallRecord := mkWall 1 0 4 1 false 0 0.
Definition floorA : FloorShadowRecord := mkFloorShadow 1 5 1 false 0 false 0.
Definition floorUncached : FloorShadowRecord := mkFloorShadow 1 6 0 false 0 false 0.
Definition shadowA : FloorShadowRecord := mkFloorShadow 1 7 1 false 0 false 0.

Definition tile0 : TileRecord :=
  mkTile [floorA; floorUncached] [hiddenRoof; lowerWall; upperWall] [shadowA].

(** One entity left of the grid, within a unit of column 0, and one on
    tile (0, 0). *)
Definition entities : list MapEntity :=
  [mkEntity 1 (-0.5)%float 0.5%float; mkEntity 2 0.5%float 0.5%float].

(** A 3 x 1 grid, every cell holding [tile0]; the walk mesh has its 75
    sub-cells, none walkable. *)
Definition engine : MapEngine :=
  mkEngine 3 1 (fun _ _ => tile0) entities (repeat false 75).

(** A 1 x 1 grid holding only the hidden roof. *)
Definition roofEngine : MapEngine :=
  mkEngine 1 1 (fun _ _ => mkTile [] [hiddenRoof] []) [] [].

Definition renderer (level : Z) : MapRenderer :=
  mkRenderer engine level zero 0.

Definition start : Store := entry (mkViewport []) [].

End Sample.

(** The call was issued for a tile at which [IsTileVisible] answers
    true (asked on the viewport as [Render] found it). *)
Definition onVisibleTile (h : Host) (v : Viewport) (e : Event) : Prop :=
  match ev_tile e with
  | Some (x, y) => IsTileVisible h v (float_of_int x) (float_of_int y) = true
  | None => False
  end.

(** [evs'] is [evs] with the draws of the sub-records looked up under
    [k0] skipped: the calls of everything else are the same in the same
    order, the sub-records of [k0] left only diagnostics in [evs'], and
    one diagnostic stands for each draw (or diagnostic) they had in
    [evs]. *)
Definition skipsOnly (k0 : Key) (evs' evs : list Event) : Prop :=
  filter (notFor k0) evs' = filter (notFor k0) evs
  /\ Forall (fun e => isFor k0 e = true -> isLog (ev_call e) = true) evs'
  /\ length (filter (isFor k0) evs')
     = length (filter (fun e => isFor k0 e
                                && (isLog (ev_call e) || isRender (ev_call e))) evs).

(** The host whose tile image cache has lost the image of [k0]. *)
Definition dropImage (k0 : Key) (h : Host) : Host :=
  withCache (without k0 (getImageCacheRecord h)) h.

(** No call of the run takes the frame index above 9, so the reset to 0
    is never taken. *)
Fixpoint noReset (oob : float -> Z) (ds : list float) (mr : MapRenderer) : bool :=
  match ds with
  | [] => true
  | d :: r =>
      (wrap64 (currentFrame mr + framesAdvanced oob d mr) <=? 9)
      && noReset oob r (Advance oob d mr)
  end.

(** The float64 sum of the deltas, first to last. *)
Definition sumFloat (ds : list float) : float := fold_left add ds zero.

(** ** Readings of the specification that the code does not follow *)

(** Pass 2 with the entities located by the floor of their position. *)
Definition pass2_locates_by_floor : Prop :=
  forall h mr v pre,
    renderPass2 h mr (entry v pre)
    = Some (tt, entry v (pre ++ pass2Events h (floor_of_float (oob h)) mr v None)).

(** No drift, in float64: deltas that are not negative, no reset in
    either run, same final state. *)
Definition no_drift_in_float64 : Prop :=
  forall oob ds mr,
    forallb (fun d => leb zero d) ds = true ->
    noReset oob ds mr = true ->
    noReset oob [sumFloat ds] mr = true ->
    AdvanceAll oob ds mr = Advance oob (sumFloat ds) mr.

(** ** Further measures on a run *)

(** The net change of a stack depth over [evs], and the highest level
    reached above the starting one. *)
Definition net (delta : Call -> Z) (evs : list Event) : Z :=
  fold_right (fun e a => delta (ev_call e) + a) 0 evs.

Fixpoint rise (delta : Call -> Z) (evs : list Event) : Z :=
  match evs with
  | [] => 0
  | e :: r => Z.max 0 (delta (ev_call e) + rise delta r)
  end.

(** [evs] ends at the level it started from and never stands more than
    [n] above it. *)
Definition nested (delta : Call -> Z) (n : Z) (evs : list Event) : Prop :=
  net delta evs = 0 /\ rise delta evs <= n.

Definition isEntityRender (c : Call) : bool :=
  match c with EntityRender _ => true | _ => false end.

Definition isDrawRect (c : Call) : bool :=
  match c with TDrawRect _ _ _ => true | _ => false end.

(** The calls the debug overlay makes. *)
Definition isOverlayCall (c : Call) : bool :=
  match c with
  | TPushTranslation _ _ | TPop | TDrawLine _ _ _ | TDrawText _ _
  | TDrawRect _ _ _ => true
  | _ => false
  end.

(** The 25 sub-cells of a tile in the order the overlay scans them, and
    the ones the walk mesh marks as not walkable. *)
Definition subCells : list (Z * Z) :=
  flat_map (fun yy => map (fun xx => (yy, xx)) (upTo 5)) (upTo 5).

Definition blocked (mr : MapRenderer) (ax ay : Z) (c : Z * Z) : bool :=
  match meshAt mr (walkIndex mr ax ay (snd c) (fst c)) with
  | Some false => true
  | _ => false
  end.

(** A host under which no tile is visible, and one whose cache is empty. *)
Definition darkHost (h : Host) : Host :=
  mkHost (Roof h) (LowerWall h) (UpperWall h) (Special h)
    (getImageCacheRecord h) (WorldToOrtho h) (WorldToScreen h)
    (fun _ _ _ => false) (GetTranslationScreen h) (oob h).

(** ** The time on the animation clock

    What a float64 accumulator is worth, to compare two runs of
    [Advance] up to the rounding of its operations. *)

(** NaN and the infinities apart. *)
Definition SF_finite (f : spec_float) : bool :=
  match f with
  | S754_zero _ | S754_finite _ _ _ => true
  | S754_infinity _ | S754_nan => false
  end.

Definition finite (f : float) : bool := SF_finite (Prim2SF f).

(** The value of a binary64 number: sign, mantissa, power of two; 0 for
    NaN and the infinities. *)
Definition SF2Q (f : spec_float) : Q :=
  match f with
  | S754_finite s m e => (inject_Z (cond_Zopp s (Zpos m)) * 2 ^ e)%Q
  | _ => 0%Q
  end.

Definition toQ (f : float) : Q := SF2Q (Prim2SF f).

(** The time on the animation clock, in seconds: the frames counted, a
    tenth of a second each, and the time accumulated toward the next. *)
Definition clock (mr : MapRenderer) : Q :=
  (inject_Z (currentFrame mr) * (1 # 10) + toQ (lastFrameTime mr))%Q.

(** What the roundings of one call of [Advance] can move the clock by:
    2^-48 seconds. *)
Definition tolerance : Q := 1 # (2 ^ 48).

(** The same values counted in units of 2^-1074, the spacing of the
    smallest binary64 numbers, which makes every finite one an integer:
    [units f] is [2^1074 * SF2Q f], [clockUnits mr] is
    [10 * 2^1074 * clock mr]. *)
Definition units (f : spec_float) : Z :=
  match f with
  | S754_finite s m e => cond_Zopp s (Zpos m * 2 ^ (e + 1074))
  | _ => 0
  end.

Definition clockUnits (mr : MapRenderer) : Z :=
  10 * units (Prim2SF (lastFrameTime mr)) + currentFrame mr * 2 ^ 1074.

Definition sumUnits (ds : list float) : Z :=
  fold_right (fun d s => units (Prim2SF d) + s) 0 ds.

(** * Properties *)

(** ** Lists *)

Lemma flat_map_filter {A B} (p : A -> bool) (f : A -> list B) (l : list A) :
  flat_map (fun x => if p x then f x else []) l = flat_map f (filter p l).
Proof.
  induction l as [|x r IH]; simpl; [reflexivity|].
  rewrite IH. destruct (p x); reflexivity.
Qed.

Lemma flatMapOpt_Some {A B} (f : A -> list B) (l : list A) :
  flatMapOpt (fun x => Some (f x)) l = Some (flat_map f l).
Proof.
  induction l as [|x r IH]; simpl; [reflexivity|].
  rewrite IH. reflexivity.
Qed.

Lemma flatMapOpt_ext {A B} (f g : A -> option (list B)) (l : list A) :
  (forall x, In x l -> f x = g x) -> flatMapOpt f l = flatMapOpt g l.
Proof.
  induction l as [|x r IH]; simpl; intros E; [reflexivity|].
  rewrite (E x (or_introl eq_refl)), IH; auto.
Qed.

Lemma flatMapOpt_flat_map {A B C} (f : B -> option (list C)) (g : A -> list B) (l : list A) :
  flatMapOpt f (flat_map g l) = flatMapOpt (fun x => flatMapOpt f (g x)) l.
Proof.
  induction l as [|x r IH]; simpl; [reflexivity|].
  rewrite <- IH. clear IH.
  induction (g x) as [|b bs IHb]; simpl.
  - destruct (flatMapOpt f (flat_map g r)); reflexivity.
  - destruct (f b); [|reflexivity].
    rewrite IHb.
    destruct (flatMapOpt f bs); [|reflexivity].
    destruct (flatMapOpt f (flat_map g r)); [|reflexivity].
    rewrite app_assoc. reflexivity.
Qed.

Lemma flatMapOpt_map {A B C} (f : B -> option (list C)) (g : A -> B) (l : list A) :
  flatMapOpt f (map g l) = flatMapOpt (fun x => f (g x)) l.
Proof.
  induction l as [|x r IH]; simpl; [reflexivity|].
  rewrite IH. reflexivity.
Qed.

(** ** Stores *)

Lemma extend_nil s : extend s [] = s.
Proof. destruct s. unfold extend. simpl. rewrite app_nil_r. reflexivity. Qed.

Lemma extend_extend s a b : extend (extend s a) b = extend s (a ++ b).
Proof. unfold extend. simpl. rewrite app_assoc. reflexivity. Qed.

Lemma popOffset_pushOffset d v : popOffset (pushOffset d v) = v.
Proof.
  destruct v as [st]. unfold pushOffset.
  destruct (transCurrent (mkViewport st)). reflexivity.
Qed.

(** A loop whose body, in any store with the viewport [v] and the origin
    [(t, k)], has the outcome [F x], has the concatenated outcome. *)
Lemma forEach_outcome {A} (v : Viewport) (t : option (Z * Z)) (k : option Key)
  (F : A -> option (list Event)) (body : A -> M unit) (l : list A) :
  (forall x s, In x l -> viewport s = v -> cur_tile s = t -> cur_key s = k ->
               body x s = outcome s (F x)) ->
  forall s, viewport s = v -> cur_tile s = t -> cur_key s = k ->
            forEach l body s = outcome s (flatMapOpt F l).
Proof.
  induction l as [|x r IH]; intros Hb s Hv Ht Hk; simpl.
  - unfold ret. rewrite extend_nil. reflexivity.
  - unfold bind. rewrite (Hb x s (or_introl eq_refl) Hv Ht Hk).
    destruct (F x) as [a|]; simpl; [|reflexivity].
    rewrite IH; auto.
    + destruct (flatMapOpt F r); simpl; [|reflexivity].
      rewrite extend_extend. reflexivity.
    + intros y s' Hy. apply Hb. right. exact Hy.
Qed.

(** ** The draw helpers *)

Section HelperRuns.

Variable h : Host.

Lemma pushTranslationScreen_run s :
  pushTranslationScreen h s = emit (screenPush h (viewport s)) s.
Proof.
  unfold pushTranslationScreen, screenPush, bind, getViewport.
  destruct (GetTranslationScreen h (viewport s)). reflexivity.
Qed.

Ltac run_draw :=
  unfold PushTranslationOrtho, PopTranslation;
  unfold bind, getViewport, setViewport, emit;
  cbn [viewport calls cur_tile cur_key];
  rewrite ?pushTranslationScreen_run;
  unfold emit;
  cbn [viewport calls cur_tile cur_key];
  rewrite ?popOffset_pushOffset;
  unfold extend, stamp, anchored;
  cbn [map app viewport calls cur_tile cur_key];
  repeat rewrite <- app_assoc;
  reflexivity.

Lemma renderWall_run w s :
  renderWall h w s = outcome s (Some (wallEvents h (viewport s) (cur_tile s) w)).
Proof.
  unfold renderWall, inRecord, wallEvents, wallCalls, outcome.
  change (getImageCacheRecord h (w_Style w) (w_Sequence w) (w_Type w) (w_RandomIndex w))
    with (lookup h (wallKey w)).
  destruct (lookup h (wallKey w)) as [img|]; run_draw.
Qed.

Lemma renderFloor_run mr f s :
  renderFloor h mr f s
  = outcome s (Some (floorEvents h mr (viewport s) (cur_tile s) f)).
Proof.
  unfold renderFloor, inRecord, floorEvents, floorCalls, outcome.
  assert (E : (if negb (fs_Animated f)
               then getImageCacheRecord h (fs_Style f) (fs_Sequence f) 0 (fs_RandomIndex f)
               else getImageCacheRecord h (fs_Style f) (fs_Sequence f) 0
                      (to_byte (currentFrame mr)))
              = lookup h (floorKey mr f)).
  { unfold floorKey, lookup. destruct (fs_Animated f); reflexivity. }
  cbv zeta. rewrite E.
  destruct (lookup h (floorKey mr f)) as [img|]; run_draw.
Qed.

Lemma renderShadow_run f s :
  renderShadow h f s
  = outcome s (Some (shadowEvents h (viewport s) (cur_tile s) f)).
Proof.
  unfold renderShadow, inRecord, shadowEvents, shadowCalls, outcome.
  change (getImageCacheRecord h (fs_Style f) (fs_Sequence f) 13 (fs_RandomIndex f))
    with (lookup h (shadowKey f)).
  destruct (lookup h (shadowKey f)) as [img|]; run_draw.
Qed.

End HelperRuns.

(** ** Loops over sub-records and over the grid *)

Lemma forEach_when_run {A} (p c : A -> bool) (body : A -> M unit)
  (G : A -> list Event) (v : Viewport) (t : option (Z * Z)) (k : option Key)
  (l : list A) :
  (forall x, c x = p x) ->
  (forall x s, viewport s = v -> cur_tile s = t -> cur_key s = k ->
               body x s = outcome s (Some (G x))) ->
  forall s, viewport s = v -> cur_tile s = t -> cur_key s = k ->
    forEach l (fun x => if c x then body x else ret tt) s
    = outcome s (Some (flat_map G (filter p l))).
Proof.
  intros Hc Hb s Hv Ht Hk.
  rewrite <- flat_map_filter, <- flatMapOpt_Some.
  apply forEach_outcome with (v := v) (t := t) (k := k); auto.
  intros x s' _ Hv' Ht' Hk'. rewrite Hc.
  destruct (p x); [apply Hb; auto|].
  unfold ret. simpl. rewrite extend_nil. reflexivity.
Qed.

Section TileRuns.

Variable h : Host.

Lemma renderTilePass1_run mr tile s :
  renderTilePass1 h mr tile s
  = outcome s (Some (tilePass1 h mr (viewport s) (cur_tile s) tile)).
Proof.
  unfold renderTilePass1, tilePass1, bind.
  rewrite (forEach_when_run (pass1Wall h) _ _
             (wallEvents h (viewport s) (cur_tile s))
             (viewport s) (cur_tile s) (cur_key s)); auto.
  - cbn [outcome].
    rewrite (forEach_when_run pass1FloorShadow _ _
               (floorEvents h mr (viewport s) (cur_tile s))
               (viewport s) (cur_tile s) (cur_key s)); auto.
    + cbn [outcome].
      rewrite (forEach_when_run pass1FloorShadow _ _
                 (shadowEvents h (viewport s) (cur_tile s))
                 (viewport s) (cur_tile s) (cur_key s)); auto.
      * cbn [outcome]. rewrite !extend_extend. reflexivity.
      * intros f s' Hv Ht _. rewrite renderShadow_run, Hv, Ht. reflexivity.
    + intros f s' Hv Ht _. rewrite renderFloor_run, Hv, Ht. reflexivity.
  - intros w. unfold pass1Wall.
    destruct (w_Hidden w), (w_Prop1 w =? 0), (LowerWall h (w_Type w)); reflexivity.
  - intros w s' Hv Ht _. rewrite renderWall_run, Hv, Ht. reflexivity.
Qed.

Lemma renderTilePass2_run tile s :
  renderTilePass2 h tile s
  = outcome s (Some (flat_map (wallEvents h (viewport s) (cur_tile s))
                       (filter (pass2Wall h) (Walls tile)))).
Proof.
  unfold renderTilePass2.
  apply forEach_when_run with (v := viewport s) (t := cur_tile s) (k := cur_key s); auto.
  - intros w. unfold pass2Wall.
    destruct (w_Hidden w), (UpperWall h (w_Type w)); reflexivity.
  - intros w s' Hv Ht _. rewrite renderWall_run, Hv, Ht. reflexivity.
Qed.

Lemma renderTilePass3_run tile s :
  renderTilePass3 h tile s
  = outcome s (Some (tilePass3 h (viewport s) (cur_tile s) tile)).
Proof.
  unfold renderTilePass3, tilePass3.
  apply forEach_when_run with (v := viewport s) (t := cur_tile s) (k := cur_key s); auto.
  intros w s' Hv Ht _. rewrite renderWall_run, Hv, Ht. reflexivity.
Qed.

(** The entity loop of pass 2. *)
Lemma entities_run mr x y s :
  forEach (Entities (mapEngine mr)) (fun mapEntity =>
    if negb (int_of_float (oob h) (ent_X mapEntity) =? x)
       || negb (int_of_float (oob h) (ent_Y mapEntity) =? y)
    then ret tt
    else pushTranslationScreen h ;;
         emit (EntityRender (ent_id mapEntity)) ;;
         emit TPop) s
  = outcome s (Some (flat_map (entityEvents h (viewport s) (cur_tile s) (cur_key s))
                       (filter (onTile (int_of_float (oob h)) x y)
                          (Entities (mapEngine mr))))).
Proof.
  rewrite <- flat_map_filter, <- flatMapOpt_Some.
  apply forEach_outcome with (v := viewport s) (t := cur_tile s) (k := cur_key s); auto.
  intros e s' _ Hv Ht Hk. unfold onTile.
  destruct (int_of_float (oob h) (ent_X e) =? x),
           (int_of_float (oob h) (ent_Y e) =? y); cbn [negb orb andb];
    try (unfold ret; simpl; rewrite extend_nil; reflexivity).
  unfold bind. rewrite pushTranslationScreen_run.
  unfold emit, entityEvents, stamp, outcome, extend.
  cbn [map viewport calls cur_tile cur_key].
  rewrite Hv, Ht, Hk. repeat rewrite <- app_assoc. reflexivity.
Qed.

(** One cell of a sweep. *)
Lemma visibleTile_run (body : Z -> Z -> M unit)
  (inner : Viewport -> Z -> Z -> option (list Event)) (x y : Z) (k : option Key) :
  (forall s, cur_tile s = Some (x, y) -> cur_key s = k ->
             body x y s = outcome s (inner (viewport s) x y)) ->
  forall s, cur_key s = k ->
    inTile x y (
      v <- getViewport ;;
      if IsTileVisible h v (float_of_int x) (float_of_int y)
      then PushTranslationWorld h (float_of_int x) (float_of_int y) ;;
           body x y ;;
           PopTranslation
      else ret tt) s
    = outcome s (visibleTile h (viewport s) k inner (x, y)).
Proof.
  intros Hb s Hk.
  unfold inTile, visibleTile, bind, getViewport.
  cbn [viewport calls cur_tile cur_key].
  destruct (IsTileVisible h (viewport s) (float_of_int x) (float_of_int y)).
  - unfold PushTranslationWorld, bind, getViewport, setViewport, emit.
    cbn [viewport calls cur_tile cur_key].
    rewrite Hb by (try reflexivity; exact Hk).
    cbn [viewport calls cur_tile cur_key].
    destruct (inner (pushOffset (WorldToOrtho h (float_of_int x) (float_of_int y))
                       (viewport s)) x y) as [evs|]; cbn [outcome appOpt]; [|reflexivity].
    unfold PopTranslation, bind, getViewport, setViewport, emit, extend.
    cbn [viewport calls cur_tile cur_key].
    rewrite popOffset_pushOffset, Hk.
    repeat rewrite <- app_assoc. reflexivity.
  - unfold ret. cbn [outcome]. rewrite extend_nil. destruct s; reflexivity.
Qed.

(** A whole sweep. *)
Lemma sweepLoop_run (mr : MapRenderer) (body : Z -> Z -> M unit)
  (inner : Viewport -> Z -> Z -> option (list Event)) (k : option Key) :
  (forall x y s, cur_tile s = Some (x, y) -> cur_key s = k ->
                 body x y s = outcome s (inner (viewport s) x y)) ->
  forall s, cur_key s = k ->
            sweepLoop h mr body s
            = outcome s (sweepEvents h mr (viewport s) k inner).
Proof.
  intros Hb s Hk. unfold sweepLoop, sweepEvents, sweep.
  rewrite flatMapOpt_flat_map.
  apply forEach_outcome with (v := viewport s) (t := cur_tile s) (k := k); auto.
  intros y s1 _ Hv1 Ht1 Hk1.
  rewrite flatMapOpt_map.
  apply forEach_outcome with (v := viewport s) (t := cur_tile s) (k := k); auto.
  intros x s2 _ Hv2 Ht2 Hk2.
  rewrite (visibleTile_run body inner x y k (Hb x y)), Hv2 by exact Hk2.
  reflexivity.
Qed.

End TileRuns.

(** ** The debug overlay *)

Lemma flatMapOpt_option_map {A B C} (g : B -> C) (f : A -> option (list B)) (l : list A) :
  flatMapOpt (fun x => option_map (map g) (f x)) l
  = option_map (map g) (flatMapOpt f l).
Proof.
  induction l as [|x r IH]; simpl; [reflexivity|].
  rewrite IH. destruct (f x); simpl; [|reflexivity].
  destruct (flatMapOpt f r); simpl; [|reflexivity].
  rewrite map_app. reflexivity.
Qed.

Lemma stamp_flat_map {A} t k (f : A -> list Call) (l : list A) :
  flat_map (fun x => stamp t k (f x)) l = stamp t k (flat_map f l).
Proof.
  unfold stamp. induction l as [|x r IH]; simpl; [reflexivity|].
  rewrite IH, map_app. reflexivity.
Qed.

Lemma bind_unfold {A B} (m : M A) (k : A -> M B) s :
  bind m k s = match m s with
               | Some (a, s') => k a s'
               | None => None
               end.
Proof. reflexivity. Qed.

Lemma emit_then {B} c (n : M B) s :
  (emit c ;; n) s = n (extend s [mkEvent (cur_tile s) (cur_key s) c]).
Proof. reflexivity. Qed.

Section DebugRuns.

Variable h : Host.

Ltac run_emits Hv Ht Hk :=
  unfold bind, emit, ret, outcome, extend, stamp;
  cbn [map app viewport calls cur_tile cur_key];
  try rewrite Hv; try rewrite Ht; try rewrite Hk;
  repeat rewrite <- app_assoc; cbn [app];
  try rewrite app_nil_r;
  reflexivity.

Lemma gridLines_run v t k s :
  viewport s = v -> cur_tile s = t -> cur_key s = k ->
  forEach (fromTo 1 4) (fun i =>
    let x2 := i * 16 in
    let y2 := i * 8 in
    emit (TPushTranslation (- x2) y2) ;;
    emit (TDrawLine 80 40 subTileColor) ;;
    emit TPop ;;
    emit (TPushTranslation x2 y2) ;;
    emit (TDrawLine (-80) 40 subTileColor) ;;
    emit TPop) s
  = outcome s (Some (stamp t k (flat_map gridLines (fromTo 1 4)))).
Proof.
  intros Hv Ht Hk.
  rewrite <- stamp_flat_map, <- flatMapOpt_Some.
  apply forEach_outcome with (v := v) (t := t) (k := k); auto.
  intros i s' _ Hv' Ht' Hk'. unfold gridLines. run_emits Hv' Ht' Hk'.
Qed.

Lemma specialLabels_run (walls : list (Z * WallRecord)) v t k s :
  viewport s = v -> cur_tile s = t -> cur_key s = k ->
  forEach walls (fun iw =>
    let (i, wall) := iw in
    if Special h (w_Type wall) then
      emit (TPushTranslation (-20) (wrap64 (10 + (i + 1) * 14))) ;;
      emit (TDrawText "s: %v-%v"%string [w_Style wall; w_Sequence wall]) ;;
      emit TPop
    else ret tt) s
  = outcome s (Some (stamp t k (flat_map (specialLabel h) walls))).
Proof.
  intros Hv Ht Hk.
  rewrite <- stamp_flat_map, <- flatMapOpt_Some.
  apply forEach_outcome with (v := v) (t := t) (k := k); auto.
  intros [i wall] s' _ Hv' Ht' Hk'. unfold specialLabel.
  destruct (Special h (w_Type wall)).
  - run_emits Hv' Ht' Hk'.
  - unfold ret, outcome, stamp. cbn [map]. rewrite extend_nil. reflexivity.
Qed.

Lemma index_run {A} (l : list A) (i : Z) s :
  index l i s
  = match (if i <? 0 then None else nth_error l (Z.to_nat i)) with
    | Some a => Some (a, s)
    | None => None
    end.
Proof.
  unfold index. destruct (i <? 0); [reflexivity|].
  destruct (nth_error l (Z.to_nat i)); reflexivity.
Qed.

Lemma walkMarkers_run mr ax ay v t k s :
  viewport s = v -> cur_tile s = t -> cur_key s = k ->
  forEach (upTo 5) (fun yy =>
    forEach (upTo 5) (fun xx =>
      let isoX := (xx - yy) * 16 in
      let isoY := (xx + yy) * 8 in
      walkable <- index (WalkMesh (mapEngine mr)) (walkIndex mr ax ay xx yy) ;;
      if negb walkable then
        emit (TPushTranslation (isoX - 3) (isoY + 4)) ;;
        emit (TDrawRect 5 5 tileCollisionColor) ;;
        emit TPop
      else ret tt)) s
  = outcome s (option_map (stamp t k)
                 (flatMapOpt (fun yy => flatMapOpt (walkMarker mr ax ay yy) (upTo 5))
                    (upTo 5))).
Proof.
  intros Hv Ht Hk. unfold stamp.
  rewrite <- flatMapOpt_option_map.
  apply forEach_outcome with (v := v) (t := t) (k := k); auto.
  intros yy s1 _ Hv1 Ht1 Hk1.
  rewrite <- flatMapOpt_option_map.
  apply forEach_outcome with (v := v) (t := t) (k := k); auto.
  intros xx s2 _ Hv2 Ht2 Hk2.
  unfold bind, walkMarker, meshAt. rewrite index_run.
  destruct (if walkIndex mr ax ay xx yy <? 0 then None
            else nth_error (WalkMesh (mapEngine mr))
                   (Z.to_nat (walkIndex mr ax ay xx yy))) as [[|]|];
    cbn [negb option_map outcome].
  - unfold ret. cbn [map]. rewrite extend_nil. reflexivity.
  - run_emits Hv2 Ht2 Hk2.
  - reflexivity.
Qed.

Lemma renderTileDebug_run mr ax ay level s :
  renderTileDebug h mr ax ay level s
  = outcome s (option_map (stamp (cur_tile s) (cur_key s))
                 (debugCalls h mr level (viewport s) ax ay)).
Proof.
  unfold renderTileDebug, debugCalls, debugOutline, debugDetail.
  unfold bind at 1. unfold getViewport at 1.
  destruct (WorldToScreen h (viewport s) (float_of_int ax) (float_of_int ay))
    as [screenX1 screenY1].
  destruct (WorldToScreen h (viewport s) (float_of_int (wrap64 (ax + 1))) (float_of_int ay))
    as [screenX2 screenY2].
  destruct (WorldToScreen h (viewport s) (float_of_int ax) (float_of_int (wrap64 (ay + 1))))
    as [screenX3 screenY3].
  rewrite !emit_then, bind_unfold.
  destruct (1 <? level).
  - rewrite bind_unfold.
    erewrite gridLines_run by reflexivity. cbn [outcome].
    rewrite bind_unfold.
    erewrite specialLabels_run by reflexivity. cbn [outcome].
    erewrite walkMarkers_run by reflexivity.
    cbn [extend viewport calls cur_tile cur_key].
    destruct (flatMapOpt (fun yy => flatMapOpt (walkMarker mr ax ay yy) (upTo 5)) (upTo 5))
      as [marks|]; cbn [option_map outcome appOpt]; [|reflexivity].
    unfold emit, extend, stamp. cbn [viewport calls cur_tile cur_key map].
    rewrite !map_app. cbn [map].
    repeat rewrite <- app_assoc. reflexivity.
  - unfold ret, emit, outcome, extend, stamp.
    cbn [option_map appOpt map app viewport calls cur_tile cur_key].
    repeat rewrite <- app_assoc. reflexivity.
Qed.

End DebugRuns.

(** ** The passes and the frame *)

Lemma forEach_ext {A} (f g : A -> M unit) (l : list A) :
  (forall x s, f x s = g x s) -> forall s, forEach l f s = forEach l g s.
Proof.
  intros E. induction l as [|x r IH]; intros s; simpl; [reflexivity|].
  unfold bind. rewrite E. destruct (g x s) as [[u s']|]; auto.
Qed.

Lemma inTile_ext {A} (m n : M A) x y :
  (forall s, m s = n s) -> forall s, inTile x y m s = inTile x y n s.
Proof. intros E s. unfold inTile. rewrite E. reflexivity. Qed.

Section PassRuns.

Variable h : Host.

Lemma sweepEvents_Some mr v k (inner : Viewport -> Z -> Z -> list Event) :
  sweepEvents h mr v k (fun v' x y => Some (inner v' x y))
  = Some (sweepBlocks h mr v k inner).
Proof.
  unfold sweepEvents, sweepBlocks. rewrite <- flatMapOpt_Some.
  apply flatMapOpt_ext. intros [x y] _. unfold visibleTile, visibleBlock.
  destruct (IsTileVisible h v (float_of_int x) (float_of_int y)); reflexivity.
Qed.

Lemma renderPass1_run mr s :
  renderPass1 h mr s = outcome s (Some (pass1Events h mr (viewport s) (cur_key s))).
Proof.
  unfold pass1Events. rewrite <- sweepEvents_Some.
  change (renderPass1 h mr)
    with (sweepLoop h mr (fun x y => renderTilePass1 h mr (TileAt (mapEngine mr) x y))).
  apply sweepLoop_run; [|reflexivity].
  intros x y s' Ht _. rewrite renderTilePass1_run, Ht. reflexivity.
Qed.

Lemma renderPass2_sweep mr s :
  renderPass2 h mr s
  = sweepLoop h mr (fun x y =>
      renderTilePass2 h (TileAt (mapEngine mr) x y) ;;
      forEach (Entities (mapEngine mr)) (fun mapEntity =>
        if negb (int_of_float (oob h) (ent_X mapEntity) =? x)
           || negb (int_of_float (oob h) (ent_Y mapEntity) =? y)
        then ret tt
        else pushTranslationScreen h ;;
             emit (EntityRender (ent_id mapEntity)) ;;
             emit TPop)) s.
Proof.
  unfold renderPass2, sweepLoop.
  apply forEach_ext. intros y s1.
  apply forEach_ext. intros x s2.
  apply inTile_ext. intros s3.
  rewrite !bind_unfold. unfold getViewport. cbv beta iota.
  destruct (IsTileVisible h (viewport s3) (float_of_int x) (float_of_int y));
    [|reflexivity].
  rewrite !bind_unfold.
  destruct (PushTranslationWorld h (float_of_int x) (float_of_int y) s3) as [[u s4]|];
    [|reflexivity].
  rewrite !bind_unfold.
  destruct (renderTilePass2 h (TileAt (mapEngine mr) x y) s4) as [[u' s5]|];
    reflexivity.
Qed.

Lemma renderPass2_run mr s :
  renderPass2 h mr s
  = outcome s (Some (pass2Events h (int_of_float (oob h)) mr (viewport s) (cur_key s))).
Proof.
  unfold pass2Events. rewrite <- sweepEvents_Some.
  rewrite renderPass2_sweep.
  apply sweepLoop_run; [|reflexivity].
  intros x y s' Ht Hk.
  rewrite bind_unfold, renderTilePass2_run. cbn [outcome].
  rewrite entities_run. unfold tilePass2.
  cbn [outcome extend viewport calls cur_tile cur_key].
  rewrite Ht, Hk, extend_extend. reflexivity.
Qed.

Lemma renderPass3_run mr s :
  renderPass3 h mr s = outcome s (Some (pass3Events h mr (viewport s) (cur_key s))).
Proof.
  unfold pass3Events. rewrite <- sweepEvents_Some.
  change (renderPass3 h mr)
    with (sweepLoop h mr (fun x y => renderTilePass3 h (TileAt (mapEngine mr) x y))).
  apply sweepLoop_run; [|reflexivity].
  intros x y s' Ht _. rewrite renderTilePass3_run, Ht. reflexivity.
Qed.

Lemma renderDebug_run mr level s :
  renderDebug h mr level s
  = outcome s (debugEvents h mr level (viewport s) (cur_key s)).
Proof.
  change (renderDebug h mr level)
    with (sweepLoop h mr (fun x y => renderTileDebug h mr x y level)).
  apply sweepLoop_run; [|reflexivity].
  intros x y s' Ht Hk. rewrite renderTileDebug_run, Ht, Hk. reflexivity.
Qed.

(** The run of [Render] is the frame of the specification with Go's
    [int] conversion locating the entities; it panics exactly when the
    debug overlay reads outside the walk mesh. *)
Lemma Render_run mr s :
  Render h mr s
  = outcome s (frameEvents h (int_of_float (oob h)) mr (viewport s) (cur_key s)).
Proof.
  unfold Render, frameEvents, overlayEvents.
  rewrite bind_unfold, renderPass1_run. cbn [outcome].
  rewrite bind_unfold.
  assert (Hd : (if 0 <? debugVisLevel mr then renderDebug h mr (debugVisLevel mr)
                else ret tt) (extend s (pass1Events h mr (viewport s) (cur_key s)))
               = outcome (extend s (pass1Events h mr (viewport s) (cur_key s)))
                   (if 0 <? debugVisLevel mr
                    then debugEvents h mr (debugVisLevel mr) (viewport s) (cur_key s)
                    else Some [])).
  { destruct (0 <? debugVisLevel mr).
    - rewrite renderDebug_run. reflexivity.
    - unfold ret. cbn [outcome]. rewrite extend_nil. reflexivity. }
  rewrite Hd. clear Hd.
  destruct (if 0 <? debugVisLevel mr
            then debugEvents h mr (debugVisLevel mr) (viewport s) (cur_key s)
            else Some []) as [e2|]; cbn [outcome]; [|reflexivity].
  rewrite bind_unfold, renderPass2_run. cbn [outcome].
  rewrite renderPass3_run.
  cbn [outcome extend viewport calls cur_tile cur_key].
  unfold extend. cbn [viewport calls cur_tile cur_key].
  repeat rewrite <- app_assoc. reflexivity.
Qed.

End PassRuns.

(** ** Pass 1 and pass 2 *)

Example sweep_2x2 :
  sweep (mkEngine 2 2 (fun _ _ => mkTile [] [] []) [] [])
  = [(0, 0); (1, 0); (0, 1); (1, 1)].
Proof. reflexivity. Qed.

(** C5 (pass 1).  [renderPass1] visits the grid in row-major order
    (y outside, x inside) and, on each visible tile, between the push and
    the pop of the tile's world offset, runs the wall draw on exactly the
    walls that are lower, not hidden and have prop1 nonzero, then the
    floor draw on exactly the floors that are not hidden and have prop1
    nonzero, then the shadow draw on exactly such shadows, each list in
    its stored order; it always completes and leaves the viewport as it
    found it. *)
Theorem C5_pass1_draw_order :
  forall h mr v pre,
    renderPass1 h mr (entry v pre)
    = Some (tt, entry v (pre ++ pass1Events h mr v None)).
Proof.
  intros h mr v pre. rewrite renderPass1_run. reflexivity.
Qed.

(** C6 (pass 2, as the code has it).  On each visible tile
    [renderPass2] runs the wall draw on exactly the upper walls that are
    not hidden, whatever their prop1, and then renders, in the engine's
    order, exactly the entities whose two coordinates converted by Go's
    [int] (rounding toward zero) equal the tile's, each between a push of
    the tile's cumulative screen translation on the target and its pop. *)
Theorem C6_pass2_upper_walls_then_entities :
  forall h mr v pre,
    renderPass2 h mr (entry v pre)
    = Some (tt, entry v (pre ++ pass2Events h (int_of_float (oob h)) mr v None)).
Proof.
  intros h mr v pre. rewrite renderPass2_run. reflexivity.
Qed.

Example int_rounds_toward_zero :
  int_of_float oob_amd64 (-0.5)%float = 0
  /\ floor_of_float oob_amd64 (-0.5)%float = -1
  /\ int_of_float oob_amd64 2.5%float = 2
  /\ floor_of_float oob_amd64 2.5%float = 2.
Proof. repeat split; vm_compute; reflexivity. Qed.

(** C6 as stated fails: an entity at x = -0.5 is rendered on the tile of
    column 0, where Go's [int] sends it, and the floor of -0.5 is -1. *)
Lemma C6_floor_reading_fails : ~ pass2_locates_by_floor.
Proof.
  intros H.
  specialize (H Sample.host (Sample.renderer 0) (mkViewport []) []).
  apply (f_equal (option_map (fun r => length (calls (snd r))))) in H.
  vm_compute in H. discriminate H.
Qed.

(** ** Balance of pushes and pops *)

Section Balance.

Variable delta : Call -> Z.

Lemma depthRun_app d a b :
  depthRun delta d (a ++ b)
  = match depthRun delta d a with
    | Some d' => depthRun delta d' b
    | None => None
    end.
Proof.
  revert d. induction a as [|e r IH]; intros d; simpl; [reflexivity|].
  destruct (d + delta (ev_call e) <? 0); [reflexivity|]. apply IH.
Qed.

Lemma balanced_nil : balanced delta [].
Proof. intros d _. reflexivity. Qed.

Lemma balanced_app a b :
  balanced delta a -> balanced delta b -> balanced delta (a ++ b).
Proof.
  intros Ha Hb d Hd. rewrite depthRun_app, (Ha d Hd). apply Hb, Hd.
Qed.

Lemma balanced_flat_map {A} (f : A -> list Event) (l : list A) :
  (forall x, In x l -> balanced delta (f x)) -> balanced delta (flat_map f l).
Proof.
  induction l as [|x r IH]; intros H; simpl.
  - apply balanced_nil.
  - apply balanced_app; [apply H; left; reflexivity|].
    apply IH. intros y Hy. apply H. right. exact Hy.
Qed.

Lemma balanced_flatMapOpt {A} (f : A -> option (list Event)) (l : list A) evs :
  (forall x r, In x l -> f x = Some r -> balanced delta r) ->
  flatMapOpt f l = Some evs -> balanced delta evs.
Proof.
  revert evs. induction l as [|x r IH]; intros evs H E; simpl in E.
  - injection E as <-. apply balanced_nil.
  - destruct (f x) as [a|] eqn:Ex; [|discriminate].
    destruct (flatMapOpt f r) as [b|] eqn:Er; [|discriminate].
    injection E as <-. apply balanced_app.
    + apply (H x a); [left; reflexivity | exact Ex].
    + apply IH; [|reflexivity]. intros y r' Hy. apply H. right. exact Hy.
Qed.

(** Calls that do not move the stack. *)
Lemma balanced_neutral evs :
  Forall (fun e => delta (ev_call e) = 0) evs -> balanced delta evs.
Proof.
  induction 1 as [|e r He _ IH]; intros d Hd; simpl; [reflexivity|].
  rewrite He, Z.add_0_r.
  destruct (Z.ltb_spec d 0); [lia|]. apply IH, Hd.
Qed.

(** A push, balanced calls, the pop. *)
Lemma balanced_bracket e1 e2 evs :
  delta (ev_call e1) = 1 -> delta (ev_call e2) = -1 ->
  balanced delta evs -> balanced delta (e1 :: evs ++ [e2]).
Proof.
  intros H1 H2 He d Hd. simpl. rewrite H1.
  destruct (Z.ltb_spec (d + 1) 0); [lia|].
  rewrite depthRun_app, (He (d + 1)) by lia. simpl. rewrite H2.
  destruct (Z.ltb_spec (d + 1 + -1) 0); [lia|]. f_equal. lia.
Qed.

Lemma balanced_cons_neutral e evs :
  delta (ev_call e) = 0 -> balanced delta evs -> balanced delta (e :: evs).
Proof.
  intros H0 He. change (e :: evs) with ([e] ++ evs).
  apply balanced_app; [|exact He].
  apply balanced_neutral. constructor; [exact H0 | constructor].
Qed.

Lemma balanced_snoc_neutral e evs :
  delta (ev_call e) = 0 -> balanced delta evs -> balanced delta (evs ++ [e]).
Proof.
  intros H0 He. apply balanced_app; [exact He|].
  apply balanced_neutral. constructor; [exact H0 | constructor].
Qed.

End Balance.

Lemma Forall_stamp (P : Event -> Prop) t k cs :
  Forall (fun c => P (mkEvent t k c)) cs -> Forall P (stamp t k cs).
Proof.
  unfold stamp. induction 1; simpl; constructor; assumption.
Qed.

Ltac by_depth :=
  let d := fresh "d" in
  let Hd := fresh "Hd" in
  intros d Hd; unfold stamp, anchored;
  cbn [map app depthRun ev_call vDelta tDelta];
  repeat match goal with
         | |- context [?a <? 0] => destruct (Z.ltb_spec a 0); [lia|]
         end;
  f_equal; lia.

Section DrawBalance.

Variable h : Host.

Lemma screenPush_deltas v :
  vDelta (screenPush h v) = 0 /\ tDelta (screenPush h v) = 1.
Proof.
  unfold screenPush. destruct (GetTranslationScreen h v). split; reflexivity.
Qed.

Lemma anchored_vbalanced v t k dx dy draw :
  Forall (fun c => vDelta c = 0) draw ->
  balanced vDelta (stamp t k (anchored h v dx dy draw)).
Proof.
  intros Hn. unfold anchored. cbn [stamp map]. rewrite map_app.
  apply (balanced_bracket vDelta _ (mkEvent t k VPopTranslation)
           (mkEvent t k (screenPush h (pushOffset (dx, dy) v))
              :: map (mkEvent t k) draw)); try reflexivity.
  apply balanced_cons_neutral; [apply screenPush_deltas|].
  apply balanced_neutral, (Forall_stamp (fun e => vDelta (ev_call e) = 0)), Hn.
Qed.

Lemma wallEvents_balanced v t w :
  balanced vDelta (wallEvents h v t w) /\ balanced tDelta (wallEvents h v t w).
Proof.
  unfold wallEvents, wallCalls.
  destruct (lookup h (wallKey w)) as [img|].
  - split.
    + apply anchored_vbalanced. repeat constructor.
    + unfold anchored, screenPush. destruct (GetTranslationScreen h _). by_depth.
  - split; by_depth.
Qed.

Lemma floorEvents_balanced mr v t f :
  balanced vDelta (floorEvents h mr v t f)
  /\ balanced tDelta (floorEvents h mr v t f).
Proof.
  unfold floorEvents, floorCalls.
  destruct (lookup h (floorKey mr f)) as [img|].
  - split.
    + apply anchored_vbalanced. repeat constructor.
    + unfold anchored, screenPush. destruct (GetTranslationScreen h _). by_depth.
  - split; by_depth.
Qed.

Lemma shadowEvents_balanced v t f :
  balanced vDelta (shadowEvents h v t f)
  /\ balanced tDelta (shadowEvents h v t f).
Proof.
  unfold shadowEvents, shadowCalls.
  destruct (lookup h (shadowKey f)) as [img|].
  - split.
    + apply anchored_vbalanced. repeat constructor.
    + unfold anchored, screenPush. destruct (GetTranslationScreen h _). by_depth.
  - split; by_depth.
Qed.

Lemma entityEvents_balanced v t k e :
  balanced vDelta (entityEvents h v t k e)
  /\ balanced tDelta (entityEvents h v t k e).
Proof.
  unfold entityEvents, screenPush. destruct (GetTranslationScreen h v).
  split; by_depth.
Qed.

Lemma tilePass1_balanced mr v t tile :
  balanced vDelta (tilePass1 h mr v t tile)
  /\ balanced tDelta (tilePass1 h mr v t tile).
Proof.
  unfold tilePass1.
  split; repeat apply balanced_app; apply balanced_flat_map; intros x _;
    first [apply wallEvents_balanced | apply floorEvents_balanced
          | apply shadowEvents_balanced].
Qed.

Lemma tilePass2_balanced cell mr v t k x y tile :
  balanced vDelta (tilePass2 h cell mr v t k x y tile)
  /\ balanced tDelta (tilePass2 h cell mr v t k x y tile).
Proof.
  unfold tilePass2.
  split; repeat apply balanced_app; apply balanced_flat_map; intros e _;
    first [apply wallEvents_balanced | apply entityEvents_balanced].
Qed.

Lemma tilePass3_balanced v t tile :
  balanced vDelta (tilePass3 h v t tile)
  /\ balanced tDelta (tilePass3 h v t tile).
Proof.
  unfold tilePass3.
  split; apply balanced_flat_map; intros e _; apply wallEvents_balanced.
Qed.

Lemma sweepBlocks_balanced mr v k inner :
  (forall v' x y, balanced vDelta (inner v' x y) /\ balanced tDelta (inner v' x y)) ->
  balanced vDelta (sweepBlocks h mr v k inner)
  /\ balanced tDelta (sweepBlocks h mr v k inner).
Proof.
  intros Hi. unfold sweepBlocks.
  split; apply balanced_flat_map; intros [x y] _; unfold visibleBlock;
    destruct (IsTileVisible h v (float_of_int x) (float_of_int y));
    try apply balanced_nil.
  - apply balanced_bracket; try reflexivity. apply Hi.
  - apply balanced_cons_neutral; [reflexivity|].
    apply balanced_snoc_neutral; [reflexivity|]. apply Hi.
Qed.

End DrawBalance.

(** ** The debug overlay: balance, and when it reads inside the mesh *)

Lemma In_upTo n i : In i (upTo n) -> 0 <= i < n.
Proof.
  unfold upTo, fromTo. rewrite in_map_iff. intros [k [<- Hk]].
  apply in_seq in Hk. lia.
Qed.

Lemma In_sweep e x y :
  In (x, y) (sweep e) -> 0 <= x < Width e /\ 0 <= y < Height e.
Proof.
  unfold sweep. rewrite in_flat_map. intros [y' [Hy Hx]].
  apply in_map_iff in Hx. destruct Hx as [x' [E Hx]].
  injection E as -> ->. split; apply In_upTo; assumption.
Qed.

Lemma flatMapOpt_defined {A B} (f : A -> option (list B)) (l : list A) :
  (forall x, In x l -> f x <> None) -> flatMapOpt f l <> None.
Proof.
  induction l as [|x r IH]; intros H; simpl; [discriminate|].
  destruct (f x) eqn:E; [|exfalso; apply (H x); [left; reflexivity | exact E]].
  assert (Hr : flatMapOpt f r <> None).
  { apply IH. intros y Hy. apply H. right. exact Hy. }
  destruct (flatMapOpt f r); [discriminate | contradiction].
Qed.

Lemma wrap64_small z : minInt <= z <= maxInt -> wrap64 z = z.
Proof.
  unfold wrap64, minInt, maxInt. intros H.
  rewrite Z.mod_small; lia.
Qed.

Section Overlay.

Variable h : Host.

Lemma walkMarker_defined mr ax ay yy xx :
  meshCovers (mapEngine mr) = true ->
  0 <= ax < Width (mapEngine mr) -> 0 <= ay < Height (mapEngine mr) ->
  0 <= xx < 5 -> 0 <= yy < 5 ->
  walkMarker mr ax ay yy xx <> None.
Proof.
  unfold meshCovers. intros Hc Hx Hy Hxx Hyy.
  apply andb_prop in Hc. destruct Hc as [Hlen Hmax].
  apply Z.leb_le in Hlen, Hmax.
  unfold walkMarker, meshAt, walkIndex.
  set (raw := (yy + ay * 5) * Width (mapEngine mr) * 5 + xx + ax * 5).
  assert (Hraw : 0 <= raw < Z.of_nat (length (WalkMesh (mapEngine mr)))).
  { subst raw. split; [nia|].
    apply Z.lt_le_trans with (Width (mapEngine mr) * 5 * (Height (mapEngine mr) * 5));
      [nia | exact Hlen]. }
  rewrite wrap64_small by (unfold minInt; lia).
  destruct (Z.ltb_spec raw 0); [lia|].
  destruct (nth_error (WalkMesh (mapEngine mr)) (Z.to_nat raw)) as [[|]|] eqn:E;
    try discriminate.
  apply nth_error_None in E. lia.
Qed.

Lemma debugCalls_defined mr level v x y :
  level <= 1 \/ meshCovers (mapEngine mr) = true ->
  0 <= x < Width (mapEngine mr) -> 0 <= y < Height (mapEngine mr) ->
  debugCalls h mr level v x y <> None.
Proof.
  intros Hs Hx Hy. unfold debugCalls.
  assert (Hd : (if 1 <? level then debugDetail h mr x y else Some []) <> None).
  { destruct (Z.ltb_spec 1 level); [|discriminate].
    destruct Hs as [Hl|Hc]; [lia|].
    unfold debugDetail.
    assert (Hm : flatMapOpt (fun yy => flatMapOpt (walkMarker mr x y yy) (upTo 5)) (upTo 5)
                 <> None).
    { apply flatMapOpt_defined. intros yy Hyy.
      apply flatMapOpt_defined. intros xx Hxx.
      apply walkMarker_defined; auto using In_upTo. }
    destruct (flatMapOpt _ (upTo 5)); [discriminate | contradiction]. }
  destruct (if 1 <? level then debugDetail h mr x y else Some []);
    [discriminate | contradiction].
Qed.

Lemma overlayEvents_defined mr v k :
  debugVisLevel mr <= 1 \/ meshCovers (mapEngine mr) = true ->
  overlayEvents h mr v k <> None.
Proof.
  intros Hs. unfold overlayEvents.
  destruct (0 <? debugVisLevel mr); [|discriminate].
  unfold debugEvents, sweepEvents.
  apply flatMapOpt_defined. intros [x y] Hin.
  apply In_sweep in Hin. destruct Hin as [Hx Hy].
  unfold visibleTile.
  destruct (IsTileVisible h v (float_of_int x) (float_of_int y)); [|discriminate].
  pose proof (debugCalls_defined mr (debugVisLevel mr)
                (pushOffset (WorldToOrtho h (float_of_int x) (float_of_int y)) v)
                x y Hs Hx Hy) as Hd.
  destruct (debugCalls h mr (debugVisLevel mr) _ x y); [discriminate | contradiction].
Qed.

(** [Render] either makes the calls of the frame and leaves the viewport
    as it found it, or panics; it panics only at debug level 2 or more
    on a walk mesh that does not cover the grid. *)
Lemma Render_cases mr v pre :
  (exists evs,
      frameEvents h (int_of_float (oob h)) mr v None = Some evs
      /\ Render h mr (entry v pre) = Some (tt, entry v (pre ++ evs)))
  \/ (Render h mr (entry v pre) = None
      /\ 1 < debugVisLevel mr /\ meshCovers (mapEngine mr) = false).
Proof.
  rewrite Render_run. cbn [viewport cur_key entry].
  destruct (frameEvents h (int_of_float (oob h)) mr v None) as [evs|] eqn:E.
  - left. exists evs. split; reflexivity.
  - right. split; [reflexivity|].
    unfold frameEvents in E.
    destruct (overlayEvents h mr v None) eqn:Eo; [discriminate|].
    destruct (Z.ltb_spec 1 (debugVisLevel mr)) as [Hl|Hl];
      [|exfalso; apply (overlayEvents_defined mr v None); [left; lia | exact Eo]].
    split; [exact Hl|].
    destruct (meshCovers (mapEngine mr)) eqn:Hc; [|reflexivity].
    exfalso. apply (overlayEvents_defined mr v None); [right; exact Hc | exact Eo].
Qed.

End Overlay.

Section FrameBalance.

Variable h : Host.

Lemma gridLines_balanced t k i :
  balanced vDelta (stamp t k (gridLines i))
  /\ balanced tDelta (stamp t k (gridLines i)).
Proof. unfold gridLines. split; by_depth. Qed.

Lemma specialLabel_balanced t k iw :
  balanced vDelta (stamp t k (specialLabel h iw))
  /\ balanced tDelta (stamp t k (specialLabel h iw)).
Proof.
  destruct iw as [i wall]. unfold specialLabel.
  destruct (Special h (w_Type wall)); split; by_depth.
Qed.

Lemma walkMarker_balanced mr t k ax ay yy xx cs :
  walkMarker mr ax ay yy xx = Some cs ->
  balanced vDelta (stamp t k cs) /\ balanced tDelta (stamp t k cs).
Proof.
  unfold walkMarker.
  destruct (meshAt mr (walkIndex mr ax ay xx yy)) as [[|]|];
    intros E; try discriminate; injection E as <-; split; by_depth.
Qed.

Lemma walkMarkers_balanced mr t k ax ay cs :
  flatMapOpt (fun yy => flatMapOpt (walkMarker mr ax ay yy) (upTo 5)) (upTo 5) = Some cs ->
  balanced vDelta (stamp t k cs) /\ balanced tDelta (stamp t k cs).
Proof.
  intros E.
  assert (Es : flatMapOpt (fun yy =>
                 flatMapOpt (fun xx => option_map (map (mkEvent t k))
                                         (walkMarker mr ax ay yy xx)) (upTo 5))
                 (upTo 5) = Some (stamp t k cs)).
  { rewrite (flatMapOpt_ext _ (fun yy => option_map (map (mkEvent t k))
                                 (flatMapOpt (walkMarker mr ax ay yy) (upTo 5)))).
    - rewrite flatMapOpt_option_map, E. reflexivity.
    - intros yy _. apply flatMapOpt_option_map. }
  split.
  - eapply balanced_flatMapOpt; [|exact Es].
    intros yy r Hyy Er. eapply balanced_flatMapOpt; [|exact Er].
    intros xx r' Hxx Er'. cbv beta in Er'.
    destruct (walkMarker mr ax ay yy xx) as [m|] eqn:Em; [|discriminate].
    injection Er' as <-. apply (walkMarker_balanced mr t k _ _ _ _ _ Em).
  - eapply balanced_flatMapOpt; [|exact Es].
    intros yy r Hyy Er. eapply balanced_flatMapOpt; [|exact Er].
    intros xx r' Hxx Er'. cbv beta in Er'.
    destruct (walkMarker mr ax ay yy xx) as [m|] eqn:Em; [|discriminate].
    injection Er' as <-. apply (walkMarker_balanced mr t k _ _ _ _ _ Em).
Qed.

Lemma debugDetail_balanced mr t k ax ay cs :
  debugDetail h mr ax ay = Some cs ->
  balanced vDelta (stamp t k cs) /\ balanced tDelta (stamp t k cs).
Proof.
  unfold debugDetail, appOpt.
  destruct (flatMapOpt (fun yy => flatMapOpt (walkMarker mr ax ay yy) (upTo 5)) (upTo 5))
    as [marks|] eqn:E; [|discriminate].
  intros Ec.
  assert (Hcs : cs = (flat_map gridLines (fromTo 1 4)
                      ++ flat_map (specialLabel h)
                           (indexed (Walls (TileAt (mapEngine mr) ax ay))))
                     ++ marks) by congruence.
  subst cs. clear Ec.
  pose proof (walkMarkers_balanced mr t k ax ay marks E) as [Hv Ht].
  unfold stamp in *. rewrite !map_app.
  fold (stamp t k (flat_map gridLines (fromTo 1 4))).
  fold (stamp t k (flat_map (specialLabel h) (indexed (Walls (TileAt (mapEngine mr) ax ay))))).
  rewrite <- !stamp_flat_map.
  split; (apply balanced_app; [apply balanced_app|]); try assumption;
    apply balanced_flat_map; intros x _;
    first [apply gridLines_balanced | apply specialLabel_balanced].
Qed.

Lemma debugCalls_balanced mr level v t k ax ay cs :
  debugCalls h mr level v ax ay = Some cs ->
  balanced vDelta (stamp t k cs) /\ balanced tDelta (stamp t k cs).
Proof.
  unfold debugCalls, debugOutline.
  destruct (WorldToScreen h v (float_of_int ax) (float_of_int ay)) as [x1 y1].
  destruct (WorldToScreen h v (float_of_int (wrap64 (ax + 1))) (float_of_int ay)) as [x2 y2].
  destruct (WorldToScreen h v (float_of_int ax) (float_of_int (wrap64 (ay + 1)))) as [x3 y3].
  destruct (if 1 <? level then debugDetail h mr ax ay else Some []) as [detail|] eqn:Ed;
    [|discriminate].
  assert (Hd : balanced vDelta (stamp t k detail) /\ balanced tDelta (stamp t k detail)).
  { destruct (1 <? level).
    - apply (debugDetail_balanced mr t k ax ay detail Ed).
    - injection Ed as <-. split; apply balanced_nil. }
  destruct Hd as [Hv Ht].
  cbn [appOpt]. intros Ec. injection Ec as <-.
  unfold stamp in *. cbn [map app]. rewrite map_app. cbn [map].
  split.
  - repeat (apply balanced_cons_neutral; [reflexivity|]).
    apply balanced_snoc_neutral; [reflexivity | exact Hv].
  - apply (balanced_bracket tDelta _ (mkEvent t k TPop)
             (_ :: _ :: _ :: _ :: _ :: map (mkEvent t k) detail)); try reflexivity.
    apply (balanced_app tDelta [_; _; _; _; _]); [by_depth | exact Ht].
Qed.

Lemma overlayEvents_balanced mr v k evs :
  overlayEvents h mr v k = Some evs ->
  balanced vDelta evs /\ balanced tDelta evs.
Proof.
  unfold overlayEvents.
  destruct (0 <? debugVisLevel mr);
    [|intros E; injection E as <-; split; apply balanced_nil].
  unfold debugEvents, sweepEvents. intros E.
  assert (Hcell : forall delta,
             (delta = vDelta \/ delta = tDelta) ->
             forall p r, In p (sweep (mapEngine mr)) ->
               visibleTile h v k (fun v' x y =>
                 option_map (stamp (Some (x, y)) k)
                   (debugCalls h mr (debugVisLevel mr) v' x y)) p = Some r ->
               balanced delta r).
  { intros delta Hdelta [x y] r _. unfold visibleTile.
    destruct (IsTileVisible h v (float_of_int x) (float_of_int y));
      [|intros Er; injection Er as <-; apply balanced_nil].
    destruct (debugCalls h mr (debugVisLevel mr)
                (pushOffset (WorldToOrtho h (float_of_int x) (float_of_int y)) v) x y)
      as [cs|] eqn:Ec; [|discriminate].
    cbn [option_map appOpt app]. intros Er. injection Er as <-.
    destruct (debugCalls_balanced mr _ _ (Some (x, y)) k x y cs Ec) as [Hv Ht].
    destruct Hdelta as [-> | ->].
    - apply balanced_bracket; try reflexivity. exact Hv.
    - apply balanced_cons_neutral; [reflexivity|].
      apply balanced_snoc_neutral; [reflexivity | exact Ht]. }
  split.
  - apply (balanced_flatMapOpt vDelta _ _ _ (Hcell vDelta (or_introl eq_refl)) E).
  - apply (balanced_flatMapOpt tDelta _ _ _ (Hcell tDelta (or_intror eq_refl)) E).
Qed.

Lemma frameEvents_balanced cell mr v k evs :
  frameEvents h cell mr v k = Some evs ->
  balanced vDelta evs /\ balanced tDelta evs.
Proof.
  unfold frameEvents.
  destruct (overlayEvents h mr v k) as [overlay|] eqn:Eo; [|discriminate].
  intros E. injection E as <-.
  destruct (overlayEvents_balanced mr v k overlay Eo) as [Hv Ht].
  pose proof (sweepBlocks_balanced h mr v k _ (fun v' x y =>
                tilePass1_balanced h mr v' (Some (x, y)) (TileAt (mapEngine mr) x y)))
    as [H1v H1t].
  pose proof (sweepBlocks_balanced h mr v k _ (fun v' x y =>
                tilePass2_balanced h cell mr v' (Some (x, y)) k x y
                  (TileAt (mapEngine mr) x y)))
    as [H2v H2t].
  pose proof (sweepBlocks_balanced h mr v k _ (fun v' x y =>
                tilePass3_balanced h v' (Some (x, y)) (TileAt (mapEngine mr) x y)))
    as [H3v H3t].
  split; repeat apply balanced_app; assumption.
Qed.

End FrameBalance.

(** C1 (viewport stack).  A call of [Render] that returns leaves the
    viewport's translation stack exactly as it was on entry, so the
    depth is the same; among the calls it made, every
    [PushTranslationWorld] and [PushTranslationOrtho] is closed by one
    later [PopTranslation] and no pop reaches below the entry level, on
    cache hits and on cache misses alike.  [Render] fails to return only
    by the index panic of the debug overlay, at debug level 2 or more on
    a walk mesh shorter than the grid. *)
Theorem C1_viewport_stack_depth_restored :
  forall h mr v pre,
    match Render h mr (entry v pre) with
    | Some (_, s') =>
        transStack (viewport s') = transStack v
        /\ length (transStack (viewport s')) = length (transStack v)
        /\ exists evs, calls s' = pre ++ evs /\ balanced vDelta evs
    | None => 1 < debugVisLevel mr /\ meshCovers (mapEngine mr) = false
    end.
Proof.
  intros h mr v pre.
  destruct (Render_cases h mr v pre) as [[evs [E ->]] | [-> Hp]]; [|exact Hp].
  cbn [viewport calls entry]. repeat split.
  exists evs. split; [reflexivity|].
  apply (frameEvents_balanced h _ mr v None evs E).
Qed.

(** C10 (target surface).  Among the calls a returning [Render] made on
    the target, every [PushTranslation] and [PushColor] is closed by a
    later [Pop] or [PopN] that removes it and nothing more: the depth of
    the surface's translation/tint stack never goes below its level on
    entry and is back at that level on exit, on cache hits and on cache
    misses alike; an entity's own drawing is taken to leave the surface
    stack as it found it. *)
Theorem C10_target_stack_depth_restored :
  forall h mr v pre,
    match Render h mr (entry v pre) with
    | Some (_, s') =>
        exists evs, calls s' = pre ++ evs
                    /\ balanced tDelta evs
                    /\ depthRun tDelta 0 evs = Some 0
    | None => 1 < debugVisLevel mr /\ meshCovers (mapEngine mr) = false
    end.
Proof.
  intros h mr v pre.
  destruct (Render_cases h mr v pre) as [[evs [E ->]] | [-> Hp]]; [|exact Hp].
  cbn [viewport calls entry].
  exists evs. split; [reflexivity|].
  pose proof (frameEvents_balanced h _ mr v None evs E) as [_ Ht].
  split; [exact Ht | apply Ht; lia].
Qed.

(** ** Visibility gating *)

Lemma Forall_flatMapOpt {A B} (P : B -> Prop) (f : A -> option (list B)) (l : list A) r :
  (forall x r', In x l -> f x = Some r' -> Forall P r') ->
  flatMapOpt f l = Some r -> Forall P r.
Proof.
  revert r. induction l as [|x t IH]; intros r H E; simpl in E.
  - injection E as <-. constructor.
  - destruct (f x) as [a|] eqn:Ex; [|discriminate].
    destruct (flatMapOpt f t) as [b|] eqn:Et; [|discriminate].
    injection E as <-. apply Forall_app. split.
    + apply (H x a); [left; reflexivity | exact Ex].
    + apply IH; [|reflexivity]. intros y r' Hy. apply H. right. exact Hy.
Qed.

Section Gating.

Variable h : Host.

Lemma stamp_tile p k cs : Forall (fun e => ev_tile e = Some p) (stamp (Some p) k cs).
Proof. apply Forall_stamp. induction cs; constructor; auto. Qed.

Lemma tilePass1_tile mr v p tile :
  Forall (fun e => ev_tile e = Some p) (tilePass1 h mr v (Some p) tile).
Proof.
  unfold tilePass1. rewrite !Forall_app. repeat split;
    apply Forall_flat_map, Forall_forall; intros x _; apply stamp_tile.
Qed.

Lemma tilePass2_tile cell mr v p k x y tile :
  Forall (fun e => ev_tile e = Some p) (tilePass2 h cell mr v (Some p) k x y tile).
Proof.
  unfold tilePass2. rewrite !Forall_app. repeat split;
    apply Forall_flat_map, Forall_forall; intros e _; apply stamp_tile.
Qed.

Lemma tilePass3_tile v p tile :
  Forall (fun e => ev_tile e = Some p) (tilePass3 h v (Some p) tile).
Proof.
  unfold tilePass3.
  apply Forall_flat_map, Forall_forall; intros e _; apply stamp_tile.
Qed.

Lemma onVisibleTile_of_tile v x y evs :
  IsTileVisible h v (float_of_int x) (float_of_int y) = true ->
  Forall (fun e => ev_tile e = Some (x, y)) evs ->
  Forall (onVisibleTile h v) evs.
Proof.
  intros Hvis. apply Forall_impl. intros e He.
  unfold onVisibleTile. rewrite He. exact Hvis.
Qed.

Lemma sweepBlocks_gated mr v k inner :
  (forall v' x y, Forall (fun e => ev_tile e = Some (x, y)) (inner v' x y)) ->
  Forall (onVisibleTile h v) (sweepBlocks h mr v k inner).
Proof.
  intros Hi. unfold sweepBlocks.
  apply Forall_flat_map, Forall_forall. intros [x y] _. unfold visibleBlock.
  destruct (IsTileVisible h v (float_of_int x) (float_of_int y)) eqn:Hvis;
    [|constructor].
  apply (onVisibleTile_of_tile v x y); [exact Hvis|].
  constructor; [reflexivity|].
  apply Forall_app. split; [apply Hi | repeat constructor].
Qed.

Lemma overlayEvents_gated mr v k evs :
  overlayEvents h mr v k = Some evs -> Forall (onVisibleTile h v) evs.
Proof.
  unfold overlayEvents.
  destruct (0 <? debugVisLevel mr); [|intros E; injection E as <-; constructor].
  unfold debugEvents, sweepEvents.
  apply Forall_flatMapOpt. intros [x y] r _. unfold visibleTile.
  destruct (IsTileVisible h v (float_of_int x) (float_of_int y)) eqn:Hvis;
    [|intros E; injection E as <-; constructor].
  destruct (debugCalls h mr (debugVisLevel mr)
              (pushOffset (WorldToOrtho h (float_of_int x) (float_of_int y)) v) x y)
    as [cs|]; [|discriminate].
  cbn [option_map appOpt app]. intros E. injection E as <-.
  apply (onVisibleTile_of_tile v x y); [exact Hvis|].
  constructor; [reflexivity|].
  apply Forall_app. split; [apply stamp_tile | repeat constructor].
Qed.

Lemma frameEvents_gated cell mr v k evs :
  frameEvents h cell mr v k = Some evs -> Forall (onVisibleTile h v) evs.
Proof.
  unfold frameEvents.
  destruct (overlayEvents h mr v k) as [overlay|] eqn:Eo; [|discriminate].
  intros E. injection E as <-.
  rewrite !Forall_app. repeat split.
  - apply sweepBlocks_gated. intros. apply tilePass1_tile.
  - apply (overlayEvents_gated mr v k overlay Eo).
  - apply sweepBlocks_gated. intros. apply tilePass2_tile.
  - apply sweepBlocks_gated. intros. apply tilePass3_tile.
Qed.

End Gating.

Lemma onVisibleTile_excludes h v e x y :
  IsTileVisible h v (float_of_int x) (float_of_int y) = false ->
  onVisibleTile h v e -> ev_tile e <> Some (x, y).
Proof.
  unfold onVisibleTile. intros Hinv He E. rewrite E in He. congruence.
Qed.

(** C7 (visibility gating).  Every call a returning [Render] made, in
    pass 1, the debug pass, pass 2 and pass 3 (images, lines,
    rectangles, texts, entity draws, pushes and pops, diagnostics), was
    made for a tile at which [IsTileVisible] answers true; a tile at
    which it answers false receives none. *)
Theorem C7_invisible_tiles_receive_no_call :
  forall h mr v pre,
    match Render h mr (entry v pre) with
    | Some (_, s') =>
        exists evs, calls s' = pre ++ evs /\ Forall (onVisibleTile h v) evs
    | None => 1 < debugVisLevel mr /\ meshCovers (mapEngine mr) = false
    end.
Proof.
  intros h mr v pre.
  destruct (Render_cases h mr v pre) as [[evs [E ->]] | [-> Hp]]; [|exact Hp].
  exists evs. split; [reflexivity|].
  apply (frameEvents_gated h _ mr v None evs E).
Qed.

(** ** Cache misses *)

Lemma keyEqb_eq a b : keyEqb a b = true <-> a = b.
Proof.
  destruct a as [[[a1 a2] a3] a4], b as [[[b1 b2] b3] b4]. unfold keyEqb.
  rewrite !andb_true_iff, !Z.eqb_eq. split.
  - intros [[[-> ->] ->] ->]. reflexivity.
  - intros E. injection E as -> -> -> ->. auto.
Qed.

Section SkipsOnly.

Variable k0 : Key.

Lemma skipsOnly_nil : skipsOnly k0 [] [].
Proof. repeat split. constructor. Qed.

Lemma skipsOnly_app a' a b' b :
  skipsOnly k0 a' a -> skipsOnly k0 b' b -> skipsOnly k0 (a' ++ b') (a ++ b).
Proof.
  intros [Ha1 [Ha2 Ha3]] [Hb1 [Hb2 Hb3]]. unfold skipsOnly.
  rewrite !filter_app, !length_app, Ha1, Hb1, Ha3, Hb3.
  repeat split. apply Forall_app. split; assumption.
Qed.

Lemma skipsOnly_flat_map {A} (f' f : A -> list Event) (l : list A) :
  (forall x, In x l -> skipsOnly k0 (f' x) (f x)) ->
  skipsOnly k0 (flat_map f' l) (flat_map f l).
Proof.
  induction l as [|x r IH]; intros H; simpl.
  - apply skipsOnly_nil.
  - apply skipsOnly_app; [apply H; left; reflexivity|].
    apply IH. intros y Hy. apply H. right. exact Hy.
Qed.

(** Calls of other origins are untouched. *)
Lemma skipsOnly_same evs :
  Forall (fun e => isFor k0 e = false) evs -> skipsOnly k0 evs evs.
Proof.
  intros H. unfold skipsOnly. repeat split.
  - apply Forall_impl with (2 := H). intros e He Hf. congruence.
  - induction H as [|e r He _ IH]; simpl; [reflexivity|].
    rewrite He. simpl. exact IH.
Qed.

Lemma isFor_stamp_other t k cs :
  keyEqb k k0 = false -> Forall (fun e => isFor k0 e = false) (stamp t (Some k) cs).
Proof.
  intros Hk. apply Forall_stamp. induction cs; constructor; auto.
Qed.

Lemma isFor_stamp_None t cs :
  Forall (fun e => isFor k0 e = false) (stamp t None cs).
Proof. apply Forall_stamp. induction cs; constructor; auto. Qed.

(** The draw of a sub-record of [k0], missed on one side. *)
Lemma skipsOnly_miss t k msg args cs :
  keyEqb k k0 = true ->
  length (filter (fun c => isLog c || isRender c) cs) = 1%nat ->
  skipsOnly k0 (stamp t (Some k) [LogPrintf msg args]) (stamp t (Some k) cs).
Proof.
  intros Hk Hone. unfold skipsOnly, stamp, notFor, isFor.
  cbn [map filter ev_key ev_call isLog length]. rewrite Hk. cbn [negb andb length].
  repeat split.
  - clear Hone. induction cs as [|c r IH]; cbn [map filter ev_key]; [reflexivity|].
    rewrite Hk. cbn [negb]. exact IH.
  - repeat constructor.
  - rewrite <- Hone. clear Hone.
    induction cs as [|c r IH]; cbn [map filter ev_key ev_call]; [reflexivity|].
    rewrite Hk. cbn [andb].
    destruct (isLog c || isRender c); cbn [length]; rewrite <- IH; reflexivity.
Qed.

End SkipsOnly.

Section CacheMiss.

Variable h : Host.
Variable k0 : Key.

Lemma lookup_dropImage k :
  lookup (dropImage k0 h) k = if keyEqb k k0 then None else lookup h k.
Proof. destruct k as [[[a b] c] d]. reflexivity. Qed.

Lemma wallEvents_skips v t w :
  skipsOnly k0 (wallEvents (dropImage k0 h) v t w) (wallEvents h v t w).
Proof.
  unfold wallEvents, wallCalls. rewrite lookup_dropImage.
  destruct (keyEqb (wallKey w) k0) eqn:Hk.
  - apply skipsOnly_miss; [exact Hk|].
    destruct (lookup h (wallKey w)); [|reflexivity].
    unfold anchored, screenPush. destruct (GetTranslationScreen h _). reflexivity.
  - change (anchored (dropImage k0 h)) with (anchored h).
    apply skipsOnly_same, isFor_stamp_other, Hk.
Qed.

Lemma floorEvents_skips mr v t f :
  skipsOnly k0 (floorEvents (dropImage k0 h) mr v t f) (floorEvents h mr v t f).
Proof.
  unfold floorEvents, floorCalls. rewrite lookup_dropImage.
  destruct (keyEqb (floorKey mr f) k0) eqn:Hk.
  - apply skipsOnly_miss; [exact Hk|].
    destruct (lookup h (floorKey mr f)); [|reflexivity].
    unfold anchored, screenPush. destruct (GetTranslationScreen h _). reflexivity.
  - change (anchored (dropImage k0 h)) with (anchored h).
    apply skipsOnly_same, isFor_stamp_other, Hk.
Qed.

Lemma shadowEvents_skips v t f :
  skipsOnly k0 (shadowEvents (dropImage k0 h) v t f) (shadowEvents h v t f).
Proof.
  unfold shadowEvents, shadowCalls. rewrite lookup_dropImage.
  destruct (keyEqb (shadowKey f) k0) eqn:Hk.
  - apply skipsOnly_miss; [exact Hk|].
    destruct (lookup h (shadowKey f)); [|reflexivity].
    unfold anchored, screenPush. destruct (GetTranslationScreen h _). reflexivity.
  - change (anchored (dropImage k0 h)) with (anchored h).
    apply skipsOnly_same, isFor_stamp_other, Hk.
Qed.

Lemma tilePass1_skips mr v t tile :
  skipsOnly k0 (tilePass1 (dropImage k0 h) mr v t tile) (tilePass1 h mr v t tile).
Proof.
  unfold tilePass1.
  change (pass1Wall (dropImage k0 h)) with (pass1Wall h).
  repeat apply skipsOnly_app; apply skipsOnly_flat_map; intros x _;
    first [apply wallEvents_skips | apply floorEvents_skips | apply shadowEvents_skips].
Qed.

Lemma tilePass2_skips cell mr v t x y tile :
  skipsOnly k0 (tilePass2 (dropImage k0 h) cell mr v t None x y tile)
    (tilePass2 h cell mr v t None x y tile).
Proof.
  unfold tilePass2.
  change (pass2Wall (dropImage k0 h)) with (pass2Wall h).
  change (entityEvents (dropImage k0 h)) with (entityEvents h).
  apply skipsOnly_app.
  - apply skipsOnly_flat_map; intros w _. apply wallEvents_skips.
  - apply skipsOnly_same, Forall_flat_map, Forall_forall. intros e _.
    apply isFor_stamp_None.
Qed.

Lemma tilePass3_skips v t tile :
  skipsOnly k0 (tilePass3 (dropImage k0 h) v t tile) (tilePass3 h v t tile).
Proof.
  unfold tilePass3.
  change (pass3Wall (dropImage k0 h)) with (pass3Wall h).
  apply skipsOnly_flat_map; intros w _. apply wallEvents_skips.
Qed.

Lemma sweepBlocks_skips mr v inner' inner :
  (forall v' x y, skipsOnly k0 (inner' v' x y) (inner v' x y)) ->
  skipsOnly k0 (sweepBlocks (dropImage k0 h) mr v None inner')
    (sweepBlocks h mr v None inner).
Proof.
  intros Hi. unfold sweepBlocks.
  apply skipsOnly_flat_map. intros [x y] _. unfold visibleBlock.
  change (IsTileVisible (dropImage k0 h)) with (IsTileVisible h).
  change (WorldToOrtho (dropImage k0 h)) with (WorldToOrtho h).
  destruct (IsTileVisible h v (float_of_int x) (float_of_int y));
    [|apply skipsOnly_nil].
  apply (skipsOnly_app k0 [_] [_]); [apply skipsOnly_same; repeat constructor|].
  apply skipsOnly_app; [apply Hi | apply skipsOnly_same; repeat constructor].
Qed.

Lemma overlayEvents_unkeyed mr v evs :
  overlayEvents h mr v None = Some evs ->
  Forall (fun e => isFor k0 e = false) evs.
Proof.
  unfold overlayEvents.
  destruct (0 <? debugVisLevel mr); [|intros E; injection E as <-; constructor].
  unfold debugEvents, sweepEvents.
  apply Forall_flatMapOpt. intros [x y] r _. unfold visibleTile.
  destruct (IsTileVisible h v (float_of_int x) (float_of_int y));
    [|intros E; injection E as <-; constructor].
  destruct (debugCalls h mr (debugVisLevel mr)
              (pushOffset (WorldToOrtho h (float_of_int x) (float_of_int y)) v) x y)
    as [cs|]; [|discriminate].
  cbn [option_map appOpt app]. intros E. injection E as <-.
  constructor; [reflexivity|].
  apply Forall_app. split; [apply isFor_stamp_None | repeat constructor].
Qed.

Lemma frameEvents_skips cell mr v :
  match frameEvents h cell mr v None with
  | Some evs =>
      exists evs', frameEvents (dropImage k0 h) cell mr v None = Some evs'
                   /\ skipsOnly k0 evs' evs
  | None => frameEvents (dropImage k0 h) cell mr v None = None
  end.
Proof.
  unfold frameEvents.
  change (overlayEvents (dropImage k0 h) mr v None) with (overlayEvents h mr v None).
  destruct (overlayEvents h mr v None) as [overlay|] eqn:Eo; [|reflexivity].
  eexists. split; [reflexivity|].
  apply skipsOnly_app.
  { apply sweepBlocks_skips. intros. apply tilePass1_skips. }
  apply skipsOnly_app.
  { apply skipsOnly_same, (overlayEvents_unkeyed mr v overlay Eo). }
  apply skipsOnly_app.
  { apply sweepBlocks_skips. intros. apply tilePass2_skips. }
  apply sweepBlocks_skips. intros. apply tilePass3_skips.
Qed.

End CacheMiss.

(** C8 (cache miss).  Take any host and remove from its tile image cache
    the image looked up under [k0].  [Render] then returns whenever it
    returned before, with the same viewport; the calls that do not
    belong to a sub-record looked up under [k0] are the same, in the
    same order, as with the image present; the sub-records looked up
    under [k0] leave nothing but log diagnostics, one for each image
    draw (or diagnostic) they had before. *)
Theorem C8_cache_miss_skips_only_that_draw :
  forall h k0 mr v pre,
    match Render h mr (entry v pre) with
    | Some (_, s) =>
        exists evs evs',
          calls s = pre ++ evs
          /\ Render (dropImage k0 h) mr (entry v pre)
             = Some (tt, entry v (pre ++ evs'))
          /\ skipsOnly k0 evs' evs
    | None => Render (dropImage k0 h) mr (entry v pre) = None
    end.
Proof.
  intros h k0 mr v pre. rewrite !Render_run. cbn [viewport cur_key entry].
  change (oob (dropImage k0 h)) with (oob h).
  pose proof (frameEvents_skips h k0 (int_of_float (oob h)) mr v) as Hs.
  destruct (frameEvents h (int_of_float (oob h)) mr v None) as [evs|].
  - destruct Hs as [evs' [-> Hs]]. cbn [outcome].
    exists evs, evs'. repeat split; apply Hs.
  - rewrite Hs. reflexivity.
Qed.

(** ** Hidden sub-records *)

(** Passes 1 and 2 leave out every hidden wall, floor and shadow. *)
Lemma hidden_left_out_by_pass1_and_pass2 h :
  (forall w, w_Hidden w = true -> pass1Wall h w = false /\ pass2Wall h w = false)
  /\ (forall f, fs_Hidden f = true -> pass1FloorShadow f = false).
Proof.
  split.
  - intros w Hw. unfold pass1Wall, pass2Wall. rewrite Hw.
    split; [destruct (LowerWall h (w_Type w)) | destruct (UpperWall h (w_Type w))];
      reflexivity.
  - intros f Hf. unfold pass1FloorShadow. rewrite Hf. reflexivity.
Qed.

(** C2 (where the code departs from it).  [renderTilePass3] tests only
    the shape-type: a roof wall whose hidden flag is set, standing on a
    visible tile and with its image cached, is drawn by pass 3. *)
Theorem C2_hidden_roof_is_drawn_by_pass3 :
  forall h mr v pre x y w img,
    In (x, y) (sweep (mapEngine mr)) ->
    IsTileVisible h v (float_of_int x) (float_of_int y) = true ->
    In w (Walls (TileAt (mapEngine mr) x y)) ->
    w_Type w = Roof h ->
    w_Hidden w = true ->
    lookup h (wallKey w) = Some img ->
    exists s',
      renderPass3 h mr (entry v pre) = Some (tt, s')
      /\ In (mkEvent (Some (x, y)) (Some (wallKey w)) (TRender img)) (calls s').
Proof.
  intros h mr v pre x y w img Hcell Hvis Hw Htype Hhid Himg.
  rewrite renderPass3_run. eexists. split; [reflexivity|].
  cbn [calls extend entry viewport cur_key].
  apply in_or_app. right.
  unfold pass3Events, sweepBlocks. apply in_flat_map.
  exists (x, y). split; [exact Hcell|].
  unfold visibleBlock. rewrite Hvis. right. apply in_or_app. left.
  unfold tilePass3. apply in_flat_map. exists w. split.
  - apply filter_In. split; [exact Hw|].
    unfold pass3Wall. rewrite Htype. apply Z.eqb_refl.
  - unfold wallEvents, wallCalls. rewrite Himg.
    unfold stamp, anchored. cbn [map app]. right. right. left. reflexivity.
Qed.

(** The hidden roof of the sample scene is drawn. *)
Lemma C2_hidden_roof_witness :
  w_Hidden Sample.hiddenRoof = true
  /\ exists s',
       renderPass3 Sample.host (mkRenderer Sample.roofEngine 0 zero 0) Sample.start
       = Some (tt, s')
       /\ In (mkEvent (Some (0, 0)) (Some (wallKey Sample.hiddenRoof)) (TRender 102))
            (calls s').
Proof.
  split; [reflexivity|].
  apply (C2_hidden_roof_is_drawn_by_pass3 Sample.host
           (mkRenderer Sample.roofEngine 0 zero 0) (mkViewport []) [] 0 0
           Sample.hiddenRoof 102).
  - left. reflexivity.
  - reflexivity.
  - left. reflexivity.
  - reflexivity.
  - reflexivity.
  - reflexivity.
Defined.

(** ** The animation clock *)

(** C3 (as the code computes it).  From accumulator 0 and frame 0, in
    float64: the first [Advance(0.25)] leaves the accumulator at
    0.25 - 0.2 = 0.04999999999999999 (the double just below 0.05) and the
    frame index at 2; the second accumulates the double 0.3, whose
    quotient by the double 0.1 is 2.9999999999999996, so it consumes 2
    frames and leaves accumulator 0.09999999999999998 and frame index 4.
    With exact rationals the same statements give 1/20 and 2, then 0
    and 5. *)
Theorem C3_scenario_in_float64_and_exactly :
  forall oob e,
    let m1 := Advance oob 0.25%float (CreateMapRenderer e) in
    let m2 := Advance oob 0.25%float m1 in
    let c1 := AdvanceQ (1 # 4) (mkClockQ 0 0) in
    let c2 := AdvanceQ (1 # 4) c1 in
    (lastFrameTime m1 = 0x1.9999999999998p-5%float /\ currentFrame m1 = 2
     /\ lastFrameTime m2 = 0x1.9999999999998p-4%float /\ currentFrame m2 = 4)
    /\ ((accQ c1 == 1 # 20)%Q /\ frameQ c1 = 2
        /\ (accQ c2 == 0)%Q /\ frameQ c2 = 5).
Proof.
  intros oob e. repeat split; vm_compute; reflexivity.
Qed.

(** C3 as stated fails: after the second call the frame index is 4. *)
Lemma C3_scenario_as_stated_fails :
  ~ (let m1 := Advance oob_amd64 0.25%float (CreateMapRenderer Sample.engine) in
     let m2 := Advance oob_amd64 0.25%float m1 in
     lastFrameTime m1 = 0x1.999999999999ap-5%float /\ currentFrame m1 = 2
     /\ lastFrameTime m2 = zero /\ currentFrame m2 = 5).
Proof.
  intros [_ [_ [_ H]]]. vm_compute in H. discriminate H.
Qed.

Lemma Advance_frame_le_9 oob d mr : currentFrame (Advance oob d mr) <= 9.
Proof.
  unfold Advance. cbn [currentFrame].
  destruct (Z.ltb_spec 9 (wrap64 (currentFrame mr
              + int_of_float oob ((lastFrameTime mr + d) / 0x1.999999999999ap-4)%float)));
    lia.
Qed.

Lemma Advance_frame_in_range oob d mr :
  0 <= currentFrame mr ->
  0 <= framesAdvanced oob d mr ->
  currentFrame mr + framesAdvanced oob d mr <= maxInt ->
  0 <= currentFrame (Advance oob d mr) <= 9.
Proof.
  intros Hc Hn Hmax. split; [|apply Advance_frame_le_9].
  unfold Advance. cbn [currentFrame].
  fold (framesAdvanced oob d mr).
  rewrite wrap64_small by (unfold minInt; lia).
  destruct (Z.ltb_spec 9 (currentFrame mr + framesAdvanced oob d mr)); lia.
Qed.

Lemma AdvanceAll_frame_in_range oob ds :
  forall mr,
    0 <= currentFrame mr <= 9 ->
    ticksInRange oob ds mr = true ->
    0 <= currentFrame (AdvanceAll oob ds mr) <= 9.
Proof.
  induction ds as [|d r IH]; intros mr Hc Ht; cbn [AdvanceAll fold_left].
  - exact Hc.
  - cbn [ticksInRange] in Ht.
    apply andb_prop in Ht. destruct Ht as [Ht Hr].
    apply andb_prop in Ht. destruct Ht as [Hn Hmax].
    apply Z.leb_le in Hn, Hmax.
    apply IH; [|exact Hr].
    apply Advance_frame_in_range; lia.
Qed.

(** C4 (as the code has it).  Starting from the initial state, after any
    sequence of [Advance] calls each of which consumes a count of frames
    that is not negative (and that the int frame index can take), the
    current-frame index is in [0, 9]. *)
Theorem C4_frame_index_in_0_9 :
  forall oob e ds,
    ticksInRange oob ds (CreateMapRenderer e) = true ->
    0 <= currentFrame (AdvanceAll oob ds (CreateMapRenderer e)) <= 9.
Proof.
  intros oob e ds Ht.
  apply AdvanceAll_frame_in_range; [cbn; lia | exact Ht].
Qed.

Lemma C4_frame_index_witness :
  0 <= currentFrame (AdvanceAll oob_amd64 [0.25%float; 0.25%float; 0.75%float]
                       (CreateMapRenderer Sample.engine)) <= 9.
Proof.
  apply (C4_frame_index_in_0_9 oob_amd64 Sample.engine
           [0.25%float; 0.25%float; 0.75%float]).
  vm_compute. reflexivity.
Defined.

(** C4 as stated fails: a negative elapsed time of ten frame lengths
    takes the frame index from 0 to -10. *)
Lemma C4_any_sequence_fails :
  ~ (forall oob e ds,
       0 <= currentFrame (AdvanceAll oob ds (CreateMapRenderer e)) <= 9).
Proof.
  intros H.
  specialize (H oob_amd64 Sample.engine [(-1)%float]).
  assert (E : currentFrame (AdvanceAll oob_amd64 [(-1)%float]
                              (CreateMapRenderer Sample.engine)) = -10)
    by (vm_compute; reflexivity).
  rewrite E in H. lia.
Qed.

(** Elapsed times that are not negative do not suffice either: after a
    very long one the accumulator can round to -2, and the next call,
    with elapsed time 0, steps the frame index back by 20. *)
Lemma Advance_negative_after_rounding :
  currentFrame (AdvanceAll oob_amd64 [0x1.acb4df348913bp+53%float; zero]
                  (CreateMapRenderer Sample.engine)) = -20.
Proof. vm_compute. reflexivity. Qed.

(** ** No drift, up to rounding *)

(** *** Rounding in binary64

    The primitive float operations are specified by [SpecFloat]
    ([add_spec], [sub_spec], [div_spec]); the bounds below are read off
    those definitions. *)

(** [digits2_pos p] is the number of binary digits of [p]. *)
Lemma digits2_pos_bounds p :
  2 ^ (Zpos (digits2_pos p) - 1) <= Zpos p < 2 ^ Zpos (digits2_pos p).
Proof.
  induction p as [p IH|p IH|]; cbn [digits2_pos].
  - rewrite Pos2Z.inj_succ.
    replace (Z.succ (Zpos (digits2_pos p)) - 1) with (Z.succ (Zpos (digits2_pos p) - 1)) by lia.
    rewrite !Z.pow_succ_r by lia. lia.
  - rewrite Pos2Z.inj_succ.
    replace (Z.succ (Zpos (digits2_pos p)) - 1) with (Z.succ (Zpos (digits2_pos p) - 1)) by lia.
    rewrite !Z.pow_succ_r by lia. lia.
  - cbn. lia.
Qed.

Lemma digits2_pos_unique p k :
  2 ^ (k - 1) <= Zpos p < 2 ^ k -> Zpos (digits2_pos p) = k.
Proof.
  intros [Hl Hu]. pose proof (digits2_pos_bounds p) as [Dl Du].
  set (d := Zpos (digits2_pos p)) in *.
  assert (0 < d) by (unfold d; lia).
  destruct (Z.lt_trichotomy d k) as [Hlt | [E | Hgt]]; [|exact E|].
  - assert (2 ^ d <= 2 ^ (k - 1)) by (apply Z.pow_le_mono_r; lia). lia.
  - assert (0 <= k).
    { destruct (Z.le_gt_cases 0 k); [assumption|].
      rewrite (Z.pow_neg_r 2 k) in Hu by lia. lia. }
    assert (2 ^ k <= 2 ^ (d - 1)) by (apply Z.pow_le_mono_r; lia). lia.
Qed.

Lemma iter_xO m d : Zpos (Pos.iter xO m d) = Zpos m * 2 ^ Zpos d.
Proof.
  induction d as [|d IH] using Pos.peano_ind.
  - cbn. lia.
  - rewrite Pos.iter_succ, Pos2Z.inj_succ, Z.pow_succ_r by lia.
    rewrite Pos2Z.inj_xO, IH. ring.
Qed.

Lemma shr_1_m r : 0 <= shr_m r -> shr_m (shr_1 r) = shr_m r / 2.
Proof.
  destruct r as [m b s]. cbn [shr_m]. intros Hm.
  destruct m as [|[p|p|]|p]; cbn [shr_1 shr_m].
  - reflexivity.
  - rewrite (Pos2Z.inj_xI p). apply Z.div_unique with 1; lia.
  - rewrite (Pos2Z.inj_xO p). apply Z.div_unique with 0; lia.
  - reflexivity.
  - lia.
Qed.

Lemma iter_shr_m p : forall r,
  0 <= shr_m r -> shr_m (iter_pos shr_1 p r) = shr_m r / 2 ^ Zpos p.
Proof.
  assert (Hnn : forall r, 0 <= shr_m r -> 0 <= shr_m (shr_1 r)).
  { intros r Hr. rewrite shr_1_m by exact Hr. apply Z.div_pos; lia. }
  induction p as [p IH|p IH|]; intros r Hr; cbn [iter_pos].
  - assert (H1 : 0 <= shr_m (iter_pos shr_1 p (shr_1 r))).
    { rewrite IH by auto. apply Z.div_pos; [auto | lia]. }
    rewrite IH by exact H1. rewrite IH by auto. rewrite shr_1_m by exact Hr.
    rewrite !Z.div_div by lia. f_equal.
    rewrite Pos2Z.inj_xI.
    replace (2 * Zpos p + 1) with (Z.succ (Zpos p + Zpos p)) by lia.
    rewrite Z.pow_succ_r, Z.pow_add_r by lia. reflexivity.
  - assert (H1 : 0 <= shr_m (iter_pos shr_1 p r)).
    { rewrite IH by auto. apply Z.div_pos; [auto | lia]. }
    rewrite IH by exact H1. rewrite IH by auto.
    rewrite !Z.div_div by lia. f_equal.
    rewrite <- Z.pow_add_r by lia. f_equal. lia.
  - rewrite shr_1_m by exact Hr. reflexivity.
Qed.

(** [shr] by [n] places divides the mantissa by [2^n]. *)
Lemma shr_spec r e n :
  0 <= shr_m r ->
  shr_m (fst (shr r e n)) = shr_m r / 2 ^ Z.max n 0
  /\ snd (shr r e n) = e + Z.max n 0.
Proof.
  intros Hr. destruct n as [|p|p]; cbn [shr fst snd].
  - cbn. rewrite Z.div_1_r. lia.
  - rewrite iter_shr_m by exact Hr.
    replace (Z.max (Zpos p) 0) with (Zpos p) by lia. split; reflexivity.
  - replace (Z.max (Zneg p) 0) with 0 by lia. rewrite Z.div_1_r. lia.
Qed.

Lemma round_nearest_even_cases m l :
  round_nearest_even m l = m \/ round_nearest_even m l = m + 1.
Proof.
  destruct l as [|[| |]]; cbn [round_nearest_even]; auto.
  destruct (Z.even m); auto.
Qed.

Lemma fexp_64 e : fexp prec emax e = Z.max (e - 53) (-1074).
Proof. reflexivity. Qed.


Lemma units_finite sx m e :
  units (S754_finite sx m e) = cond_Zopp sx (Zpos m * 2 ^ (e + 1074)).
Proof. reflexivity. Qed.

(** The rounding of [mz * 2^ez], whatever lies below the last digit of
    [mz]: the result is one of the two neighbours of [mz] on the grid of
    step [2^st]. *)
Lemma binary_round_aux_units sx mz ez l :
  0 <= mz -> -1074 <= ez ->
  Z.max (fexp prec emax (Zdigits2 mz + ez)) ez <= 970 ->
  SF_finite (binary_round_aux prec emax sx mz ez l) = true
  /\ exists lo,
       lo * 2 ^ (Z.max (fexp prec emax (Zdigits2 mz + ez)) ez - ez) <= mz
       /\ mz < (lo + 1) * 2 ^ (Z.max (fexp prec emax (Zdigits2 mz + ez)) ez - ez)
       /\ (units (binary_round_aux prec emax sx mz ez l)
           = cond_Zopp sx
               (lo * 2 ^ (Z.max (fexp prec emax (Zdigits2 mz + ez)) ez + 1074))
           \/ units (binary_round_aux prec emax sx mz ez l)
              = cond_Zopp sx
                  ((lo + 1)
                   * 2 ^ (Z.max (fexp prec emax (Zdigits2 mz + ez)) ez + 1074))).
Proof.
  intros Hmz Hez. set (fe := fexp prec emax (Zdigits2 mz + ez)).
  set (st := Z.max fe ez). intros Hst.
  set (n := st - ez).
  assert (Hn : 0 <= n) by (unfold n, st; lia).
  assert (En : Z.max (fe - ez) 0 = n) by (unfold n, st; lia).
  assert (Hpn : 0 < 2 ^ n) by (apply Z.pow_pos_nonneg; lia).
  (* the first shift *)
  unfold binary_round_aux, shr_fexp. fold fe.
  assert (Hrec : shr_m (shr_record_of_loc mz l) = mz)
    by (destruct l as [|[| |]]; reflexivity).
  pose proof (shr_spec (shr_record_of_loc mz l) ez (fe - ez)) as S1.
  rewrite Hrec, En in S1. specialize (S1 Hmz).
  destruct (shr (shr_record_of_loc mz l) ez (fe - ez)) as [mrs' e'] eqn:E1.
  cbn [fst snd] in S1. destruct S1 as [Q1 Ee'].
  assert (Ee : e' = st) by (unfold n in Ee'; lia). clear Ee'. subst e'.
  set (lo := mz / 2 ^ n) in *.
  pose proof (Z.div_mod mz (2 ^ n) ltac:(lia)) as Hdm. fold lo in Hdm.
  pose proof (Z.mod_pos_bound mz (2 ^ n) Hpn) as Hmod.
  assert (Hlo0 : 0 <= lo) by (apply Z.div_pos; lia).
  (* the quotient has at most 53 digits *)
  assert (Hlo : lo < 2 ^ 53).
  { destruct mz as [|pz|pz]; [unfold lo; rewrite Z.div_0_l by lia; reflexivity| |lia].
    pose proof (digits2_pos_bounds pz) as [_ Du].
    assert (Hd : Zpos (digits2_pos pz) <= 53 + n).
    { unfold n, st, fe. rewrite fexp_64. cbn [Zdigits2]. lia. }
    apply Z.div_lt_upper_bound; [exact Hpn|].
    rewrite <- Z.pow_add_r by lia.
    assert (2 ^ Zpos (digits2_pos pz) <= 2 ^ (n + 53))
      by (apply Z.pow_le_mono_r; lia).
    lia. }
  set (m1 := round_nearest_even (shr_m mrs') (loc_of_shr_record mrs')).
  assert (Hm1 : m1 = lo \/ m1 = lo + 1).
  { unfold m1. rewrite Q1. apply round_nearest_even_cases. }
  assert (Hgrid : lo * 2 ^ n <= mz /\ mz < (lo + 1) * 2 ^ n) by nia.
  (* the second shift, needed only when the rounding carries *)
  assert (Hres :
    let '(mrs'', e'') := shr (shr_record_of_loc m1 loc_Exact) st
                           (fexp prec emax (Zdigits2 m1 + st) - st) in
    SF_finite match shr_m mrs'' with
              | 0 => S754_zero sx
              | Zpos m => if e'' <=? emax - prec then S754_finite sx m e''
                          else S754_infinity sx
              | Zneg _ => S754_nan
              end = true
    /\ units match shr_m mrs'' with
             | 0 => S754_zero sx
             | Zpos m => if e'' <=? emax - prec then S754_finite sx m e''
                         else S754_infinity sx
             | Zneg _ => S754_nan
             end = cond_Zopp sx (m1 * 2 ^ (st + 1074))).
  { rewrite fexp_64.
    destruct m1 as [|p1|p1] eqn:Em1; [| |lia].
    - cbn [Zdigits2]. 
      assert (Hn2 : Z.max (0 + st - 53) (-1074) - st <= 0) by (unfold st in *; lia).
      destruct (Z.max (0 + st - 53) (-1074) - st) as [|p2|p2] eqn:En2; try lia;
        cbn [shr shr_record_of_loc shr_m SF_finite units];
        (split; [reflexivity|]); destruct sx; reflexivity.
    - pose proof (digits2_pos_bounds p1) as [D1l D1u].
      cbn [Zdigits2]. set (d1 := Zpos (digits2_pos p1)) in *.
      destruct (Z.eq_dec (Zpos p1) (2 ^ 53)) as [Etop|Hlow].
      + assert (Ed1 : d1 = 54).
        { apply digits2_pos_unique. rewrite Etop. split; [reflexivity|].
          apply Z.pow_lt_mono_r; lia. }
        replace (Z.max (d1 + st - 53) (-1074) - st) with 1 by (unfold st in *; lia).
        cbn [shr shr_record_of_loc iter_pos].
        rewrite Etop.
        change (2 ^ 53) with (Zpos (xO (Pos.pow 2 52))).
        cbn [shr_1 shr_m orb].
        destruct (Z.leb_spec (st + 1) (emax - prec)) as [_|Hbad];
          [|change (emax - prec) with 971 in Hbad; lia].
        split; [reflexivity|]. rewrite units_finite. f_equal.
        replace (st + 1 + 1074) with (Z.succ (st + 1074)) by lia.
        rewrite Z.pow_succ_r by (unfold st; lia).
        rewrite (Pos2Z.inj_xO (Pos.pow 2 52)). ring.
      + assert (Hd1 : d1 <= 53).
        { destruct (Z.le_gt_cases d1 53) as [H|H]; [exact H|exfalso].
          assert (2 ^ 53 <= 2 ^ (d1 - 1)) by (apply Z.pow_le_mono_r; lia). lia. }
        assert (Hn2 : Z.max (d1 + st - 53) (-1074) - st <= 0) by (unfold st in *; lia).
        destruct (Z.max (d1 + st - 53) (-1074) - st) as [|p2|p2] eqn:En2; try lia;
          cbn [shr shr_record_of_loc shr_m];
          (destruct (Z.leb_spec st (emax - prec)) as [_|Hbad];
            [|change (emax - prec) with 971 in Hbad; lia]);
          (split; reflexivity). }
  fold m1.
  destruct (shr (shr_record_of_loc m1 loc_Exact) st
              (fexp prec emax (Zdigits2 m1 + st) - st)) as [mrs'' e''].
  destruct Hres as [Hfin Hunits].
  split; [exact Hfin|]. exists lo. fold n.
  split; [apply Hgrid|]. split; [apply Hgrid|].
  rewrite Hunits. destruct Hm1 as [-> | ->]; auto.
Qed.

Lemma shl_align_spec mx ex ex' :
  let '(m', e') := shl_align mx ex ex' in
  e' = Z.min ex ex' /\ Zpos m' = Zpos mx * 2 ^ (ex - e').
Proof.
  unfold shl_align. destruct (ex' - ex) as [|d|d] eqn:E.
  - replace (Z.min ex ex') with ex by lia. rewrite Z.sub_diag. cbn. lia.
  - replace (Z.min ex ex') with ex by lia. rewrite Z.sub_diag. cbn. lia.
  - replace (Z.min ex ex') with ex' by lia. split; [reflexivity|].
    rewrite iter_xO. f_equal. f_equal. lia.
Qed.

(** Rounding a number below 8 moves it by at most 2^-50. *)
Lemma binary_round_bound sx m e :
  -1074 <= e ->
  Zpos m * 2 ^ (e + 1074) < 2 ^ 1077 ->
  SF_finite (binary_round prec emax sx m e) = true
  /\ Z.abs (units (binary_round prec emax sx m e)
            - cond_Zopp sx (Zpos m * 2 ^ (e + 1074))) <= 2 ^ 1024.
Proof.
  intros He Hv. unfold binary_round.
  pose proof (digits2_pos_bounds m) as [Dl Du].
  set (d := Zpos (digits2_pos m)) in *.
  rewrite fexp_64. set (fe := Z.max (d + e - 53) (-1074)).
  pose proof (shl_align_spec m e fe) as HS.
  destruct (shl_align m e fe) as [mz ez]. destruct HS as [Eez Emz].
  assert (Hez : -1074 <= ez) by (unfold fe in Eez; lia).
  assert (Hsh : 0 <= e - ez) by lia.
  assert (Ev : Zpos mz * 2 ^ (ez + 1074) = Zpos m * 2 ^ (e + 1074)).
  { rewrite Emz, <- Z.mul_assoc, <- Z.pow_add_r by lia. f_equal. f_equal. lia. }
  assert (Edz : Zpos (digits2_pos mz) = d + (e - ez)).
  { apply digits2_pos_unique. rewrite Emz. split.
    - replace (d + (e - ez) - 1) with (d - 1 + (e - ez)) by lia.
      rewrite Z.pow_add_r by (unfold d; lia).
      apply Z.mul_le_mono_nonneg_r; [apply Z.pow_nonneg; lia | exact Dl].
    - rewrite Z.pow_add_r by (unfold d; lia).
      apply Z.mul_lt_mono_pos_r; [apply Z.pow_pos_nonneg; lia | exact Du]. }
  (* the magnitude bounds the step of the grid *)
  assert (Hsum : d + e < 4).
  { destruct (Z.lt_ge_cases (d + e) 4) as [H|H]; [exact H|exfalso].
    assert (H1 : 2 ^ (d - 1) * 2 ^ (e + 1074) <= Zpos m * 2 ^ (e + 1074)).
    { apply Z.mul_le_mono_nonneg_r; [apply Z.pow_nonneg; lia | exact Dl]. }
    rewrite <- Z.pow_add_r in H1 by (unfold d; lia).
    assert (H2 : 2 ^ 1077 <= 2 ^ (d - 1 + (e + 1074)))
      by (apply Z.pow_le_mono_r; lia).
    lia. }
  assert (Est : Z.max (fexp prec emax (Zdigits2 (Zpos mz) + ez)) ez = fe).
  { cbn [Zdigits2]. rewrite Edz, fexp_64.
    replace (d + (e - ez) + ez) with (d + e) by lia. fold fe. lia. }
  destruct (binary_round_aux_units sx (Zpos mz) ez loc_Exact ltac:(lia) Hez)
    as [Fin [lo [Hl [Hu Hval]]]]; [rewrite Est; unfold fe; lia|].
  rewrite Est in Hl, Hu, Hval.
  split; [exact Fin|].
  assert (Hfe : -1074 <= fe <= -50) by (unfold fe; lia).
  assert (Hstep : 2 ^ (fe + 1074) = 2 ^ (fe - ez) * 2 ^ (ez + 1074)).
  { rewrite <- Z.pow_add_r by lia. f_equal. lia. }
  assert (Hle : 2 ^ (fe + 1074) <= 2 ^ 1024) by (apply Z.pow_le_mono_r; lia).
  assert (Hp : 0 < 2 ^ (ez + 1074)) by (apply Z.pow_pos_nonneg; lia).
  rewrite <- Ev.
  set (w := 2 ^ (fe - ez)) in *. set (z := 2 ^ (ez + 1074)) in *.
  assert (H1 : lo * w * z <= Zpos mz * z) by (apply Z.mul_le_mono_nonneg_r; lia).
  assert (H2 : Zpos mz * z <= (lo + 1) * w * z) by (apply Z.mul_le_mono_nonneg_r; lia).
  destruct Hval as [-> | ->]; rewrite Hstep; destruct sx; cbn [cond_Zopp]; lia.
Qed.

Lemma binary_normalize_bound M e :
  -1074 <= e ->
  Z.abs M * 2 ^ (e + 1074) < 2 ^ 1077 ->
  let r := binary_normalize prec emax M e false in
  SF_finite r = true
  /\ Z.abs (units r - M * 2 ^ (e + 1074)) <= 2 ^ 1024.
Proof.
  intros He Hv. destruct M as [|m|m]; cbn [binary_normalize].
  - cbn. split; [reflexivity | lia].
  - destruct (binary_round_bound false m e He Hv) as [Fin Hb].
    cbn [cond_Zopp] in Hb. auto.
  - destruct (binary_round_bound true m e He Hv) as [Fin Hb].
    cbn [cond_Zopp] in Hb. split; [exact Fin|].
    rewrite <- Pos2Z.opp_pos. lia.
Qed.

Lemma valid_exponent s m e :
  valid_binary (S754_finite s m e) = true -> -1074 <= e.
Proof.
  cbn [SpecFloat.valid_binary]. unfold bounded, canonical_mantissa.
  rewrite fexp_64. intros H. apply andb_prop in H as [H _].
  apply Z.eqb_eq in H. lia.
Qed.

Lemma aligned_units s m e ez :
  -1074 <= ez -> ez <= e ->
  cond_Zopp s (Zpos (fst (shl_align m e ez))) * 2 ^ (ez + 1074)
  = units (S754_finite s m e).
Proof.
  intros Hz Hle. pose proof (shl_align_spec m e ez) as HS.
  destruct (shl_align m e ez) as [m' e']. destruct HS as [Ee Em]. cbn [fst units].
  replace e' with ez in Em by lia. rewrite Em.
  assert (E : Zpos m * 2 ^ (e - ez) * 2 ^ (ez + 1074) = Zpos m * 2 ^ (e + 1074)).
  { rewrite <- Z.mul_assoc, <- Z.pow_add_r by lia. f_equal. f_equal. lia. }
  destruct s; cbn [cond_Zopp]; lia.
Qed.

(** A sum below 8 in absolute value is finite and within 2^-50 of the
    exact sum; likewise a difference. *)
Lemma SFadd_bound x y :
  valid_binary x = true -> valid_binary y = true ->
  SF_finite x = true -> SF_finite y = true ->
  Z.abs (units x + units y) < 2 ^ 1077 ->
  SF_finite (SF64add x y) = true
  /\ Z.abs (units (SF64add x y) - (units x + units y)) <= 2 ^ 1024.
Proof.
  intros Vx Vy Fx Fy Hv.
  assert (H0 : 0 <= 2 ^ 1024) by (apply Z.pow_nonneg; lia).
  destruct x as [sx|sx| |sx mx ex]; try discriminate Fx;
    destruct y as [sy|sy| |sy my ey]; try discriminate Fy.
  - unfold SF64add, SFadd. destruct sx, sy; cbn [SF_finite units]; split; auto; lia.
  - unfold SF64add, SFadd. split; [reflexivity|]. cbn [units] in *. lia.
  - unfold SF64add, SFadd. split; [reflexivity|]. cbn [units] in *. lia.
  - apply valid_exponent in Vx, Vy.
    unfold SF64add, SFadd. set (ez := Z.min ex ey).
    assert (Hz : -1074 <= ez) by (unfold ez; lia).
    pose proof (aligned_units sx mx ex ez Hz ltac:(unfold ez; lia)) as Ex.
    pose proof (aligned_units sy my ey ez Hz ltac:(unfold ez; lia)) as Ey.
    set (M := cond_Zopp sx (Zpos (fst (shl_align mx ex ez)))
              + cond_Zopp sy (Zpos (fst (shl_align my ey ez)))) in *.
    assert (EM : M * 2 ^ (ez + 1074)
                 = units (S754_finite sx mx ex) + units (S754_finite sy my ey)).
    { unfold M. rewrite Z.mul_add_distr_r, Ex, Ey. reflexivity. }
    rewrite <- EM in *.
    apply binary_normalize_bound; [exact Hz|].
    rewrite Z.abs_mul, (Z.abs_eq (2 ^ (ez + 1074))) in Hv
      by (apply Z.pow_nonneg; lia).
    exact Hv.
Qed.

Lemma SFsub_bound x y :
  valid_binary x = true -> valid_binary y = true ->
  SF_finite x = true -> SF_finite y = true ->
  Z.abs (units x - units y) < 2 ^ 1077 ->
  SF_finite (SF64sub x y) = true
  /\ Z.abs (units (SF64sub x y) - (units x - units y)) <= 2 ^ 1024.
Proof.
  intros Vx Vy Fx Fy Hv.
  assert (H0 : 0 <= 2 ^ 1024) by (apply Z.pow_nonneg; lia).
  destruct x as [sx|sx| |sx mx ex]; try discriminate Fx;
    destruct y as [sy|sy| |sy my ey]; try discriminate Fy.
  - unfold SF64sub, SFsub. destruct sx, sy; cbn [SF_finite units]; split; auto; lia.
  - unfold SF64sub, SFsub. split; [reflexivity|]. cbn [units] in *.
    destruct sy; cbn [negb cond_Zopp] in *; lia.
  - unfold SF64sub, SFsub. split; [reflexivity|]. cbn [units] in *. lia.
  - apply valid_exponent in Vx, Vy.
    unfold SF64sub, SFsub. set (ez := Z.min ex ey).
    assert (Hz : -1074 <= ez) by (unfold ez; lia).
    pose proof (aligned_units sx mx ex ez Hz ltac:(unfold ez; lia)) as Ex.
    pose proof (aligned_units sy my ey ez Hz ltac:(unfold ez; lia)) as Ey.
    set (M := cond_Zopp sx (Zpos (fst (shl_align mx ex ez)))
              - cond_Zopp sy (Zpos (fst (shl_align my ey ez)))) in *.
    assert (EM : M * 2 ^ (ez + 1074)
                 = units (S754_finite sx mx ex) - units (S754_finite sy my ey)).
    { unfold M. rewrite Z.mul_sub_distr_r, Ex, Ey. reflexivity. }
    rewrite <- EM in *.
    apply binary_normalize_bound; [exact Hz|].
    rewrite Z.abs_mul, (Z.abs_eq (2 ^ (ez + 1074))) in Hv
      by (apply Z.pow_nonneg; lia).
    exact Hv.
Qed.


Lemma add_bound (x y : float) :
  finite x = true -> finite y = true ->
  Z.abs (units (Prim2SF x) + units (Prim2SF y)) < 2 ^ 1077 ->
  finite (x + y) = true
  /\ Z.abs (units (Prim2SF (x + y)) - (units (Prim2SF x) + units (Prim2SF y)))
     <= 2 ^ 1024.
Proof.
  unfold finite. rewrite add_spec. apply SFadd_bound; apply Prim2SF_valid.
Qed.

Lemma sub_bound (x y : float) :
  finite x = true -> finite y = true ->
  Z.abs (units (Prim2SF x) - units (Prim2SF y)) < 2 ^ 1077 ->
  finite (x - y) = true
  /\ Z.abs (units (Prim2SF (x - y)) - (units (Prim2SF x) - units (Prim2SF y)))
     <= 2 ^ 1024.
Proof.
  unfold finite. rewrite sub_spec. apply SFsub_bound; apply Prim2SF_valid.
Qed.

(** *** Division by the frame length

    The binary64 number nearest to 0.1 is 7205759403792794 * 2^-56. *)

Lemma valid_digits s m e :
  valid_binary (S754_finite s m e) = true -> Zpos (digits2_pos m) <= 53.
Proof.
  cbn [SpecFloat.valid_binary]. unfold bounded, canonical_mantissa.
  rewrite fexp_64. intros H. apply andb_prop in H as [H _].
  apply Z.eqb_eq in H. lia.
Qed.

Lemma Zdigits2_bound q k : 0 <= q < 2 ^ k -> 0 <= k -> Zdigits2 q <= k.
Proof.
  intros [H0 Hq] Hk. destruct q as [|p|p]; cbn [Zdigits2]; [exact Hk| |lia].
  pose proof (digits2_pos_bounds p) as [Dl _].
  destruct (Z.le_gt_cases (Zpos (digits2_pos p)) k) as [H|H]; [exact H|exfalso].
  assert (2 ^ k <= 2 ^ (Zpos (digits2_pos p) - 1)) by (apply Z.pow_le_mono_r; lia).
  lia.
Qed.

(** The quotient by 0.1 of a number of at most 2 in absolute value is
    finite, within 2^-47 of the exact quotient, and of the same sign. *)
Lemma SFdiv_tenth_bound x :
  valid_binary x = true -> SF_finite x = true ->
  Z.abs (units x) <= 2 * 2 ^ 1074 ->
  let r := SF64div x (S754_finite false 7205759403792794 (-56)) in
  SF_finite r = true
  /\ Z.abs (units r * (7205759403792794 * 2 ^ 1018) - units x * 2 ^ 1074)
     <= 2 ^ 1027 * (7205759403792794 * 2 ^ 1018)
  /\ (0 <= units x -> 0 <= units r)
  /\ (units x <= 0 -> units r <= 0).
Proof.
  intros V Fx Hv. cbv zeta.
  assert (Hpos : 0 <= 2 ^ 1027 * (7205759403792794 * 2 ^ 1018)).
  { apply Z.mul_nonneg_nonneg; [apply Z.pow_nonneg; lia|].
    apply Z.mul_nonneg_nonneg; [lia | apply Z.pow_nonneg; lia]. }
  destruct x as [sx|sx| |sx mx ex]; try discriminate Fx.
  - unfold SF64div, SFdiv. cbn [SF_finite units]. repeat split; lia.
  - pose proof (valid_exponent _ _ _ V) as Hex.
    pose proof (valid_digits _ _ _ V) as Hd1.
    pose proof (digits2_pos_bounds mx) as [Dl Du].
    unfold SF64div, SFdiv, SFdiv_core_binary.
    change (Zdigits2 (Zpos 7205759403792794)) with 53.
    cbn [Zdigits2]. set (d1 := Zpos (digits2_pos mx)) in *.
    assert (Hd0 : 0 < d1) by (unfold d1; lia).
    rewrite fexp_64.
    rewrite units_finite in Hv.
    assert (Hmag : d1 + ex <= 2).
    { destruct (Z.le_gt_cases (d1 + ex) 2) as [H|H]; [exact H|exfalso].
      assert (H1 : 2 ^ (d1 - 1) * 2 ^ (ex + 1074) <= Zpos mx * 2 ^ (ex + 1074)).
      { apply Z.mul_le_mono_nonneg_r; [apply Z.pow_nonneg; lia | exact Dl]. }
      rewrite <- Z.pow_add_r in H1 by lia.
      assert (H2 : 2 ^ 1076 <= 2 ^ (d1 - 1 + (ex + 1074)))
        by (apply Z.pow_le_mono_r; lia).
      assert (H3 : 2 ^ 1076 = 4 * 2 ^ 1074)
        by (change 1076 with (2 + 1074); rewrite Z.pow_add_r by lia; reflexivity).
      assert (H4 : 0 < 2 ^ 1074) by (apply Z.pow_pos_nonneg; lia).
      destruct sx; cbn [cond_Zopp] in Hv; lia. }
    set (e' := Z.min (Z.max (d1 + ex - (53 + -56) - 53) (-1074)) (ex - -56)).
    assert (Ee' : e' = Z.max (d1 + ex - 50) (-1074)) by (unfold e'; lia).
    set (s := ex - -56 - e').
    assert (Hs : 0 <= s) by (unfold s; lia).
    set (m' := match s with
               | 0 => Zpos mx
               | Zpos _ => Z.shiftl (Zpos mx) s
               | Zneg _ => 0
               end).
    assert (Em' : m' = Zpos mx * 2 ^ s).
    { unfold m'. destruct s as [|p|p] eqn:Es; [cbn; lia| |lia].
      rewrite Z.shiftl_mul_pow2 by lia. reflexivity. }
    pose proof (Z_div_mod m' 7205759403792794 ltac:(lia)) as Hdiv.
    destruct (Z.div_eucl m' 7205759403792794) as [q r]. destruct Hdiv as [Eq Hr].
    assert (Hm'0 : 0 < m') by (rewrite Em'; apply Z.mul_pos_pos; [lia|apply Z.pow_pos_nonneg; lia]).
    assert (Hq0 : 0 <= q) by nia.
    (* the size of the quotient *)
    assert (Hm'u : m' < 2 ^ (d1 + s)).
    { rewrite Em', Z.pow_add_r by lia.
      apply Z.mul_lt_mono_pos_r; [apply Z.pow_pos_nonneg; lia | exact Du]. }
    assert (Hdq : Zdigits2 q + e' <= 6).
    { destruct (Z.le_gt_cases (d1 + s) 52) as [Hsmall|Hbig].
      - assert (2 ^ (d1 + s) <= 2 ^ 52) by (apply Z.pow_le_mono_r; lia).
        assert (q = 0) by nia. subst q. cbn [Zdigits2]. lia.
      - assert (Hq : q < 2 ^ (d1 + s - 52)).
        { apply Z.mul_lt_mono_pos_l with (2 ^ 52); [reflexivity|].
          rewrite <- Z.pow_add_r by lia. replace (52 + (d1 + s - 52)) with (d1 + s) by lia.
          change (2 ^ 52) with 4503599627370496. lia. }
        pose proof (Zdigits2_bound q (d1 + s - 52) ltac:(lia) ltac:(lia)).
        unfold s in *. lia. }
    set (st := Z.max (fexp prec emax (Zdigits2 q + e')) e').
    assert (Hst : -1074 <= st <= -47) by (unfold st; rewrite fexp_64; lia).
    destruct (binary_round_aux_units (xorb sx false) q e'
                (new_location 7205759403792794 r) Hq0 ltac:(lia))
      as [Fin [lo [Hl [Hu Hval]]]]; [fold st; lia|].
    fold st in Hl, Hu, Hval.
    replace (xorb sx false) with sx in * by (destruct sx; reflexivity).
    split; [exact Fin|].
    set (R := units (binary_round_aux prec emax sx q e'
                       (new_location 7205759403792794 r))) in *.
    set (w := 2 ^ (st - e')) in *.
    assert (Hw : 0 < w) by (apply Z.pow_pos_nonneg; lia).
    assert (Hlo0 : 0 <= lo) by nia.
    set (my := 7205759403792794) in *.
    (* everything over the common factor 2^(e'+1074) * 2^1018 *)
    set (z := 2 ^ (e' + 1074) * 2 ^ 1018).
    assert (Hz : 0 < z).
    { apply Z.mul_pos_pos; apply Z.pow_pos_nonneg; lia. }
    assert (EX : Zpos mx * 2 ^ (ex + 1074) * 2 ^ 1074 = m' * z).
    { rewrite Em'. unfold z.
      rewrite <- !Z.mul_assoc, <- !Z.pow_add_r by lia.
      f_equal. f_equal. unfold s. lia. }
    assert (ES : 2 ^ (st + 1074) * (my * 2 ^ 1018) = w * my * z).
    { unfold w, z.
      replace (st + 1074) with ((st - e') + (e' + 1074)) by lia.
      rewrite Z.pow_add_r by lia. ring. }
    assert (Hlow : lo * w * my <= m') by nia.
    assert (Hupp : m' < (lo + 1) * w * my) by nia.
    assert (Hstep : 2 ^ (st + 1074) <= 2 ^ 1027) by (apply Z.pow_le_mono_r; lia).
    assert (Hstep0 : 0 < 2 ^ (st + 1074)) by (apply Z.pow_pos_nonneg; lia).
    assert (HF : 0 < my * 2 ^ 1018).
    { apply Z.mul_pos_pos; [reflexivity | apply Z.pow_pos_nonneg; lia]. }
    assert (Hbound : w * my * z <= 2 ^ 1027 * (my * 2 ^ 1018)).
    { rewrite <- ES. apply Z.mul_le_mono_nonneg_r; lia. }
    assert (Hcore : forall v, v = lo \/ v = lo + 1 ->
              Z.abs (v * 2 ^ (st + 1074) * (my * 2 ^ 1018) - m' * z)
              <= 2 ^ 1027 * (my * 2 ^ 1018)).
    { intros v Hv'.
      replace (v * 2 ^ (st + 1074) * (my * 2 ^ 1018)) with (v * (w * my * z))
        by (rewrite <- ES; ring).
      replace (v * (w * my * z) - m' * z) with ((v * w * my - m') * z) by ring.
      rewrite Z.abs_mul, (Z.abs_eq z) by lia.
      apply Z.le_trans with (w * my * z); [|exact Hbound].
      apply Z.mul_le_mono_nonneg_r; [lia|].
      destruct Hv' as [-> | ->]; nia. }
    rewrite units_finite.
    assert (HR : exists v, (v = lo \/ v = lo + 1)
                           /\ R = cond_Zopp sx (v * 2 ^ (st + 1074))).
    { destruct Hval as [E|E]; [exists lo | exists (lo + 1)]; auto. }
    destruct HR as [v [Hv' ER]]. specialize (Hcore v Hv'). rewrite ER.
    assert (Hv0 : 0 <= v * 2 ^ (st + 1074))
      by (apply Z.mul_nonneg_nonneg; [destruct Hv' as [-> | ->]; lia | lia]).
    assert (Hx0 : 0 < Zpos mx * 2 ^ (ex + 1074))
      by (apply Z.mul_pos_pos; [lia | apply Z.pow_pos_nonneg; lia]).
    destruct sx; cbn [cond_Zopp] in *.
    + split; [|split; lia].
      replace (- (v * 2 ^ (st + 1074)) * (my * 2 ^ 1018)
               - - (Zpos mx * 2 ^ (ex + 1074)) * 2 ^ 1074)
        with (- (v * 2 ^ (st + 1074) * (my * 2 ^ 1018) - m' * z))
        by (rewrite <- EX; ring).
      rewrite Z.abs_opp. exact Hcore.
    + split; [|split; lia].
      rewrite EX. exact Hcore.
Qed.


(** *** The operations of [Advance] *)

Lemma div_tenth_bound (x : float) :
  finite x = true ->
  Z.abs (units (Prim2SF x)) <= 2 * 2 ^ 1074 ->
  finite (x / 0x1.999999999999ap-4) = true
  /\ Z.abs (units (Prim2SF (x / 0x1.999999999999ap-4)) * (7205759403792794 * 2 ^ 1018)
            - units (Prim2SF x) * 2 ^ 1074)
     <= 2 ^ 1027 * (7205759403792794 * 2 ^ 1018)
  /\ (0 <= units (Prim2SF x) -> 0 <= units (Prim2SF (x / 0x1.999999999999ap-4)))
  /\ (units (Prim2SF x) <= 0 -> units (Prim2SF (x / 0x1.999999999999ap-4)) <= 0).
Proof.
  unfold finite. rewrite div_spec.
  change (Prim2SF 0x1.999999999999ap-4) with (S754_finite false 7205759403792794 (-56)).
  intros Fx Hx. apply SFdiv_tenth_bound; [apply Prim2SF_valid | exact Fx | exact Hx].
Qed.

(** [int(f)] for a finite [f] of moderate size: the whole units of [f],
    toward zero. *)
Lemma int_of_float_units oob (q : float) :
  finite q = true ->
  Z.abs (units (Prim2SF q)) < 2 ^ 62 * 2 ^ 1074 ->
  Z.abs (int_of_float oob q) * 2 ^ 1074 <= Z.abs (units (Prim2SF q))
  /\ Z.abs (units (Prim2SF q)) < (Z.abs (int_of_float oob q) + 1) * 2 ^ 1074
  /\ (0 <= units (Prim2SF q) -> 0 <= int_of_float oob q)
  /\ (units (Prim2SF q) <= 0 -> int_of_float oob q <= 0).
Proof.
  unfold finite, int_of_float. pose proof (Prim2SF_valid q) as V.
  assert (HU : 0 < 2 ^ 1074) by (apply Z.pow_pos_nonneg; lia).
  destruct (Prim2SF q) as [s|s| |s m e]; try discriminate; intros _ Hb.
  - cbn [trunc_SF units inInt]. cbn. lia.
  - apply valid_exponent in V. rewrite units_finite in *.
    cbn [trunc_SF].
    set (v := match e with
              | Z.neg p => Z.quot (Zpos m) (2 ^ Zpos p)
              | _ => Zpos m * 2 ^ e
              end).
    assert (Hv : 0 <= v /\ v * 2 ^ 1074 <= Zpos m * 2 ^ (e + 1074)
                 /\ Zpos m * 2 ^ (e + 1074) < (v + 1) * 2 ^ 1074).
    { unfold v. destruct e as [|p|p].
      - cbn [Z.add]. change (2 ^ 0) with 1. lia.
      - rewrite Z.pow_add_r by lia. 
        assert (0 < 2 ^ Z.pos p) by (apply Z.pow_pos_nonneg; lia). nia.
      - assert (Hp : 0 < 2 ^ Zpos p) by (apply Z.pow_pos_nonneg; lia).
        rewrite Z.quot_div_nonneg by lia.
        pose proof (Z.div_mod (Zpos m) (2 ^ Zpos p) ltac:(lia)) as Hdm.
        pose proof (Z.mod_pos_bound (Zpos m) (2 ^ Zpos p) Hp) as Hmod.
        set (k := Zpos m / 2 ^ Zpos p) in *.
        set (r := Zpos m mod 2 ^ Zpos p) in *.
        assert (EU : 2 ^ 1074 = 2 ^ Zpos p * 2 ^ (Zneg p + 1074)).
        { rewrite <- Z.pow_add_r by lia. f_equal. lia. }
        assert (Hz : 0 < 2 ^ (Zneg p + 1074)) by (apply Z.pow_pos_nonneg; lia).
        assert (Hk : 0 <= k) by (apply Z.div_pos; lia).
        set (z := 2 ^ (Zneg p + 1074)) in *. set (w := 2 ^ Zpos p) in *.
        rewrite EU, Hdm. split; [exact Hk|]. split; nia. }
    destruct Hv as [Hv0 [Hvl Hvu]].
    assert (Hx : 0 < Zpos m * 2 ^ (e + 1074))
      by (apply Z.mul_pos_pos; [lia | apply Z.pow_pos_nonneg; lia]).
    assert (Hsmall : v < 2 ^ 62).
    { destruct s; cbn [cond_Zopp] in Hb; nia. }
    assert (P62 : 2 ^ 62 = 4611686018427387904) by reflexivity.
    assert (Hin : inInt (if s then - v else v) = true).
    { unfold inInt, minInt, maxInt. apply andb_true_intro.
      split; apply Z.leb_le; destruct s; lia. }
    rewrite Hin. destruct s; cbn [cond_Zopp]; repeat split; lia.
Qed.


(** [float64(n) * 0.1] for a count [n] from 0 to 9: finite, at most 1,
    and within 2^-50 / 10 of [n / 10]. *)
Lemma tick_lengths n :
  0 <= n <= 9 ->
  finite (float_of_int n * 0x1.999999999999ap-4) = true
  /\ 0 <= units (Prim2SF (float_of_int n * 0x1.999999999999ap-4)) <= 2 ^ 1074
  /\ Z.abs (n * 2 ^ 1074
            - 10 * units (Prim2SF (float_of_int n * 0x1.999999999999ap-4)))
     <= 2 ^ 1024.
Proof.
  intros Hn. rewrite <- (Z2Nat.id n) by lia.
  assert (Hk : (Z.to_nat n < 10)%nat) by lia.
  set (k := Z.to_nat n) in *. clearbody k. clear Hn.
  do 10 (destruct k as [|k]; [vm_compute; repeat split; discriminate|]).
  lia.
Qed.

(** The powers of two as numerals, for [lia]. *)
Ltac numerals :=
  let u := eval vm_compute in (2 ^ 1074) in
  let e := eval vm_compute in (2 ^ 1024) in
  let d := eval vm_compute in (2 ^ 1027) in
  let f := eval vm_compute in (7205759403792794 * 2 ^ 1018) in
  let b := eval vm_compute in (2 ^ 1077) in
  let c := eval vm_compute in (2 ^ 62 * 2 ^ 1074) in
  change (2 ^ 62 * 2 ^ 1074) with c in *;
  change (7205759403792794 * 2 ^ 1018) with f in *;
  change (2 ^ 1074) with u in *;
  change (2 ^ 1024) with e in *;
  change (2 ^ 1027) with d in *;
  change (2 ^ 1077) with b in *.

(** One call of [Advance] on a clock short of the tenth frame. *)
Lemma Advance_step oob d mr B :
  finite (lastFrameTime mr) = true -> finite d = true ->
  0 <= currentFrame mr <= 9 ->
  0 <= units (Prim2SF d) ->
  0 <= B <= 2 ^ 1060 ->
  - B <= units (Prim2SF (lastFrameTime mr)) ->
  10 * units (Prim2SF (lastFrameTime mr)) <= 2 ^ 1074 + 2 ^ 1031 ->
  clockUnits mr + 10 * units (Prim2SF d) <= 10 * 2 ^ 1074 - 2 ^ 1040 ->
  0 <= framesAdvanced oob d mr
  /\ currentFrame mr + framesAdvanced oob d mr <= 9
  /\ currentFrame (Advance oob d mr) = currentFrame mr + framesAdvanced oob d mr
  /\ finite (lastFrameTime (Advance oob d mr)) = true
  /\ - (B + 3 * 2 ^ 1024) <= units (Prim2SF (lastFrameTime (Advance oob d mr)))
  /\ 10 * units (Prim2SF (lastFrameTime (Advance oob d mr))) <= 2 ^ 1074 + 2 ^ 1031
  /\ Z.abs (clockUnits (Advance oob d mr)
            - (clockUnits mr + 10 * units (Prim2SF d))) <= 40 * 2 ^ 1024.
Proof.
  intros Fa Fd Hc HD HB HA0 HA1 Hclk.
  unfold clockUnits in *. unfold Advance. cbn [lastFrameTime currentFrame].
  fold (framesAdvanced oob d mr).
  unfold framesAdvanced at 1 2 3 4. 
  set (t := (lastFrameTime mr + d)%float).
  set (q := (t / 0x1.999999999999ap-4)%float).
  set (n := int_of_float oob q).
  replace (framesAdvanced oob d mr) with n by reflexivity.
  set (A := units (Prim2SF (lastFrameTime mr))) in *.
  set (D := units (Prim2SF d)) in *.
  set (f := currentFrame mr) in *.
  assert (P1031 : 2 ^ 1031 = 128 * 2 ^ 1024)
    by (change 1031 with (7 + 1024); rewrite Z.pow_add_r by lia; reflexivity).
  assert (P1040 : 2 ^ 1040 = 65536 * 2 ^ 1024)
    by (change 1040 with (16 + 1024); rewrite Z.pow_add_r by lia; reflexivity).
  assert (P1060 : 2 ^ 1060 = 2 ^ 36 * 2 ^ 1024)
    by (change 1060 with (36 + 1024); rewrite Z.pow_add_r by lia; reflexivity).
  rewrite P1031, P1040, P1060 in *. clear P1031 P1040 P1060.
  assert (P36 : 2 ^ 36 = 68719476736) by reflexivity. rewrite P36 in *. clear P36.
  (* t = a + d *)
  destruct (add_bound (lastFrameTime mr) d Fa Fd) as [Ft Et];
    [fold A D; numerals; lia|].
  fold t A D in Ft, Et. set (T := units (Prim2SF t)) in *.
  (* q = t / 0.1 *)
  destruct (div_tenth_bound t Ft) as [Fq [Eq' [Qpos Qneg]]];
    [fold T; numerals; lia|].
  fold q T in Fq, Eq', Qpos, Qneg. set (Q := units (Prim2SF q)) in *.
  (* n = int(q) *)
  destruct (int_of_float_units oob q Fq) as [Nl [Nu [Npos Nneg]]];
    [fold Q; numerals; lia|].
  fold n Q in Nl, Nu, Npos, Nneg.
  assert (Hn : 0 <= n /\ f + n <= 9
               /\ ((0 <= T /\ n * 2 ^ 1074 <= 10 * T + 2 ^ 1027
                    /\ 10 * T < (n + 1) * (2 ^ 1074 + 2 ^ 1024) + 10 * 2 ^ 1027)
                   \/ (T < 0 /\ n = 0))).
  { numerals. destruct (Z.le_gt_cases 0 T) as [HT|HT].
    - specialize (Qpos HT). specialize (Npos Qpos).
      split; [lia|]. split; [lia|]. left. lia.
    - specialize (Qneg ltac:(lia)). specialize (Nneg Qneg).
      assert (n = 0) by lia. split; [lia|]. split; [lia|]. right. lia. }
  destruct Hn as [Hn0 [Hn9 Hcase]].
  rewrite wrap64_small by (unfold minInt, maxInt; lia).
  destruct (Z.ltb_spec 9 (f + n)) as [Hgt|_]; [lia|].
  destruct (tick_lengths n ltac:(lia)) as [Fp [Hp Ep]].
  set (p := (float_of_int n * 0x1.999999999999ap-4)%float) in *.
  set (P := units (Prim2SF p)) in *.
  destruct (sub_bound t p Ft Fp) as [Fs Es]; [fold T P; numerals; lia|].
  fold T P in Es. set (A' := units (Prim2SF (t - p))) in *.
  numerals.
  split; [exact Hn0|]. split; [exact Hn9|]. split; [reflexivity|].
  split; [exact Fs|]. 
  destruct Hcase as [[HT [Hnl Hnu]] | [HT En]].
  - repeat split; lia.
  - repeat split; lia.
Qed.


Lemma sumUnits_nonneg ds :
  Forall (fun d => finite d = true /\ 0 <= units (Prim2SF d)) ds ->
  0 <= sumUnits ds.
Proof.
  induction 1 as [|d r [_ Hd] _ IH]; cbn [sumUnits fold_right]; [lia|].
  fold (sumUnits r). lia.
Qed.

(** A run of [Advance] calls on a clock that stays short of the tenth
    frame. *)
Lemma AdvanceAll_run oob ds :
  forall mr,
    Forall (fun d => finite d = true /\ 0 <= units (Prim2SF d)) ds ->
    finite (lastFrameTime mr) = true ->
    0 <= currentFrame mr <= 9 ->
    3 * 2 ^ 1024 * Z.of_nat (length ds) <= 2 ^ 1060 ->
    - (2 ^ 1060 - 3 * 2 ^ 1024 * Z.of_nat (length ds))
      <= units (Prim2SF (lastFrameTime mr)) ->
    10 * units (Prim2SF (lastFrameTime mr)) <= 2 ^ 1074 + 2 ^ 1031 ->
    clockUnits mr + 10 * sumUnits ds + Z.of_nat (length ds) * (40 * 2 ^ 1024)
      <= 10 * 2 ^ 1074 - 2 ^ 1040 ->
    noReset oob ds mr = true
    /\ Z.abs (clockUnits (AdvanceAll oob ds mr) - (clockUnits mr + 10 * sumUnits ds))
       <= Z.of_nat (length ds) * (40 * 2 ^ 1024)
    /\ 0 <= currentFrame (AdvanceAll oob ds mr) <= 9
    /\ finite (lastFrameTime (AdvanceAll oob ds mr)) = true
    /\ - 2 ^ 1060 <= units (Prim2SF (lastFrameTime (AdvanceAll oob ds mr)))
    /\ 10 * units (Prim2SF (lastFrameTime (AdvanceAll oob ds mr)))
       <= 2 ^ 1074 + 2 ^ 1031.
Proof.
  assert (HE : 0 < 2 ^ 1024) by (apply Z.pow_pos_nonneg; lia).
  induction ds as [|d r IH]; intros mr Hds Fa Hc Hk HA0 HA1 Hclk.
  - cbn [AdvanceAll fold_left sumUnits fold_right length noReset] in *.
    change (Z.of_nat 0) with 0 in *. repeat split; try assumption; lia.
  - inversion Hds as [|d' r' [Fd Hd] Hr]; subst.
    pose proof (sumUnits_nonneg r Hr) as Hsum.
    cbn [sumUnits fold_right] in *. fold (sumUnits r) in *.
    cbn [length] in *. rewrite Nat2Z.inj_succ in *.
    set (k := Z.of_nat (length r)) in *.
    assert (Hk0 : 0 <= k) by (unfold k; lia).
    set (E := 2 ^ 1024) in *.
    assert (HkE : 0 <= k * E) by (apply Z.mul_nonneg_nonneg; lia).
    replace (3 * E * Z.succ k) with (3 * (k * E) + 3 * E) in * by ring.
    replace (Z.succ k * (40 * E)) with (40 * (k * E) + 40 * E) in * by ring.
    destruct (Advance_step oob d mr (2 ^ 1060 - (3 * (k * E) + 3 * E)) Fa Fd Hc Hd)
      as [Hn0 [Hn9 [Ef [Fa' [HA0' [HA1' Hstep]]]]]]; try (fold E; lia).
    fold E in HA0', Hstep.
    cbn [AdvanceAll fold_left noReset]. fold (AdvanceAll oob r (Advance oob d mr)).
    rewrite wrap64_small by (unfold minInt, maxInt; lia).
    destruct (Z.leb_spec (currentFrame mr + framesAdvanced oob d mr) 9) as [_|Hbad];
      [|lia].
    cbn [andb].
    destruct (IH (Advance oob d mr) Hr Fa') as [HnR [Hrun [Hf [Ffin [Hlo Hhi]]]]].
    + lia.
    + fold k E. lia.
    + fold k E. lia.
    + exact HA1'.
    + fold k E. lia.
    + fold k E in Hrun. repeat split; try assumption; lia.
Qed.


(** *** From units to seconds *)

Lemma SF2Q_units f :
  valid_binary f = true ->
  (SF2Q f * inject_Z (2 ^ 1074) == inject_Z (units f))%Q.
Proof.
  intros V. destruct f as [s|s| |s m e]; cbn [SF2Q units]; try (ring_simplify; reflexivity).
  apply valid_exponent in V.
  assert (E : (2 ^ e * inject_Z (2 ^ 1074) == inject_Z (2 ^ (e + 1074)))%Q).
  { rewrite !Zpower_Qpower by lia. rewrite Qpower_plus by discriminate. reflexivity. }
  assert (Ec : cond_Zopp s (Zpos m * 2 ^ (e + 1074))
               = cond_Zopp s (Zpos m) * 2 ^ (e + 1074)).
  { destruct s; cbn [cond_Zopp]; lia. }
  rewrite Ec, inject_Z_mult, <- E. ring.
Qed.

Lemma toQ_units f :
  (toQ f * inject_Z (2 ^ 1074) == inject_Z (units (Prim2SF f)))%Q.
Proof. apply SF2Q_units, Prim2SF_valid. Qed.

Lemma units_pos : (0 < inject_Z (2 ^ 1074))%Q.
Proof.
  change 0%Q with (inject_Z 0). rewrite <- Zlt_Qlt. apply Z.pow_pos_nonneg; lia.
Qed.


Lemma toQ_ge_units f z :
  (inject_Z z <= toQ f)%Q <-> z * 2 ^ 1074 <= units (Prim2SF f).
Proof.
  rewrite <- (Qmult_le_r _ _ _ units_pos), toQ_units, <- inject_Z_mult, <- Zle_Qle.
  reflexivity.
Qed.

Lemma sumQ_units ds :
  (sumQ (map toQ ds) * inject_Z (2 ^ 1074) == inject_Z (sumUnits ds))%Q.
Proof.
  induction ds as [|d r IH]; cbn [map sumQ sumUnits fold_right].
  - ring.
  - fold (sumQ (map toQ r)). fold (sumUnits r).
    rewrite inject_Z_plus, <- IH, <- toQ_units. ring.
Qed.

Lemma clock_units mr :
  (clock mr * inject_Z (10 * 2 ^ 1074) == inject_Z (clockUnits mr))%Q.
Proof.
  unfold clock, clockUnits.
  rewrite inject_Z_plus, !inject_Z_mult, <- toQ_units.
  change (inject_Z 10) with (10 # 1)%Q. field.
Qed.

Lemma scale_pos : (0 < inject_Z (10 * 2 ^ 1074))%Q.
Proof.
  change 0%Q with (inject_Z 0). rewrite <- Zlt_Qlt.
  pose proof (Z.pow_pos_nonneg 2 1074). lia.
Qed.

Lemma tolerance_units :
  (tolerance * inject_Z (10 * 2 ^ 1074) == inject_Z (40 * 2 ^ 1024))%Q.
Proof. vm_compute. reflexivity. Qed.

(** [Qabs (x - y) <= k * tolerance], read on the integers. *)
Lemma within_tolerance x y (X Y k : Z) :
  (x * inject_Z (10 * 2 ^ 1074) == inject_Z X)%Q ->
  (y * inject_Z (10 * 2 ^ 1074) == inject_Z Y)%Q ->
  Z.abs (X - Y) <= k * (40 * 2 ^ 1024) ->
  (Qabs (x - y) <= inject_Z k * tolerance)%Q.
Proof.
  intros Ex Ey H.
  assert (E1 : ((x - y) * inject_Z (10 * 2 ^ 1074) == inject_Z (X - Y))%Q).
  { unfold Z.sub. rewrite inject_Z_plus, inject_Z_opp, <- Ex, <- Ey. ring. }
  assert (E2 : (inject_Z k * tolerance * inject_Z (10 * 2 ^ 1074)
                == inject_Z (k * (40 * 2 ^ 1024)))%Q).
  { rewrite (inject_Z_mult k), <- tolerance_units. ring. }
  assert (E3 : (- (inject_Z k * tolerance) * inject_Z (10 * 2 ^ 1074)
                == inject_Z (- (k * (40 * 2 ^ 1024))))%Q).
  { rewrite inject_Z_opp, <- E2. ring. }
  apply Qabs_Qle_condition. split.
  - apply (Qmult_le_r _ _ _ scale_pos). rewrite E1, E3, <- Zle_Qle. lia.
  - apply (Qmult_le_r _ _ _ scale_pos). rewrite E1, E2, <- Zle_Qle. lia.
Qed.

Lemma elapsed_units mr ds :
  ((clock mr + sumQ (map toQ ds)) * inject_Z (10 * 2 ^ 1074)
   == inject_Z (clockUnits mr + 10 * sumUnits ds))%Q.
Proof.
  rewrite inject_Z_plus, (inject_Z_mult 10 (sumUnits ds)), <- clock_units, <- sumQ_units.
  rewrite (inject_Z_mult 10 (2 ^ 1074)). ring.
Qed.



Ltac powers :=
  let u := eval vm_compute in (2 ^ 1074) in
  let e := eval vm_compute in (2 ^ 1024) in
  let a := eval vm_compute in (2 ^ 1031) in
  let b := eval vm_compute in (2 ^ 1040) in
  let c := eval vm_compute in (2 ^ 1060) in
  let d := eval vm_compute in (2 ^ 32) in
  change (2 ^ 1074) with u in *;
  change (2 ^ 1024) with e in *;
  change (2 ^ 1031) with a in *;
  change (2 ^ 1040) with b in *;
  change (2 ^ 1060) with c in *;
  change (2 ^ 32) with d in *.

(** The clock stays short of a second, read on the integers. *)
Lemma short_of_a_second mr ds :
  (clock mr + sumQ (map toQ ds) <= 999 # 1000)%Q ->
  1000 * (clockUnits mr + 10 * sumUnits ds) <= 9990 * 2 ^ 1074.
Proof.
  intros H. apply (Qmult_le_r _ _ _ scale_pos) in H. rewrite elapsed_units in H.
  apply (Qmult_le_l _ _ (inject_Z 1000)) in H; [|reflexivity].
  rewrite (inject_Z_mult 10 (2 ^ 1074)) in H.
  setoid_replace (inject_Z 1000 * ((999 # 1000) * (inject_Z 10 * inject_Z (2 ^ 1074))))%Q
    with (inject_Z 9990 * inject_Z (2 ^ 1074))%Q in H
    by (change (inject_Z 1000) with (1000 # 1)%Q; change (inject_Z 10) with (10 # 1)%Q;
        change (inject_Z 9990) with (9990 # 1)%Q; field).
  rewrite <- !inject_Z_mult, <- Zle_Qle in H. exact H.
Qed.

(** C9 (up to rounding).  In float64, as the code computes: from a
    finite accumulator in [0, 1/10] and a frame index in [0, 9], for
    every sequence of at most 2^32 finite deltas that are not negative,
    with the clock time of the start plus their exact sum at most 0.999
    (so T is small enough): one call of [Advance] per delta never takes
    the frame index above 9, and leaves the clock within [tolerance] per
    call of the starting time plus the exact sum.  For a float64 [T]
    equal to that sum, the single call [Advance(T)] takes no reset
    either, ends within [tolerance] per call (one more) of the same clock
    time, at a frame index that differs by at most 1, and, when the
    frame indices are equal, with an accumulator that differs by at most
    that much. *)
Theorem C9_no_drift_up_to_rounding :
  forall oob ds mr,
    Forall (fun d => finite d = true /\ (0 <= toQ d)%Q) ds ->
    Z.of_nat (length ds) <= 2 ^ 32 ->
    finite (lastFrameTime mr) = true ->
    (0 <= toQ (lastFrameTime mr) <= 1 # 10)%Q ->
    0 <= currentFrame mr <= 9 ->
    (clock mr + sumQ (map toQ ds) <= 999 # 1000)%Q ->
    noReset oob ds mr = true
    /\ (Qabs (clock (AdvanceAll oob ds mr) - (clock mr + sumQ (map toQ ds)))
          <= inject_Z (Z.of_nat (length ds)) * tolerance)%Q
    /\ forall T,
         finite T = true -> (toQ T == sumQ (map toQ ds))%Q ->
         noReset oob [T] mr = true
         /\ (Qabs (clock (AdvanceAll oob ds mr) - clock (Advance oob T mr))
               <= inject_Z (Z.of_nat (length ds) + 1) * tolerance)%Q
         /\ Z.abs (currentFrame (AdvanceAll oob ds mr)
                   - currentFrame (Advance oob T mr)) <= 1
         /\ (currentFrame (AdvanceAll oob ds mr) = currentFrame (Advance oob T mr) ->
             (Qabs (toQ (lastFrameTime (AdvanceAll oob ds mr))
                    - toQ (lastFrameTime (Advance oob T mr)))
                <= inject_Z (Z.of_nat (length ds) + 1) * tolerance)%Q).
Proof.
  intros oob ds mr Hds Hlen Fa [Ha0 Ha1] Hc Hshort.
  (* the hypotheses, on the integers *)
  assert (Hds' : Forall (fun d => finite d = true /\ 0 <= units (Prim2SF d)) ds).
  { eapply Forall_impl; [|exact Hds]. cbv beta. intros d [Fd Hd]. split; [exact Fd|].
    change 0%Q with (inject_Z 0) in Hd. apply toQ_ge_units in Hd. lia. }
  pose proof (sumUnits_nonneg ds Hds') as Hs0.
  assert (Ha0' : 0 <= units (Prim2SF (lastFrameTime mr))).
  { change 0%Q with (inject_Z 0) in Ha0. apply toQ_ge_units in Ha0. lia. }
  assert (Ha1' : 10 * units (Prim2SF (lastFrameTime mr)) <= 2 ^ 1074).
  { apply (Qmult_le_r _ _ _ units_pos) in Ha1. rewrite toQ_units in Ha1.
    apply (Qmult_le_l _ _ (inject_Z 10)) in Ha1; [|reflexivity].
    setoid_replace (inject_Z 10 * ((1 # 10) * inject_Z (2 ^ 1074)))%Q
      with (inject_Z (2 ^ 1074)) in Ha1 by (change (inject_Z 10) with (10 # 1)%Q; field).
    rewrite <- inject_Z_mult, <- Zle_Qle in Ha1. exact Ha1. }
  pose proof (short_of_a_second mr ds Hshort) as Hshort'.
  set (k := Z.of_nat (length ds)) in *.
  assert (Hk : 0 <= k) by (unfold k; lia).
  destruct (AdvanceAll_run oob ds mr Hds' Fa Hc)
    as [HnR [Hrun [Hf [Ffin [Hlo Hhi]]]]]; fold k; try (powers; lia).
  fold k in Hrun.
  split; [exact HnR|]. split.
  - apply within_tolerance with (X := clockUnits (AdvanceAll oob ds mr))
                                (Y := clockUnits mr + 10 * sumUnits ds).
    + apply clock_units.
    + apply elapsed_units.
    + exact Hrun.
  - intros T FT ET.
    assert (EuT : units (Prim2SF T) = sumUnits ds).
    { apply inject_Z_injective. rewrite <- toQ_units, <- sumQ_units, ET. reflexivity. }
    assert (HT' : Forall (fun d => finite d = true /\ 0 <= units (Prim2SF d)) [T]).
    { constructor; [|constructor]. split; [exact FT | lia]. }
    destruct (AdvanceAll_run oob [T] mr HT' Fa Hc)
      as [HnT [Hone [HfT [FfinT [HloT HhiT]]]]];
      cbn [length sumUnits fold_right]; change (Z.of_nat 1) with 1;
      try (powers; lia).
    cbn [length sumUnits fold_right AdvanceAll fold_left] in *.
    change (Z.of_nat 1) with 1 in Hone.
    split; [exact HnT|].
    assert (Hclose : Z.abs (clockUnits (AdvanceAll oob ds mr)
                            - clockUnits (Advance oob T mr))
                     <= (k + 1) * (40 * 2 ^ 1024)) by lia.
    assert (Hclock : (Qabs (clock (AdvanceAll oob ds mr) - clock (Advance oob T mr))
                        <= inject_Z (k + 1) * tolerance)%Q).
    { apply within_tolerance with (X := clockUnits (AdvanceAll oob ds mr))
                                  (Y := clockUnits (Advance oob T mr)).
      - apply clock_units.
      - apply clock_units.
      - exact Hclose. }
    split; [exact Hclock|]. split.
    + unfold clockUnits in Hclose.
      set (A1 := units (Prim2SF (lastFrameTime (AdvanceAll oob ds mr)))) in *.
      set (A2 := units (Prim2SF (lastFrameTime (Advance oob T mr)))) in *.
      set (f1 := currentFrame (AdvanceAll oob ds mr)) in *.
      set (f2 := currentFrame (Advance oob T mr)) in *.
      clear - Hclose Hlo Hhi HloT HhiT Hlen Hk.
      powers. lia.
    + intros Ef. unfold clock in Hclock. rewrite Ef in Hclock.
      setoid_replace (toQ (lastFrameTime (AdvanceAll oob ds mr))
                      - toQ (lastFrameTime (Advance oob T mr)))%Q
        with (inject_Z (currentFrame (Advance oob T mr)) * (1 # 10)
              + toQ (lastFrameTime (AdvanceAll oob ds mr))
              - (inject_Z (currentFrame (Advance oob T mr)) * (1 # 10)
                 + toQ (lastFrameTime (Advance oob T mr))))%Q by ring.
      exact Hclock.
Qed.

Lemma C9_no_drift_up_to_rounding_witness :
  (Qabs (clock (AdvanceAll oob_amd64 [0.25%float; 0.25%float] (CreateMapRenderer Sample.engine))
         - clock (Advance oob_amd64 0.5%float (CreateMapRenderer Sample.engine)))
     <= inject_Z (Z.of_nat (length [0.25%float; 0.25%float]) + 1) * tolerance)%Q.
Proof.
  refine (proj1 (proj2 (proj2 (proj2
            (C9_no_drift_up_to_rounding oob_amd64 [0.25%float; 0.25%float]
               (CreateMapRenderer Sample.engine) _ _ _ _ _ _))
            0.5%float _ _))).
  - repeat constructor; vm_compute; discriminate.
  - vm_compute. discriminate.
  - reflexivity.
  - split; vm_compute; discriminate.
  - cbn. lia.
  - vm_compute. discriminate.
  - reflexivity.
  - vm_compute. reflexivity.
Defined.


(** C9 as stated fails in float64: [Advance(0.25)] twice ends at frame 4
    with accumulator 0.09999999999999998, [Advance(0.5)] at frame 5 with
    accumulator 0. *)
Lemma C9_no_drift_fails_in_float64 : ~ no_drift_in_float64.
Proof.
  intros H.
  specialize (H oob_amd64 [0.25%float; 0.25%float] (CreateMapRenderer Sample.engine)).
  assert (H1 : forallb (fun d => leb zero d) [0.25%float; 0.25%float] = true)
    by (vm_compute; reflexivity).
  assert (H2 : noReset oob_amd64 [0.25%float; 0.25%float]
                 (CreateMapRenderer Sample.engine) = true)
    by (vm_compute; reflexivity).
  assert (H3 : noReset oob_amd64 [sumFloat [0.25%float; 0.25%float]]
                 (CreateMapRenderer Sample.engine) = true)
    by (vm_compute; reflexivity).
  specialize (H H1 H2 H3).
  apply (f_equal currentFrame) in H. vm_compute in H. discriminate H.
Qed.

(** * Further properties of renderer.go *)

(** ** The passes and the frame *)

(** X1 (pass 3).  [renderPass3] visits the grid in row-major order and,
    on each visible tile, between the push and the pop of the tile's
    world offset, runs the wall draw on exactly the walls whose type is
    [Roof], in their stored order, whatever their hidden flag and prop1;
    it always returns and leaves the viewport as it found it. *)
Theorem X1_pass3_draws_the_roofs :
  forall h mr v pre,
    renderPass3 h mr (entry v pre)
    = Some (tt, entry v (pre ++ pass3Events h mr v None)).
Proof.
  intros h mr v pre. rewrite renderPass3_run. reflexivity.
Qed.

(** X2 (order of the passes).  The calls of [Render] are those of pass
    1 over the whole grid, then those of the debug overlay over the
    whole grid, then those of pass 2, then those of pass 3; [Render]
    panics exactly when the overlay does, and then returns nothing. *)
Theorem X2_Render_runs_the_passes_in_order :
  forall h mr v pre,
    Render h mr (entry v pre)
    = match overlayEvents h mr v None with
      | Some overlay =>
          Some (tt, entry v (pre ++ pass1Events h mr v None
                                 ++ overlay
                                 ++ pass2Events h (int_of_float (oob h)) mr v None
                                 ++ pass3Events h mr v None))
      | None => None
      end.
Proof.
  intros h mr v pre. rewrite Render_run. cbn [viewport cur_key entry].
  unfold frameEvents.
  destruct (overlayEvents h mr v None); reflexivity.
Qed.

(** X3 (debug off).  With a debug level of 0 or less [Render] makes the
    calls of the three passes and nothing between pass 1 and pass 2; it
    does not read the walk mesh and cannot panic, whatever the mesh. *)
Theorem X3_Render_without_overlay :
  forall h mr v pre,
    debugVisLevel mr <= 0 ->
    Render h mr (entry v pre)
    = Some (tt, entry v (pre ++ pass1Events h mr v None
                             ++ pass2Events h (int_of_float (oob h)) mr v None
                             ++ pass3Events h mr v None)).
Proof.
  intros h mr v pre Hl. rewrite Render_run. cbn [viewport cur_key entry].
  unfold frameEvents, overlayEvents.
  destruct (Z.ltb_spec 0 (debugVisLevel mr)); [lia|]. reflexivity.
Qed.

Lemma X3_Render_without_overlay_witness :
  Render Sample.host (mkRenderer Sample.roofEngine (-1) zero 0) Sample.start
  = Some (tt, entry (mkViewport [])
                ([] ++ pass1Events Sample.host (mkRenderer Sample.roofEngine (-1) zero 0)
                         (mkViewport []) None
                 ++ pass2Events Sample.host (int_of_float (oob Sample.host))
                      (mkRenderer Sample.roofEngine (-1) zero 0) (mkViewport []) None
                 ++ pass3Events Sample.host (mkRenderer Sample.roofEngine (-1) zero 0)
                      (mkViewport []) None)).
Proof.
  apply (X3_Render_without_overlay Sample.host
           (mkRenderer Sample.roofEngine (-1) zero 0) (mkViewport []) []).
  vm_compute. discriminate.
Defined.

Lemma flat_map_all_nil {A B} (f : A -> list B) (l : list A) :
  (forall x, In x l -> f x = []) -> flat_map f l = [].
Proof.
  induction l as [|x r IH]; intros H; simpl; [reflexivity|].
  rewrite (H x (or_introl eq_refl)), IH; auto.
  intros y Hy. apply H. right. exact Hy.
Qed.

Lemma flatMapOpt_all_nil {A B} (f : A -> option (list B)) (l : list A) :
  (forall x, In x l -> f x = Some []) -> flatMapOpt f l = Some [].
Proof.
  induction l as [|x r IH]; intros H; simpl; [reflexivity|].
  rewrite (H x (or_introl eq_refl)), IH; auto.
  intros y Hy. apply H. right. exact Hy.
Qed.

Lemma sweepBlocks_dark h mr v k inner :
  (forall x y, In (x, y) (sweep (mapEngine mr)) ->
               IsTileVisible h v (float_of_int x) (float_of_int y) = false) ->
  sweepBlocks h mr v k inner = [].
Proof.
  intros Hd. unfold sweepBlocks. apply flat_map_all_nil.
  intros [x y] Hin. unfold visibleBlock. rewrite (Hd x y Hin). reflexivity.
Qed.

(** X4 (nothing to show).  When [IsTileVisible] answers false for every
    tile of the grid (in particular when the grid is empty), [Render]
    returns without a single call on the viewport, the target or the
    log, at every debug level and whatever the walk mesh. *)
Theorem X4_Render_nothing_visible :
  forall h mr v pre,
    (forall x y, In (x, y) (sweep (mapEngine mr)) ->
                 IsTileVisible h v (float_of_int x) (float_of_int y) = false) ->
    Render h mr (entry v pre) = Some (tt, entry v pre).
Proof.
  intros h mr v pre Hd. rewrite Render_run. cbn [viewport cur_key entry].
  unfold frameEvents, overlayEvents, pass1Events, pass2Events, pass3Events.
  rewrite !(sweepBlocks_dark h mr v None _ Hd).
  assert (Ho : debugEvents h mr (debugVisLevel mr) v None = Some []).
  { unfold debugEvents, sweepEvents. apply flatMapOpt_all_nil.
    intros [x y] Hin. unfold visibleTile. rewrite (Hd x y Hin). reflexivity. }
  rewrite Ho.
  assert (E : (if 0 <? debugVisLevel mr then Some [] else Some [])
              = Some (@nil Event)) by (destruct (0 <? debugVisLevel mr); reflexivity).
  rewrite E. unfold outcome, extend, entry.
  cbn [app viewport calls cur_tile cur_key]. rewrite app_nil_r. reflexivity.
Qed.

Lemma X4_Render_nothing_visible_witness :
  Render (darkHost Sample.host) (Sample.renderer 2) Sample.start
  = Some (tt, Sample.start).
Proof.
  apply (X4_Render_nothing_visible (darkHost Sample.host) (Sample.renderer 2)
           (mkViewport []) []).
  intros x y _. reflexivity.
Defined.

(** X5 (a frame can be repeated).  [Render] leaves behind a state from
    which a second [Render] makes exactly the same calls again: nothing
    of the first frame leaks into the next through the viewport. *)
Theorem X5_Render_twice_repeats_the_calls :
  forall h mr v pre,
    match Render h mr (entry v pre) with
    | Some (_, s1) =>
        exists evs,
          calls s1 = pre ++ evs
          /\ Render h mr s1 = Some (tt, entry v (pre ++ evs ++ evs))
    | None => 1 < debugVisLevel mr /\ meshCovers (mapEngine mr) = false
    end.
Proof.
  intros h mr v pre.
  destruct (Render_cases h mr v pre) as [[evs [E ->]] | [-> Hp]]; [|exact Hp].
  exists evs. split; [reflexivity|].
  rewrite Render_run. cbn [viewport cur_key entry]. rewrite E.
  cbn [outcome extend entry viewport calls cur_tile cur_key].
  rewrite app_assoc. reflexivity.
Qed.

(** ** The debug overlay *)

(** X6 (debug level 1).  At a debug level of 1 or less [renderTileDebug]
    draws the two edges and the coordinate label of the tile and
    nothing else: no sub-tile grid, no wall label, no walkability
    marker; the walk mesh is not read, so the call cannot panic. *)
Theorem X6_renderTileDebug_outline_only :
  forall h mr ax ay level s,
    level <= 1 ->
    renderTileDebug h mr ax ay level s
    = Some (tt, extend s (stamp (cur_tile s) (cur_key s)
                            (debugOutline h (viewport s) ax ay ++ [TPop]))).
Proof.
  intros h mr ax ay level s Hl. rewrite renderTileDebug_run.
  unfold debugCalls. destruct (Z.ltb_spec 1 level); [lia|]. reflexivity.
Qed.

Lemma X6_renderTileDebug_outline_only_witness :
  renderTileDebug Sample.host (mkRenderer Sample.roofEngine 1 zero 0) 0 0 1 Sample.start
  = Some (tt, extend Sample.start
                (stamp (cur_tile Sample.start) (cur_key Sample.start)
                   (debugOutline Sample.host (viewport Sample.start) 0 0 ++ [TPop]))).
Proof.
  apply (X6_renderTileDebug_outline_only Sample.host
           (mkRenderer Sample.roofEngine 1 zero 0) 0 0 1 Sample.start).
  vm_compute. discriminate.
Defined.

Lemma upTo_In n i : 0 <= i < n -> In i (upTo n).
Proof.
  intros H. unfold upTo, fromTo. apply in_map_iff.
  exists (Z.to_nat i). split; [lia|]. apply in_seq. lia.
Qed.

Lemma sweep_In e x y :
  0 <= x < Width e -> 0 <= y < Height e -> In (x, y) (sweep e).
Proof.
  intros Hx Hy. unfold sweep. apply in_flat_map.
  exists y. split; [apply upTo_In, Hy|].
  apply in_map_iff. exists x. split; [reflexivity | apply upTo_In, Hx].
Qed.

Lemma flatMapOpt_None_iff {A B} (f : A -> option (list B)) (l : list A) :
  flatMapOpt f l = None <-> exists x, In x l /\ f x = None.
Proof.
  induction l as [|x r IH]; simpl.
  - split; [discriminate | intros [x [[] _]]].
  - destruct (f x) as [a|] eqn:Ex.
    + destruct (flatMapOpt f r) as [b|] eqn:Er.
      * split; [discriminate|]. intros [y [[<- | Hy] Ey]]; [congruence|].
        assert (Hn : Some b = None) by (apply IH; exists y; split; assumption).
        discriminate Hn.
      * split; [|reflexivity]. intros _.
        destruct (proj1 IH eq_refl) as [y [Hy Ey]].
        exists y. split; [right; exact Hy | exact Ey].
    + split; [|reflexivity]. intros _. exists x. split; [left; reflexivity | exact Ex].
Qed.

Lemma meshAt_None mr i :
  meshAt mr i = None
  <-> i < 0 \/ Z.of_nat (length (WalkMesh (mapEngine mr))) <= i.
Proof.
  unfold meshAt. destruct (Z.ltb_spec i 0) as [Hi|Hi].
  - split; [intros _; left; exact Hi | reflexivity].
  - rewrite nth_error_None. split; [intros H; right; lia | intros [H|H]; lia].
Qed.

Section OverlayPanics.

Variable h : Host.

Lemma debugCalls_None mr level v ax ay :
  debugCalls h mr level v ax ay = None
  <-> 1 < level
      /\ exists yy xx, 0 <= yy < 5 /\ 0 <= xx < 5
                       /\ meshAt mr (walkIndex mr ax ay xx yy) = None.
Proof.
  unfold debugCalls, appOpt.
  destruct (Z.ltb_spec 1 level) as [Hl|Hl].
  - unfold debugDetail, appOpt.
    destruct (flatMapOpt (fun yy => flatMapOpt (walkMarker mr ax ay yy) (upTo 5)) (upTo 5))
      as [marks|] eqn:E.
    + split; [discriminate|]. intros [_ [yy [xx [Hyy [Hxx Hm]]]]].
      assert (En : flatMapOpt (fun yy => flatMapOpt (walkMarker mr ax ay yy) (upTo 5))
                     (upTo 5) = None).
      { apply flatMapOpt_None_iff. exists yy. split; [apply upTo_In, Hyy|].
        apply flatMapOpt_None_iff. exists xx. split; [apply upTo_In, Hxx|].
        unfold walkMarker. rewrite Hm. reflexivity. }
      congruence.
    + split; [|reflexivity]. intros _. split; [exact Hl|].
      apply flatMapOpt_None_iff in E. destruct E as [yy [Hyy E]].
      apply flatMapOpt_None_iff in E. destruct E as [xx [Hxx E]].
      exists yy, xx.
      split; [apply In_upTo, Hyy|]. split; [apply In_upTo, Hxx|].
      unfold walkMarker in E.
      destruct (meshAt mr (walkIndex mr ax ay xx yy)) as [[|]|];
        [discriminate | discriminate | reflexivity].
  - split; [discriminate | intros [H _]; lia].
Qed.

Lemma overlayEvents_None mr v k :
  overlayEvents h mr v k = None
  <-> 1 < debugVisLevel mr
      /\ exists x y yy xx,
           In (x, y) (sweep (mapEngine mr))
           /\ IsTileVisible h v (float_of_int x) (float_of_int y) = true
           /\ 0 <= yy < 5 /\ 0 <= xx < 5
           /\ meshAt mr (walkIndex mr x y xx yy) = None.
Proof.
  unfold overlayEvents. split.
  - destruct (0 <? debugVisLevel mr); [|discriminate].
    unfold debugEvents, sweepEvents. intros E.
    apply flatMapOpt_None_iff in E. destruct E as [[x y] [Hin E]].
    unfold visibleTile in E.
    destruct (IsTileVisible h v (float_of_int x) (float_of_int y)) eqn:Hvis;
      [|discriminate].
    destruct (debugCalls h mr (debugVisLevel mr)
                (pushOffset (WorldToOrtho h (float_of_int x) (float_of_int y)) v) x y)
      as [cs|] eqn:Ec; [discriminate|].
    apply debugCalls_None in Ec. destruct Ec as [Hl [yy [xx [Hyy [Hxx Hm]]]]].
    split; [exact Hl|]. exists x, y, yy, xx. auto.
  - intros [Hl [x [y [yy [xx [Hin [Hvis [Hyy [Hxx Hm]]]]]]]]].
    destruct (Z.ltb_spec 0 (debugVisLevel mr)); [|lia].
    unfold debugEvents, sweepEvents. apply flatMapOpt_None_iff.
    exists (x, y). split; [exact Hin|].
    unfold visibleTile. rewrite Hvis.
    assert (Ec : debugCalls h mr (debugVisLevel mr)
                   (pushOffset (WorldToOrtho h (float_of_int x) (float_of_int y)) v) x y
                 = None).
    { apply debugCalls_None. split; [exact Hl|]. exists yy, xx. auto. }
    rewrite Ec. reflexivity.
Qed.

End OverlayPanics.

(** X7 (when [Render] panics).  [Render] panics if and only if the debug
    level is 2 or more and some visible tile of the grid has one of its
    25 sub-cells whose walk-mesh index, as the overlay computes it, is
    negative or not below the length of the walk mesh.  Nothing else in
    a frame can fail. *)
Theorem X7_Render_panics_iff :
  forall h mr v pre,
    Render h mr (entry v pre) = None
    <-> 1 < debugVisLevel mr
        /\ exists x y yy xx,
             In (x, y) (sweep (mapEngine mr))
             /\ IsTileVisible h v (float_of_int x) (float_of_int y) = true
             /\ 0 <= yy < 5 /\ 0 <= xx < 5
             /\ (walkIndex mr x y xx yy < 0
                 \/ Z.of_nat (length (WalkMesh (mapEngine mr)))
                    <= walkIndex mr x y xx yy).
Proof.
  intros h mr v pre. rewrite Render_run. cbn [viewport cur_key entry].
  unfold frameEvents. split.
  - intros H.
    assert (Eo : overlayEvents h mr v None = None)
      by (destruct (overlayEvents h mr v None); [discriminate H | reflexivity]).
    apply overlayEvents_None in Eo.
    destruct Eo as [Hl [x [y [yy [xx [Hin [Hvis [Hyy [Hxx Hm]]]]]]]]].
    split; [exact Hl|]. exists x, y, yy, xx.
    apply meshAt_None in Hm. auto.
  - intros [Hl [x [y [yy [xx [Hin [Hvis [Hyy [Hxx Hm]]]]]]]]].
    assert (Eo : overlayEvents h mr v None = None).
    { apply overlayEvents_None. split; [exact Hl|]. exists x, y, yy, xx.
      apply meshAt_None in Hm. auto. }
    rewrite Eo. reflexivity.
Qed.

Lemma walkIndex_in_grid mr ax ay xx yy :
  0 <= ax < Width (mapEngine mr) -> 0 <= ay < Height (mapEngine mr) ->
  0 <= xx < 5 -> 0 <= yy < 5 ->
  25 * Width (mapEngine mr) * Height (mapEngine mr) <= maxInt ->
  walkIndex mr ax ay xx yy = (5 * ay + yy) * (5 * Width (mapEngine mr)) + (5 * ax + xx)
  /\ 0 <= 5 * ax + xx < 5 * Width (mapEngine mr)
  /\ 0 <= walkIndex mr ax ay xx yy < 25 * Width (mapEngine mr) * Height (mapEngine mr).
Proof.
  intros Hx Hy Hxx Hyy Hmax. unfold walkIndex.
  set (W := Width (mapEngine mr)) in *. set (H := Height (mapEngine mr)) in *.
  assert (Hr : 0 <= (yy + ay * 5) * W * 5 + xx + ax * 5 < 25 * W * H) by nia.
  rewrite wrap64_small by (unfold minInt; lia).
  split; [ring|]. split; lia.
Qed.

(** X8 (the walk-mesh index).  For a tile of the grid and one of its 25
    sub-cells, on a grid small enough for int (25 W H at most the
    largest int), the index the overlay reads is the row-major position
    of the sub-cell (5 ax + xx, 5 ay + yy) in a mesh that is 5 W
    sub-cells wide; it lies in [0, 25 W H). *)
Theorem X8_walkIndex_is_row_major :
  forall mr ax ay xx yy,
    0 <= ax < Width (mapEngine mr) -> 0 <= ay < Height (mapEngine mr) ->
    0 <= xx < 5 -> 0 <= yy < 5 ->
    25 * Width (mapEngine mr) * Height (mapEngine mr) <= maxInt ->
    walkIndex mr ax ay xx yy
    = (5 * ay + yy) * (5 * Width (mapEngine mr)) + (5 * ax + xx)
    /\ 0 <= walkIndex mr ax ay xx yy
       < 25 * Width (mapEngine mr) * Height (mapEngine mr).
Proof.
  intros mr ax ay xx yy Hx Hy Hxx Hyy Hmax.
  destruct (walkIndex_in_grid mr ax ay xx yy Hx Hy Hxx Hyy Hmax) as [E [_ Hr]].
  split; assumption.
Qed.

Lemma X8_walkIndex_is_row_major_witness :
  walkIndex (Sample.renderer 2) 1 0 2 1
  = (5 * 0 + 1) * (5 * Width (mapEngine (Sample.renderer 2))) + (5 * 1 + 2)
  /\ 0 <= walkIndex (Sample.renderer 2) 1 0 2 1
     < 25 * Width (mapEngine (Sample.renderer 2))
       * Height (mapEngine (Sample.renderer 2)).
Proof.
  apply (X8_walkIndex_is_row_major (Sample.renderer 2) 1 0 2 1);
    vm_compute; try split; congruence.
Defined.

(** X9 (no two sub-cells share a mesh cell).  On such a grid, two
    sub-cells of tiles of the grid that the overlay reads at the same
    walk-mesh index are the same sub-cell of the same tile. *)
Theorem X9_walkIndex_injective :
  forall mr ax ay xx yy ax' ay' xx' yy',
    25 * Width (mapEngine mr) * Height (mapEngine mr) <= maxInt ->
    0 <= ax < Width (mapEngine mr) -> 0 <= ay < Height (mapEngine mr) ->
    0 <= xx < 5 -> 0 <= yy < 5 ->
    0 <= ax' < Width (mapEngine mr) -> 0 <= ay' < Height (mapEngine mr) ->
    0 <= xx' < 5 -> 0 <= yy' < 5 ->
    walkIndex mr ax ay xx yy = walkIndex mr ax' ay' xx' yy' ->
    ax = ax' /\ ay = ay' /\ xx = xx' /\ yy = yy'.
Proof.
  intros mr ax ay xx yy ax' ay' xx' yy' Hmax Hx Hy Hxx Hyy Hx' Hy' Hxx' Hyy' E.
  destruct (walkIndex_in_grid mr ax ay xx yy Hx Hy Hxx Hyy Hmax) as [E1 [Hc1 _]].
  destruct (walkIndex_in_grid mr ax' ay' xx' yy' Hx' Hy' Hxx' Hyy' Hmax) as [E2 [Hc2 _]].
  rewrite E1, E2 in E.
  assert (Hq : 5 * ay + yy = 5 * ay' + yy' /\ 5 * ax + xx = 5 * ax' + xx').
  { apply (Z.div_mod_unique (5 * Width (mapEngine mr))); [left; lia | left; lia|].
    lia. }
  lia.
Qed.

Lemma X9_walkIndex_injective_witness :
  1 = 1 /\ 0 = 0 /\ 2 = 2 /\ 1 = 1.
Proof.
  apply (X9_walkIndex_injective (Sample.renderer 2) 1 0 2 1 1 0 2 1);
    vm_compute; try split; congruence.
Defined.

(** Counting calls of one kind. *)
Lemma count_flatMapOpt {A B} (p : B -> bool) (g : A -> nat)
  (f : A -> option (list B)) (l : list A) r :
  (forall x r', In x l -> f x = Some r' -> length (filter p r') = g x) ->
  flatMapOpt f l = Some r ->
  length (filter p r) = list_sum (map g l).
Proof.
  revert r. induction l as [|x t IH]; intros r H E; simpl in E.
  - injection E as <-. reflexivity.
  - destruct (f x) as [a|] eqn:Ex; [|discriminate].
    destruct (flatMapOpt f t) as [b|] eqn:Et; [|discriminate].
    injection E as <-.
    rewrite filter_app, length_app.
    change (list_sum (map g (x :: t))) with (g x + list_sum (map g t))%nat.
    rewrite (H x a (or_introl eq_refl) Ex). f_equal.
    apply IH; [|reflexivity]. intros y r' Hy. apply H. right. exact Hy.
Qed.

Lemma count_flat_map {A B} (p : B -> bool) (f : A -> list B) (l : list A) :
  length (filter p (flat_map f l))
  = list_sum (map (fun x => length (filter p (f x))) l).
Proof.
  induction l as [|x t IH]; simpl; [reflexivity|].
  rewrite filter_app, length_app, IH. reflexivity.
Qed.

Lemma count_map {A B} (p : B -> bool) (f : A -> B) (l : list A) :
  length (filter p (map f l)) = length (filter (fun x => p (f x)) l).
Proof.
  induction l as [|x t IH]; simpl; [reflexivity|].
  destruct (p (f x)); simpl; rewrite IH; reflexivity.
Qed.

Lemma count_as_sum {A} (p : A -> bool) (l : list A) :
  length (filter p l) = list_sum (map (fun x => if p x then 1%nat else 0%nat) l).
Proof.
  induction l as [|x t IH]; simpl; [reflexivity|].
  destruct (p x); simpl; rewrite IH; reflexivity.
Qed.

Lemma list_sum_ext {A} (f g : A -> nat) (l : list A) :
  (forall x, In x l -> f x = g x) -> list_sum (map f l) = list_sum (map g l).
Proof.
  induction l as [|x t IH]; intros H; simpl; [reflexivity|].
  rewrite (H x (or_introl eq_refl)), IH; auto.
  intros y Hy. apply H. right. exact Hy.
Qed.

Lemma list_sum_zero {A} (l : list A) : list_sum (map (fun _ => 0%nat) l) = 0%nat.
Proof. induction l; simpl; auto. Qed.

Section OverlayCounts.

Variable h : Host.

Lemma walkMarker_rects mr ax ay yy xx r :
  walkMarker mr ax ay yy xx = Some r ->
  length (filter isDrawRect r)
  = if blocked mr ax ay (yy, xx) then 1%nat else 0%nat.
Proof.
  unfold walkMarker, blocked. cbn [fst snd].
  destruct (meshAt mr (walkIndex mr ax ay xx yy)) as [[|]|];
    intros E; try discriminate; injection E as <-; reflexivity.
Qed.

Lemma walkMarkers_rects mr ax ay marks :
  flatMapOpt (fun yy => flatMapOpt (walkMarker mr ax ay yy) (upTo 5)) (upTo 5)
  = Some marks ->
  length (filter isDrawRect marks) = length (filter (blocked mr ax ay) subCells).
Proof.
  intros E. unfold subCells. rewrite count_flat_map.
  eapply count_flatMapOpt; [|exact E].
  intros yy r Hyy Er. cbv beta in Er |- *.
  rewrite (count_map (blocked mr ax ay) (fun xx => (yy, xx)) (upTo 5)),
    (count_as_sum (fun xx => blocked mr ax ay (yy, xx)) (upTo 5)).
  eapply count_flatMapOpt; [|exact Er].
  intros xx r' Hxx Er'. cbv beta.
  apply (walkMarker_rects mr ax ay yy xx r' Er').
Qed.

Lemma specialLabels_no_rect (walls : list (Z * WallRecord)) :
  length (filter isDrawRect (flat_map (specialLabel h) walls)) = 0%nat.
Proof.
  rewrite count_flat_map, <- (list_sum_zero walls).
  apply list_sum_ext. intros [i w] _. unfold specialLabel.
  destruct (Special h (w_Type w)); reflexivity.
Qed.

Lemma debugCalls_rects mr level v ax ay cs :
  1 < level ->
  debugCalls h mr level v ax ay = Some cs ->
  length (filter isDrawRect cs) = length (filter (blocked mr ax ay) subCells).
Proof.
  intros Hl. unfold debugCalls, debugOutline, debugDetail.
  destruct (WorldToScreen h v (float_of_int ax) (float_of_int ay)) as [x1 y1].
  destruct (WorldToScreen h v (float_of_int (wrap64 (ax + 1))) (float_of_int ay)) as [x2 y2].
  destruct (WorldToScreen h v (float_of_int ax) (float_of_int (wrap64 (ay + 1)))) as [x3 y3].
  destruct (Z.ltb_spec 1 level); [|lia].
  destruct (flatMapOpt (fun yy => flatMapOpt (walkMarker mr ax ay yy) (upTo 5)) (upTo 5))
    as [marks|] eqn:E; [|discriminate].
  cbn [appOpt]. intros Ec.
  assert (Hcs : cs = [TPushTranslation x1 y1;
                      TDrawLine (wrap64 (x2 - x1)) (wrap64 (y2 - y1)) tileColor;
                      TDrawLine (wrap64 (x3 - x1)) (wrap64 (y3 - y1)) tileColor;
                      TPushTranslation (-10) 10; TDrawText "%v, %v"%string [ax; ay]; TPop]
                     ++ ((flat_map gridLines (fromTo 1 4)
                          ++ flat_map (specialLabel h)
                               (indexed (Walls (TileAt (mapEngine mr) ax ay))))
                         ++ marks) ++ [TPop]) by congruence.
  subst cs. clear Ec.
  rewrite !filter_app, !length_app, specialLabels_no_rect,
    (walkMarkers_rects mr ax ay marks E).
  assert (Hg : length (filter isDrawRect (flat_map gridLines (fromTo 1 4))) = 0%nat)
    by reflexivity.
  rewrite Hg. cbn [filter isDrawRect length]. lia.
Qed.

End OverlayCounts.

(** X10 (walkability markers).  At a debug level of 2 or more, a call of
    [renderTileDebug] that returns has drawn exactly one rectangle for
    each of the tile's 25 sub-cells that the walk mesh marks as not
    walkable, and no other rectangle. *)
Theorem X10_renderTileDebug_one_rect_per_blocked_subcell :
  forall h mr ax ay level s s',
    1 < level ->
    renderTileDebug h mr ax ay level s = Some (tt, s') ->
    exists evs,
      calls s' = calls s ++ evs
      /\ length (filter (fun e => isDrawRect (ev_call e)) evs)
         = length (filter (blocked mr ax ay) subCells).
Proof.
  intros h mr ax ay level s s' Hl. rewrite renderTileDebug_run.
  destruct (debugCalls h mr level (viewport s) ax ay) as [cs|] eqn:Ec;
    [|discriminate].
  cbn [option_map outcome]. intros E. injection E as <-.
  exists (stamp (cur_tile s) (cur_key s) cs). split; [reflexivity|].
  unfold stamp.
  rewrite (count_map (fun e => isDrawRect (ev_call e)) (mkEvent (cur_tile s) (cur_key s))).
  cbn [ev_call].
  rewrite <- (debugCalls_rects h mr level (viewport s) ax ay cs Hl Ec).
  reflexivity.
Qed.

Lemma X10_one_rect_per_blocked_subcell_witness :
  exists evs,
    calls (extend Sample.start
             (stamp None None
                (match debugCalls Sample.host (Sample.renderer 2) 2
                         (viewport Sample.start) 0 0 with
                 | Some cs => cs
                 | None => []
                 end)))
    = calls Sample.start ++ evs
    /\ length (filter (fun e => isDrawRect (ev_call e)) evs)
       = length (filter (blocked (Sample.renderer 2) 0 0) subCells).
Proof.
  apply (X10_renderTileDebug_one_rect_per_blocked_subcell Sample.host
           (Sample.renderer 2) 0 0 2 Sample.start).
  - vm_compute. reflexivity.
  - vm_compute. reflexivity.
Defined.

(** ** How deep the stacks get *)

Section Nesting.

Variable delta : Call -> Z.

Lemma net_app a b : net delta (a ++ b) = net delta a + net delta b.
Proof.
  unfold net. induction a as [|e r IH]; simpl; [reflexivity|].
  rewrite IH. ring.
Qed.

Lemma rise_nonneg evs : 0 <= rise delta evs.
Proof. destruct evs; simpl; lia. Qed.

Lemma rise_app a b :
  rise delta (a ++ b) = Z.max (rise delta a) (net delta a + rise delta b).
Proof.
  induction a as [|e r IH]; simpl.
  - pose proof (rise_nonneg b). unfold net. simpl. lia.
  - rewrite IH. unfold net. simpl. fold (net delta r). lia.
Qed.

Lemma nested_nil n : 0 <= n -> nested delta n [].
Proof. intros H. split; [reflexivity | exact H]. Qed.

Lemma nested_app n a b :
  nested delta n a -> nested delta n b -> nested delta n (a ++ b).
Proof.
  intros [Na Ra] [Nb Rb]. split.
  - rewrite net_app. lia.
  - rewrite rise_app. lia.
Qed.

Lemma nested_mono n m evs : n <= m -> nested delta n evs -> nested delta m evs.
Proof. intros H [N R]. split; [exact N | lia]. Qed.

Lemma nested_flat_map {A} n (f : A -> list Event) (l : list A) :
  0 <= n -> (forall x, In x l -> nested delta n (f x)) ->
  nested delta n (flat_map f l).
Proof.
  intros Hn. induction l as [|x r IH]; intros H; simpl.
  - apply nested_nil, Hn.
  - apply nested_app; [apply H; left; reflexivity|].
    apply IH. intros y Hy. apply H. right. exact Hy.
Qed.

Lemma nested_flatMapOpt {A} n (f : A -> option (list Event)) (l : list A) evs :
  0 <= n ->
  (forall x r, In x l -> f x = Some r -> nested delta n r) ->
  flatMapOpt f l = Some evs -> nested delta n evs.
Proof.
  intros Hn. revert evs. induction l as [|x r IH]; intros evs H E; simpl in E.
  - injection E as <-. apply nested_nil, Hn.
  - destruct (f x) as [a|] eqn:Ex; [|discriminate].
    destruct (flatMapOpt f r) as [b|] eqn:Er; [|discriminate].
    injection E as <-. apply nested_app.
    + apply (H x a); [left; reflexivity | exact Ex].
    + apply IH; [|reflexivity]. intros y r' Hy. apply H. right. exact Hy.
Qed.

(** One level deeper inside a push and its pop. *)
Lemma nested_bracket n e1 e2 evs :
  delta (ev_call e1) = 1 -> delta (ev_call e2) = -1 ->
  nested delta n evs -> nested delta (n + 1) (e1 :: evs ++ [e2]).
Proof.
  intros H1 H2 [N R]. pose proof (rise_nonneg evs). split.
  - change (e1 :: evs ++ [e2]) with ([e1] ++ evs ++ [e2]).
    rewrite !net_app. unfold net at 1 3. simpl. lia.
  - change (rise delta (e1 :: evs ++ [e2]))
      with (Z.max 0 (delta (ev_call e1) + rise delta (evs ++ [e2]))).
    rewrite rise_app. simpl. lia.
Qed.

(** No deeper between two calls that do not move the stack. *)
Lemma nested_between n e1 e2 evs :
  delta (ev_call e1) = 0 -> delta (ev_call e2) = 0 ->
  nested delta n evs -> nested delta n (e1 :: evs ++ [e2]).
Proof.
  intros H1 H2 [N R]. pose proof (rise_nonneg evs). split.
  - change (e1 :: evs ++ [e2]) with ([e1] ++ evs ++ [e2]).
    rewrite !net_app. unfold net at 1 3. simpl. lia.
  - change (rise delta (e1 :: evs ++ [e2]))
      with (Z.max 0 (delta (ev_call e1) + rise delta (evs ++ [e2]))).
    rewrite rise_app. simpl. lia.
Qed.

End Nesting.

Ltac by_nest :=
  unfold nested, stamp, anchored, net;
  cbn [map app fold_right rise ev_call vDelta tDelta];
  lia.

Section DrawNesting.

Variable h : Host.

Lemma wallEvents_nested v t w :
  nested vDelta 1 (wallEvents h v t w) /\ nested tDelta 2 (wallEvents h v t w).
Proof.
  unfold wallEvents, wallCalls.
  destruct (lookup h (wallKey w)); [|split; by_nest].
  unfold anchored, screenPush. destruct (GetTranslationScreen h _). split; by_nest.
Qed.

Lemma floorEvents_nested mr v t f :
  nested vDelta 1 (floorEvents h mr v t f)
  /\ nested tDelta 2 (floorEvents h mr v t f).
Proof.
  unfold floorEvents, floorCalls.
  destruct (lookup h (floorKey mr f)); [|split; by_nest].
  unfold anchored, screenPush. destruct (GetTranslationScreen h _). split; by_nest.
Qed.

Lemma shadowEvents_nested v t f :
  nested vDelta 1 (shadowEvents h v t f) /\ nested tDelta 2 (shadowEvents h v t f).
Proof.
  unfold shadowEvents, shadowCalls.
  destruct (lookup h (shadowKey f)); [|split; by_nest].
  unfold anchored, screenPush. destruct (GetTranslationScreen h _). split; by_nest.
Qed.

Lemma entityEvents_nested v t k e :
  nested vDelta 1 (entityEvents h v t k e)
  /\ nested tDelta 2 (entityEvents h v t k e).
Proof.
  unfold entityEvents, screenPush. destruct (GetTranslationScreen h v).
  split; by_nest.
Qed.

Lemma tilePass1_nested mr v t tile :
  nested vDelta 1 (tilePass1 h mr v t tile)
  /\ nested tDelta 2 (tilePass1 h mr v t tile).
Proof.
  unfold tilePass1.
  split; repeat apply nested_app; apply nested_flat_map; try lia; intros x _;
    first [apply wallEvents_nested | apply floorEvents_nested
          | apply shadowEvents_nested].
Qed.

Lemma tilePass2_nested cell mr v t k x y tile :
  nested vDelta 1 (tilePass2 h cell mr v t k x y tile)
  /\ nested tDelta 2 (tilePass2 h cell mr v t k x y tile).
Proof.
  unfold tilePass2.
  split; repeat apply nested_app; apply nested_flat_map; try lia; intros e _;
    first [apply wallEvents_nested | apply entityEvents_nested].
Qed.

Lemma tilePass3_nested v t tile :
  nested vDelta 1 (tilePass3 h v t tile) /\ nested tDelta 2 (tilePass3 h v t tile).
Proof.
  unfold tilePass3.
  split; apply nested_flat_map; try lia; intros e _; apply wallEvents_nested.
Qed.

Lemma sweepBlocks_nested mr v k inner :
  (forall v' x y, nested vDelta 1 (inner v' x y) /\ nested tDelta 2 (inner v' x y)) ->
  nested vDelta 2 (sweepBlocks h mr v k inner)
  /\ nested tDelta 2 (sweepBlocks h mr v k inner).
Proof.
  intros Hi. unfold sweepBlocks.
  split; apply nested_flat_map; try lia; intros [x y] _; unfold visibleBlock;
    destruct (IsTileVisible h v (float_of_int x) (float_of_int y));
    try (apply nested_nil; lia).
  - apply (nested_bracket vDelta 1); try reflexivity. apply Hi.
  - apply nested_between; try reflexivity. apply Hi.
Qed.

Lemma walkMarkers_nested mr t k ax ay cs :
  flatMapOpt (fun yy => flatMapOpt (walkMarker mr ax ay yy) (upTo 5)) (upTo 5) = Some cs ->
  nested vDelta 0 (stamp t k cs) /\ nested tDelta 1 (stamp t k cs).
Proof.
  intros E.
  assert (Es : flatMapOpt (fun yy =>
                 flatMapOpt (fun xx => option_map (map (mkEvent t k))
                                         (walkMarker mr ax ay yy xx)) (upTo 5))
                 (upTo 5) = Some (stamp t k cs)).
  { rewrite (flatMapOpt_ext _ (fun yy => option_map (map (mkEvent t k))
                                 (flatMapOpt (walkMarker mr ax ay yy) (upTo 5)))).
    - rewrite flatMapOpt_option_map, E. reflexivity.
    - intros yy _. apply flatMapOpt_option_map. }
  assert (Hm : forall yy xx r',
             option_map (map (mkEvent t k)) (walkMarker mr ax ay yy xx) = Some r' ->
             nested vDelta 0 r' /\ nested tDelta 1 r').
  { intros yy xx r'. unfold walkMarker.
    destruct (meshAt mr (walkIndex mr ax ay xx yy)) as [[|]|];
      intros Er'; try discriminate; injection Er' as <-; split; by_nest. }
  split.
  - eapply nested_flatMapOpt; [lia | | exact Es].
    intros yy r Hyy Er. eapply nested_flatMapOpt; [lia | | exact Er].
    intros xx r' Hxx Er'. apply (Hm yy xx r' Er').
  - eapply nested_flatMapOpt; [lia | | exact Es].
    intros yy r Hyy Er. eapply nested_flatMapOpt; [lia | | exact Er].
    intros xx r' Hxx Er'. apply (Hm yy xx r' Er').
Qed.

Lemma debugCalls_nested mr level v t k ax ay cs :
  debugCalls h mr level v ax ay = Some cs ->
  nested vDelta 0 (stamp t k cs) /\ nested tDelta 2 (stamp t k cs).
Proof.
  unfold debugCalls, debugOutline.
  destruct (WorldToScreen h v (float_of_int ax) (float_of_int ay)) as [x1 y1].
  destruct (WorldToScreen h v (float_of_int (wrap64 (ax + 1))) (float_of_int ay)) as [x2 y2].
  destruct (WorldToScreen h v (float_of_int ax) (float_of_int (wrap64 (ay + 1)))) as [x3 y3].
  destruct (if 1 <? level then debugDetail h mr ax ay else Some []) as [detail|] eqn:Ed;
    [|discriminate].
  assert (Hd : nested vDelta 0 (stamp t k detail) /\ nested tDelta 1 (stamp t k detail)).
  { destruct (1 <? level); [|injection Ed as <-; split; apply nested_nil; lia].
    unfold debugDetail, appOpt in Ed.
    destruct (flatMapOpt (fun yy => flatMapOpt (walkMarker mr ax ay yy) (upTo 5)) (upTo 5))
      as [marks|] eqn:E; [|discriminate].
    assert (Hcs : detail = (flat_map gridLines (fromTo 1 4)
                            ++ flat_map (specialLabel h)
                                 (indexed (Walls (TileAt (mapEngine mr) ax ay))))
                           ++ marks) by congruence.
    subst detail. clear Ed.
    pose proof (walkMarkers_nested mr t k ax ay marks E) as [Hv Ht].
    unfold stamp in *. rewrite !map_app.
    fold (stamp t k (flat_map gridLines (fromTo 1 4))).
    fold (stamp t k (flat_map (specialLabel h)
                       (indexed (Walls (TileAt (mapEngine mr) ax ay))))).
    rewrite <- !stamp_flat_map.
    split; (apply nested_app; [apply nested_app|]); try assumption;
      apply nested_flat_map; try lia; intros x _;
      try (unfold gridLines; by_nest);
      destruct x as [i wall]; unfold specialLabel;
      destruct (Special h (w_Type wall)); by_nest. }
  destruct Hd as [Hv Ht].
  cbn [appOpt]. intros Ec.
  assert (Hcs : cs = [TPushTranslation x1 y1;
                      TDrawLine (wrap64 (x2 - x1)) (wrap64 (y2 - y1)) tileColor;
                      TDrawLine (wrap64 (x3 - x1)) (wrap64 (y3 - y1)) tileColor;
                      TPushTranslation (-10) 10; TDrawText "%v, %v"%string [ax; ay]; TPop]
                     ++ detail ++ [TPop]) by congruence.
  subst cs. clear Ec.
  unfold stamp in *. cbn [map app]. rewrite map_app. cbn [map].
  split.
  - apply (nested_between vDelta 0 _ (mkEvent t k TPop)
             (_ :: _ :: _ :: _ :: _ :: map (mkEvent t k) detail)); try reflexivity.
    apply (nested_app vDelta 0 [_; _; _; _; _]); [by_nest | exact Hv].
  - apply (nested_bracket tDelta 1 _ (mkEvent t k TPop)
             (_ :: _ :: _ :: _ :: _ :: map (mkEvent t k) detail)); try reflexivity.
    apply (nested_app tDelta 1 [_; _; _; _; _]); [by_nest | exact Ht].
Qed.

Lemma overlayEvents_nested mr v k evs :
  overlayEvents h mr v k = Some evs ->
  nested vDelta 2 evs /\ nested tDelta 2 evs.
Proof.
  unfold overlayEvents.
  destruct (0 <? debugVisLevel mr);
    [|intros E; injection E as <-; split; apply nested_nil; lia].
  unfold debugEvents, sweepEvents. intros E.
  assert (Hcell : forall p r,
             visibleTile h v k (fun v' x y =>
               option_map (stamp (Some (x, y)) k)
                 (debugCalls h mr (debugVisLevel mr) v' x y)) p = Some r ->
             nested vDelta 2 r /\ nested tDelta 2 r).
  { intros [x y] r. unfold visibleTile.
    destruct (IsTileVisible h v (float_of_int x) (float_of_int y));
      [|intros Er; injection Er as <-; split; apply nested_nil; lia].
    destruct (debugCalls h mr (debugVisLevel mr)
                (pushOffset (WorldToOrtho h (float_of_int x) (float_of_int y)) v) x y)
      as [cs|] eqn:Ec; [|discriminate].
    cbn [option_map appOpt app]. intros Er. injection Er as <-.
    destruct (debugCalls_nested mr _ _ (Some (x, y)) k x y cs Ec) as [Hv Ht].
    split.
    - apply (nested_mono vDelta 1 2); [lia|].
      apply (nested_bracket vDelta 0); try reflexivity. exact Hv.
    - apply nested_between; try reflexivity. exact Ht. }
  split; (eapply nested_flatMapOpt; [lia | | exact E]);
    intros p r _ Er; apply (Hcell p r Er).
Qed.

Lemma frameEvents_nested cell mr v k evs :
  frameEvents h cell mr v k = Some evs ->
  nested vDelta 2 evs /\ nested tDelta 2 evs.
Proof.
  unfold frameEvents.
  destruct (overlayEvents h mr v k) as [overlay|] eqn:Eo; [|discriminate].
  intros E. injection E as <-.
  destruct (overlayEvents_nested mr v k overlay Eo) as [Hv Ht].
  pose proof (sweepBlocks_nested mr v k _ (fun v' x y =>
                tilePass1_nested mr v' (Some (x, y)) (TileAt (mapEngine mr) x y)))
    as [H1v H1t].
  pose proof (sweepBlocks_nested mr v k _ (fun v' x y =>
                tilePass2_nested cell mr v' (Some (x, y)) k x y
                  (TileAt (mapEngine mr) x y)))
    as [H2v H2t].
  pose proof (sweepBlocks_nested mr v k _ (fun v' x y =>
                tilePass3_nested v' (Some (x, y)) (TileAt (mapEngine mr) x y)))
    as [H3v H3t].
  split; repeat apply nested_app; assumption.
Qed.

End DrawNesting.

(** X11 (depth of the stacks).  While [Render] runs, the viewport's
    translation stack is never more than 2 deeper than on entry (the
    tile's offset and one sub-record's offset), and the target surface's
    stack never more than 2 deeper (a translation and the shadow tint,
    or the overlay's tile translation and one inner translation); both
    end where they started. *)
Theorem X11_stacks_at_most_two_deep :
  forall h mr v pre,
    match Render h mr (entry v pre) with
    | Some (_, s') =>
        exists evs,
          calls s' = pre ++ evs
          /\ net vDelta evs = 0 /\ rise vDelta evs <= 2
          /\ net tDelta evs = 0 /\ rise tDelta evs <= 2
    | None => 1 < debugVisLevel mr /\ meshCovers (mapEngine mr) = false
    end.
Proof.
  intros h mr v pre.
  destruct (Render_cases h mr v pre) as [[evs [E ->]] | [-> Hp]]; [|exact Hp].
  exists evs. split; [reflexivity|].
  destruct (frameEvents_nested h _ mr v None evs E) as [[Nv Rv] [Nt Rt]].
  auto.
Qed.

Example sample_frame_reaches_depth_two :
  option_map (fun evs => (rise vDelta evs, rise tDelta evs))
    (frameEvents Sample.host (int_of_float oob_amd64) (Sample.renderer 2)
       (mkViewport []) None)
  = Some (2, 2).
Proof. vm_compute. reflexivity. Qed.

(** ** A frame after the clock has advanced *)

Lemma flat_map_ext_in {A B} (f g : A -> list B) (l : list A) :
  (forall x, In x l -> f x = g x) -> flat_map f l = flat_map g l.
Proof.
  induction l as [|x r IH]; intros H; simpl; [reflexivity|].
  rewrite (H x (or_introl eq_refl)), IH; auto.
  intros y Hy. apply H. right. exact Hy.
Qed.

Lemma sweepBlocks_ext h mr v k inner inner' :
  (forall v' x y, In (x, y) (sweep (mapEngine mr)) -> inner v' x y = inner' v' x y) ->
  sweepBlocks h mr v k inner = sweepBlocks h mr v k inner'.
Proof.
  intros H. unfold sweepBlocks. apply flat_map_ext_in.
  intros [x y] Hin. unfold visibleBlock. rewrite (H _ x y Hin). reflexivity.
Qed.

Lemma floorEvents_still h mr mr' v t f :
  fs_Animated f = false ->
  floorEvents h mr' v t f = floorEvents h mr v t f.
Proof.
  intros Hf. unfold floorEvents, floorCalls, floorKey. rewrite Hf. reflexivity.
Qed.

Lemma frameEvents_still h cell e level t c t' c' v k :
  (forall x y f, In (x, y) (sweep e) -> In f (Floors (TileAt e x y)) ->
                 fs_Animated f = false) ->
  frameEvents h cell (mkRenderer e level t' c') v k
  = frameEvents h cell (mkRenderer e level t c) v k.
Proof.
  intros Hs. unfold frameEvents.
  change (overlayEvents h (mkRenderer e level t' c') v k)
    with (overlayEvents h (mkRenderer e level t c) v k).
  change (pass2Events h cell (mkRenderer e level t' c') v k)
    with (pass2Events h cell (mkRenderer e level t c) v k).
  change (pass3Events h (mkRenderer e level t' c') v k)
    with (pass3Events h (mkRenderer e level t c) v k).
  assert (E1 : pass1Events h (mkRenderer e level t' c') v k
               = pass1Events h (mkRenderer e level t c) v k).
  { unfold pass1Events.
    change (sweepBlocks h (mkRenderer e level t' c') v k)
      with (sweepBlocks h (mkRenderer e level t c) v k).
    apply sweepBlocks_ext. intros v' x y Hin. cbn [mapEngine] in *.
    unfold tilePass1. f_equal. f_equal.
    apply flat_map_ext_in. intros f Hf. apply filter_In in Hf.
    apply floorEvents_still. apply (Hs x y f Hin). apply Hf. }
  rewrite E1. reflexivity.
Qed.

Lemma AdvanceAll_keeps oob ds :
  forall mr,
    mapEngine (AdvanceAll oob ds mr) = mapEngine mr
    /\ debugVisLevel (AdvanceAll oob ds mr) = debugVisLevel mr.
Proof.
  induction ds as [|d r IH]; intros mr; cbn [AdvanceAll fold_left].
  - split; reflexivity.
  - destruct (IH (Advance oob d mr)) as [E1 E2].
    unfold AdvanceAll in E1, E2. rewrite E1, E2. split; reflexivity.
Qed.

(** X12 (the clock and the frame).  [Advance] touches nothing [Render]
    reads except the frame index, and [Render] reads the frame index
    only for animated floors: on a map none of whose floors is animated,
    [Render] after any sequence of [Advance] calls does exactly what it
    does before, call for call. *)
Theorem X12_Render_after_Advance_without_animated_floors :
  forall h oob ds mr s,
    (forall x y f,
        In (x, y) (sweep (mapEngine mr)) ->
        In f (Floors (TileAt (mapEngine mr) x y)) ->
        fs_Animated f = false) ->
    Render h (AdvanceAll oob ds mr) s = Render h mr s.
Proof.
  intros h oob ds mr s Hs. rewrite !Render_run.
  destruct (AdvanceAll_keeps oob ds mr) as [Ee El].
  destruct (AdvanceAll oob ds mr) as [e' l' t' c'].
  destruct mr as [e l t c]. cbn [mapEngine debugVisLevel] in *. subst e' l'.
  rewrite (frameEvents_still h _ e l t c t' c' _ _ Hs). reflexivity.
Qed.

Lemma X12_Render_after_Advance_witness :
  Render Sample.host
    (AdvanceAll oob_amd64 [0.25%float; 0.5%float] (Sample.renderer 1)) Sample.start
  = Render Sample.host (Sample.renderer 1) Sample.start.
Proof.
  apply (X12_Render_after_Advance_without_animated_floors Sample.host oob_amd64
           [0.25%float; 0.5%float] (Sample.renderer 1) Sample.start).
  intros x y f _ Hf. cbn in Hf.
  destruct Hf as [<- | [<- | []]]; reflexivity.
Defined.

(** ** Which entities are drawn *)

Section EntityDraws.

Variable h : Host.

Lemma wallCalls_no_entity v w c :
  In c (wallCalls h v w) -> isEntityRender c = false.
Proof.
  unfold wallCalls, anchored, screenPush.
  destruct (lookup h (wallKey w)); [destruct (GetTranslationScreen h _)|];
    cbn [In app]; intros Hc;
    repeat (destruct Hc as [<- | Hc]; [reflexivity|]); destruct Hc.
Qed.

Lemma entity_in_pass2 cell mr v k id :
  In (EntityRender id) (map ev_call (pass2Events h cell mr v k))
  <-> exists e,
        In e (Entities (mapEngine mr)) /\ ent_id e = id
        /\ In (cell (ent_X e), cell (ent_Y e)) (sweep (mapEngine mr))
        /\ IsTileVisible h v (float_of_int (cell (ent_X e)))
             (float_of_int (cell (ent_Y e))) = true.
Proof.
  unfold pass2Events, sweepBlocks. split.
  - intros Hin. apply in_map_iff in Hin. destruct Hin as [ev [Ec Hev]].
    apply in_flat_map in Hev. destruct Hev as [[x y] [Hcell Hev]].
    unfold visibleBlock in Hev.
    destruct (IsTileVisible h v (float_of_int x) (float_of_int y)) eqn:Hvis;
      [|destruct Hev].
    destruct Hev as [<- | Hev]; [discriminate Ec|].
    apply in_app_or in Hev. destruct Hev as [Hev | [<- | []]]; [|discriminate Ec].
    unfold tilePass2 in Hev. apply in_app_or in Hev. destruct Hev as [Hev | Hev].
    + apply in_flat_map in Hev. destruct Hev as [w [_ Hev]].
      unfold wallEvents, stamp in Hev. apply in_map_iff in Hev.
      destruct Hev as [c [<- Hc]]. cbn [ev_call] in Ec. subst c.
      apply wallCalls_no_entity in Hc. discriminate Hc.
    + apply in_flat_map in Hev. destruct Hev as [e [He Hev]].
      apply filter_In in He. destruct He as [He Hon].
      unfold onTile in Hon. apply andb_prop in Hon. destruct Hon as [Hx Hy].
      apply Z.eqb_eq in Hx, Hy.
      unfold entityEvents, stamp, screenPush in Hev.
      destruct (GetTranslationScreen h _). cbn [map In] in Hev.
      destruct Hev as [<- | [<- | [<- | []]]]; cbn [ev_call] in Ec;
        try discriminate Ec.
      injection Ec as <-. exists e. rewrite Hx, Hy. auto.
  - intros [e [He [<- [Hcell Hvis]]]].
    apply in_map_iff.
    exists (mkEvent (Some (cell (ent_X e), cell (ent_Y e))) k (EntityRender (ent_id e))).
    split; [reflexivity|].
    apply in_flat_map. exists (cell (ent_X e), cell (ent_Y e)).
    split; [exact Hcell|].
    unfold visibleBlock. rewrite Hvis. right. apply in_or_app. left.
    unfold tilePass2. apply in_or_app. right.
    apply in_flat_map. exists e. split.
    + apply filter_In. split; [exact He|].
      unfold onTile. rewrite !Z.eqb_refl. reflexivity.
    + unfold entityEvents, stamp. cbn [map]. right. left. reflexivity.
Qed.

End EntityDraws.

(** X13 (which entities are drawn).  In pass 2 an entity's own [Render]
    is called if and only if the tile that Go's [int] conversion of its
    position names lies in the grid and is visible.  An entity standing
    outside the grid, or on a tile that is not visible, is not drawn. *)
Theorem X13_entities_drawn_iff_on_a_visible_tile :
  forall h mr v pre,
    exists evs,
      renderPass2 h mr (entry v pre) = Some (tt, entry v (pre ++ evs))
      /\ forall id,
           In (EntityRender id) (map ev_call evs)
           <-> exists e,
                 In e (Entities (mapEngine mr)) /\ ent_id e = id
                 /\ (0 <= int_of_float (oob h) (ent_X e) < Width (mapEngine mr)
                     /\ 0 <= int_of_float (oob h) (ent_Y e) < Height (mapEngine mr))
                 /\ IsTileVisible h v
                      (float_of_int (int_of_float (oob h) (ent_X e)))
                      (float_of_int (int_of_float (oob h) (ent_Y e))) = true.
Proof.
  intros h mr v pre.
  exists (pass2Events h (int_of_float (oob h)) mr v None).
  split; [rewrite renderPass2_run; reflexivity|].
  intros id. rewrite entity_in_pass2. split.
  - intros [e [He [Hid [Hcell Hvis]]]]. exists e.
    apply In_sweep in Hcell. auto.
  - intros [e [He [Hid [[Hx Hy] Hvis]]]]. exists e.
    pose proof (sweep_In (mapEngine mr) _ _ Hx Hy). auto.
Qed.

(** ** Hits and misses of the whole cache *)

Section CallKinds.

Variable h : Host.
Variable P : Call -> Prop.

Hypothesis P_world : forall x y, P (VPushTranslationWorld x y).
Hypothesis P_pop : P VPopTranslation.
Hypothesis P_entity : forall id, P (EntityRender id).
Hypothesis P_overlay : forall c, isOverlayCall c = true -> P c.
Hypothesis P_wall : forall v w c, In c (wallCalls h v w) -> P c.
Hypothesis P_floor : forall mr v f c, In c (floorCalls h mr v f) -> P c.
Hypothesis P_shadow : forall v f c, In c (shadowCalls h v f) -> P c.

Lemma Forall_stamped t k cs :
  (forall c, In c cs -> P c) -> Forall (fun e => P (ev_call e)) (stamp t k cs).
Proof.
  intros H. apply Forall_stamp. apply Forall_forall. exact H.
Qed.

Lemma sweepBlocks_calls mr v k inner :
  (forall v' x y, Forall (fun e => P (ev_call e)) (inner v' x y)) ->
  Forall (fun e => P (ev_call e)) (sweepBlocks h mr v k inner).
Proof.
  intros Hi. unfold sweepBlocks.
  apply Forall_flat_map, Forall_forall. intros [x y] _. unfold visibleBlock.
  destruct (IsTileVisible h v (float_of_int x) (float_of_int y)); [|constructor].
  constructor; [apply P_world|].
  apply Forall_app. split; [apply Hi|]. constructor; [apply P_pop | constructor].
Qed.

Lemma walls_calls v t (ws : list WallRecord) :
  Forall (fun e => P (ev_call e)) (flat_map (wallEvents h v t) ws).
Proof.
  apply Forall_flat_map, Forall_forall. intros w _.
  apply Forall_stamped. apply P_wall.
Qed.

Lemma debugCalls_overlay mr level v ax ay cs :
  debugCalls h mr level v ax ay = Some cs ->
  Forall (fun c => isOverlayCall c = true) cs.
Proof.
  unfold debugCalls, debugOutline.
  destruct (WorldToScreen h v (float_of_int ax) (float_of_int ay)) as [x1 y1].
  destruct (WorldToScreen h v (float_of_int (wrap64 (ax + 1))) (float_of_int ay)) as [x2 y2].
  destruct (WorldToScreen h v (float_of_int ax) (float_of_int (wrap64 (ay + 1)))) as [x3 y3].
  destruct (if 1 <? level then debugDetail h mr ax ay else Some []) as [detail|] eqn:Ed;
    [|discriminate].
  assert (Hd : Forall (fun c => isOverlayCall c = true) detail).
  { destruct (1 <? level); [|injection Ed as <-; constructor].
    unfold debugDetail, appOpt in Ed.
    destruct (flatMapOpt (fun yy => flatMapOpt (walkMarker mr ax ay yy) (upTo 5)) (upTo 5))
      as [marks|] eqn:E; [|discriminate].
    assert (Hcs : detail = (flat_map gridLines (fromTo 1 4)
                            ++ flat_map (specialLabel h)
                                 (indexed (Walls (TileAt (mapEngine mr) ax ay))))
                           ++ marks) by congruence.
    subst detail. clear Ed.
    rewrite !Forall_app. repeat split.
    - apply Forall_flat_map, Forall_forall. intros i _. repeat constructor.
    - apply Forall_flat_map, Forall_forall. intros [i w] _. unfold specialLabel.
      destruct (Special h (w_Type w)); repeat constructor.
    - eapply Forall_flatMapOpt; [|exact E]. intros yy r _ Er.
      eapply Forall_flatMapOpt; [|exact Er]. intros xx r' _ Er'.
      unfold walkMarker in Er'.
      destruct (meshAt mr (walkIndex mr ax ay xx yy)) as [[|]|];
        try discriminate; injection Er' as <-; repeat constructor. }
  cbn [appOpt]. intros Ec.
  assert (Hcs : cs = [TPushTranslation x1 y1;
                      TDrawLine (wrap64 (x2 - x1)) (wrap64 (y2 - y1)) tileColor;
                      TDrawLine (wrap64 (x3 - x1)) (wrap64 (y3 - y1)) tileColor;
                      TPushTranslation (-10) 10; TDrawText "%v, %v"%string [ax; ay]; TPop]
                     ++ detail ++ [TPop]) by congruence.
  subst cs. rewrite !Forall_app. repeat split; try assumption; repeat constructor.
Qed.

Lemma overlayEvents_calls mr v k evs :
  overlayEvents h mr v k = Some evs -> Forall (fun e => P (ev_call e)) evs.
Proof.
  unfold overlayEvents.
  destruct (0 <? debugVisLevel mr); [|intros E; injection E as <-; constructor].
  unfold debugEvents, sweepEvents.
  apply Forall_flatMapOpt. intros [x y] r _. unfold visibleTile.
  destruct (IsTileVisible h v (float_of_int x) (float_of_int y));
    [|intros E; injection E as <-; constructor].
  destruct (debugCalls h mr (debugVisLevel mr)
              (pushOffset (WorldToOrtho h (float_of_int x) (float_of_int y)) v) x y)
    as [cs|] eqn:Ec; [|discriminate].
  cbn [option_map appOpt app]. intros E. injection E as <-.
  constructor; [apply P_world|].
  apply Forall_app. split; [|constructor; [apply P_pop | constructor]].
  apply Forall_stamped. intros c Hc. apply P_overlay.
  apply (proj1 (Forall_forall _ _) (debugCalls_overlay mr _ _ x y cs Ec) c Hc).
Qed.

Lemma frameEvents_calls cell mr v k evs :
  frameEvents h cell mr v k = Some evs -> Forall (fun e => P (ev_call e)) evs.
Proof.
  unfold frameEvents.
  destruct (overlayEvents h mr v k) as [overlay|] eqn:Eo; [|discriminate].
  intros E. injection E as <-.
  rewrite !Forall_app. repeat split.
  - apply sweepBlocks_calls. intros v' x y. unfold tilePass1.
    rewrite !Forall_app. repeat split.
    + apply walls_calls.
    + apply Forall_flat_map, Forall_forall. intros f _.
      apply Forall_stamped. apply P_floor.
    + apply Forall_flat_map, Forall_forall. intros f _.
      apply Forall_stamped. apply P_shadow.
  - apply (overlayEvents_calls mr v k overlay Eo).
  - apply sweepBlocks_calls. intros v' x y. unfold tilePass2.
    rewrite !Forall_app. split; [apply walls_calls|].
    apply Forall_flat_map, Forall_forall. intros e _.
    apply Forall_stamped. unfold screenPush.
    destruct (GetTranslationScreen h v'). cbn [In].
    intros c [<- | [<- | [<- | []]]];
      [apply P_overlay; reflexivity | apply P_entity | apply P_overlay; reflexivity].
  - apply sweepBlocks_calls. intros v' x y. apply walls_calls.
Qed.

End CallKinds.

(** X14 (empty cache).  When the tile image cache holds nothing (as when
    [generateTileCache] has not run), [Render] draws no image at all:
    the target receives no [Render(img)]; a frame still returns. *)
Theorem X14_empty_cache_draws_no_image :
  forall h mr v pre,
    (forall style sequence tileType index,
        getImageCacheRecord h style sequence tileType index = None) ->
    match Render h mr (entry v pre) with
    | Some (_, s') =>
        exists evs, calls s' = pre ++ evs
                    /\ Forall (fun e => isRender (ev_call e) = false) evs
    | None => 1 < debugVisLevel mr /\ meshCovers (mapEngine mr) = false
    end.
Proof.
  intros h mr v pre Hc.
  assert (Hl : forall k, lookup h k = None)
    by (intros [[[a b] c] d]; apply Hc).
  destruct (Render_cases h mr v pre) as [[evs [E ->]] | [-> Hp]]; [|exact Hp].
  exists evs. split; [reflexivity|].
  eapply (frameEvents_calls h (fun c => isRender c = false)); [.. | exact E];
    try (intros; reflexivity).
  - intros c Hk. destruct c; try discriminate Hk; reflexivity.
  - intros v' w c. unfold wallCalls. rewrite Hl. intros [<- | []]. reflexivity.
  - intros mr' v' f c. unfold floorCalls. rewrite Hl. intros [<- | []]. reflexivity.
  - intros v' f c. unfold shadowCalls. rewrite Hl. intros [<- | []]. reflexivity.
Qed.

Lemma X14_empty_cache_witness :
  match Render (withCache (fun _ _ _ _ => None) Sample.host) (Sample.renderer 0)
          Sample.start with
  | Some (_, s') =>
      exists evs, calls s' = [] ++ evs
                  /\ Forall (fun e => isRender (ev_call e) = false) evs
  | None => 1 < debugVisLevel (Sample.renderer 0)
            /\ meshCovers (mapEngine (Sample.renderer 0)) = false
  end.
Proof.
  apply (X14_empty_cache_draws_no_image (withCache (fun _ _ _ _ => None) Sample.host)
           (Sample.renderer 0) (mkViewport []) []).
  reflexivity.
Defined.

(** X15 (full cache).  [Render] writes to the log only on a cache miss:
    when every lookup finds an image, a frame logs nothing. *)
Theorem X15_no_miss_no_log :
  forall h mr v pre,
    (forall style sequence tileType index,
        getImageCacheRecord h style sequence tileType index <> None) ->
    match Render h mr (entry v pre) with
    | Some (_, s') =>
        exists evs, calls s' = pre ++ evs
                    /\ Forall (fun e => isLog (ev_call e) = false) evs
    | None => 1 < debugVisLevel mr /\ meshCovers (mapEngine mr) = false
    end.
Proof.
  intros h mr v pre Hc.
  assert (Hl : forall k, lookup h k <> None)
    by (intros [[[a b] c] d]; apply Hc).
  destruct (Render_cases h mr v pre) as [[evs [E ->]] | [-> Hp]]; [|exact Hp].
  exists evs. split; [reflexivity|].
  eapply (frameEvents_calls h (fun c => isLog c = false)); [.. | exact E];
    try (intros; reflexivity).
  - intros c Hk. destruct c; try discriminate Hk; reflexivity.
  - intros v' w c. unfold wallCalls, anchored, screenPush.
    destruct (lookup h (wallKey w)) eqn:El; [|destruct (Hl _ El)].
    destruct (GetTranslationScreen h _). cbn [In app]. intros Hin.
    repeat (destruct Hin as [<- | Hin]; [reflexivity|]). destruct Hin.
  - intros mr' v' f c. unfold floorCalls, anchored, screenPush.
    destruct (lookup h (floorKey mr' f)) eqn:El; [|destruct (Hl _ El)].
    destruct (GetTranslationScreen h _). cbn [In app]. intros Hin.
    repeat (destruct Hin as [<- | Hin]; [reflexivity|]). destruct Hin.
  - intros v' f c. unfold shadowCalls, anchored, screenPush.
    destruct (lookup h (shadowKey f)) eqn:El; [|destruct (Hl _ El)].
    destruct (GetTranslationScreen h _). cbn [In app]. intros Hin.
    repeat (destruct Hin as [<- | Hin]; [reflexivity|]). destruct Hin.
Qed.

Lemma X15_no_miss_no_log_witness :
  match Render (withCache (fun _ _ _ _ => Some 1) Sample.host) (Sample.renderer 2)
          Sample.start with
  | Some (_, s') =>
      exists evs, calls s' = [] ++ evs
                  /\ Forall (fun e => isLog (ev_call e) = false) evs
  | None => 1 < debugVisLevel (Sample.renderer 2)
            /\ meshCovers (mapEngine (Sample.renderer 2)) = false
  end.
Proof.
  apply (X15_no_miss_no_log (withCache (fun _ _ _ _ => Some 1) Sample.host)
           (Sample.renderer 2) (mkViewport []) []).
  discriminate.
Defined.

(** ** The upper bound of the frame index *)

(** X16 (frame index never above 9).  Whatever the elapsed times are
    (negative, huge, infinite or not a number) and whatever an
    out-of-range conversion to [int] yields, a run of [Advance] calls
    from a frame index of at most 9 ends at a frame index of at most 9:
    the reset of the code holds the upper bound unconditionally. *)
Theorem X16_frame_index_never_above_9 :
  forall oob ds mr,
    currentFrame mr <= 9 ->
    currentFrame (AdvanceAll oob ds mr) <= 9.
Proof.
  intros oob ds. induction ds as [|d r IH]; intros mr Hc.
  - exact Hc.
  - cbn [AdvanceAll fold_left]. fold (AdvanceAll oob r (Advance oob d mr)).
    apply IH. apply Advance_frame_le_9.
Qed.

Lemma X16_frame_index_never_above_9_witness :
  currentFrame
    (AdvanceAll oob_amd64 [(-1)%float; infinity; nan; 0.25%float]
       (CreateMapRenderer Sample.engine)) <= 9.
Proof.
  apply (X16_frame_index_never_above_9 oob_amd64
           [(-1)%float; infinity; nan; 0.25%float]
           (CreateMapRenderer Sample.engine)).
  cbn. lia.
Defined.
